(** * The Consul service-registration reconciler of the Nomad agent

    A shallow embedding of [command/agent/consul]: the [ServiceClient]
    (its operation queue, desired-state store, [merge], [sync] and the
    [Run] loop), the check translator [createCheckReg], the identifier
    scheme, and the script-check worker [scriptCheck.run].

    Go maps are [gmap]s with string keys, [time.Duration] and [int] are
    64-bit signed integers carried in [Z] with the wrap-around written
    out, pointers that the code mutates are threaded explicitly. *)

From Stdlib Require Import ZArith String Ascii List Lia.
From stdpp Require Import base option list gmap strings fin_maps.

Local Open Scope string_scope.
Local Open Scope Z_scope.

Set Warnings "-clear-no-such-hyp".

(** ** The Go runtime and standard library, as far as the package uses them

    Integer arithmetic is that of the language; the functions follow the
    standard library ([time], [strconv], [net], [strings]). *)

Module Go.

(** Two's-complement reduction of an integer to [int64]. *)
Definition wrap64 (z : Z) : Z := (z + 2 ^ 63) mod 2 ^ 64 - 2 ^ 63.

Definition MaxInt64 : Z := 2 ^ 63 - 1.
Definition MinInt64 : Z := - 2 ^ 63.

Definition int64_range (z : Z) : Prop := MinInt64 <= z <= MaxInt64.

(** [int] is 64 bits wide on the platforms the agent is built for. *)
Definition int_add (a b : Z) : Z := wrap64 (a + b).

(** [time.Duration] is an [int64] count of nanoseconds. *)
Definition Duration := Z.
Definition Nanosecond : Duration := 1.
Definition Microsecond : Duration := 1000 * Nanosecond.
Definition Millisecond : Duration := 1000 * Microsecond.
Definition Second : Duration := 1000 * Millisecond.
Definition Minute : Duration := 60 * Second.

Definition Duration_add (a b : Duration) : Duration := wrap64 (a + b).
Definition Duration_mul (a b : Duration) : Duration := wrap64 (a * b).

(** [byte(d) + '0'] *)
Definition digit (d : Z) : ascii := ascii_of_nat (48 + Z.to_nat d).

(** [time.fmtInt]: the decimal digits of [v] written in front of [buf].
    A [uint64] has at most twenty digits, which bounds the loop. *)
Fixpoint fmtInt_loop (fuel : nat) (buf : string) (v : Z) : string :=
  match fuel with
  | O => buf
  | S fuel' =>
      if 0 <? v then fmtInt_loop fuel' (String (digit (v mod 10)) buf) (v / 10)
      else buf
  end.

Definition fmtInt (buf : string) (v : Z) : string :=
  if v =? 0 then String "0" buf else fmtInt_loop 20 buf v.

(** [time.fmtFrac]: the fraction of [v / 10^prec] written in front of
    [buf] without trailing zeros, and the quotient. *)
Fixpoint fmtFrac_loop (prec : nat) (buf : string) (v : Z) (print : bool)
  : string * Z * bool :=
  match prec with
  | O => (buf, v, print)
  | S prec' =>
      let d := v mod 10 in
      let print := print || negb (d =? 0) in
      let buf := if print then String (digit d) buf else buf in
      fmtFrac_loop prec' buf (v / 10) print
  end.

Definition fmtFrac (buf : string) (v : Z) (prec : nat) : string * Z :=
  let '(buf, v, print) := fmtFrac_loop prec buf v false in
  (if print then String "." buf else buf, v).

(** [time.Duration.String], e.g. ["72h3m0.5s"], ["41s"], ["1.5ms"]. *)
Definition Duration_String (d : Duration) : string :=
  let neg := d <? 0 in
  let u := d mod 2 ^ 64 in
  let u := if neg then (- u) mod 2 ^ 64 else u in
  let body :=
    if u <? Second then
      if u =? 0 then "0s"
      else if u <? Microsecond then
        let '(buf, u) := fmtFrac "ns" u 0 in fmtInt buf u
      else if u <? Millisecond then
        let '(buf, u) := fmtFrac "µs" u 3 in fmtInt buf u
      else
        let '(buf, u) := fmtFrac "ms" u 6 in fmtInt buf u
    else
      let '(buf, u) := fmtFrac "s" u 9 in
      let buf := fmtInt buf (u mod 60) in
      let u := u / 60 in
      if 0 <? u then
        let buf := fmtInt (String "m" buf) (u mod 60) in
        let u := u / 60 in
        if 0 <? u then fmtInt (String "h" buf) u else buf
      else buf
  in
  if neg then String "-" body else body.

(** [strconv.Itoa] *)
Definition Itoa (i : Z) : string :=
  if i <? 0 then String "-" (fmtInt "" (- i)) else fmtInt "" i.

(** [strings.IndexByte(s, c) >= 0] *)
Fixpoint contains_byte (c : ascii) (s : string) : bool :=
  match s with
  | EmptyString => false
  | String a s' => if Ascii.eqb a c then true else contains_byte c s'
  end.

(** [net.JoinHostPort]: a host with a colon or a percent sign is an
    IPv6 literal and goes between brackets. *)
Definition JoinHostPort (host port : string) : string :=
  if contains_byte ":" host || contains_byte "%" host
  then "[" ++ host ++ "]:" ++ port
  else host ++ ":" ++ port.

(** [strings.HasPrefix(s, prefix)] *)
Definition HasPrefix (s pre : string) : bool := String.prefix pre s.

(** [strings.Join] *)
Definition Join (parts : list string) (sep : string) : string :=
  String.concat sep parts.

End Go.

(** Go's [error] values.  [fmt.Errorf] is kept as the call it is: the
    format and its operands. *)
Inductive error : Type :=
| ExternalError (text : string)
| Errorf (format : string) (operands : list string)
| ErrorfWrap (format : string) (operands : list string) (cause : error).

(** A call of [logger.Printf]. *)
Inductive operand := OpString (s : string) | OpError (e : error).
Record LogLine := Printf { log_format : string; log_operands : list operand }.

(** ** The workload model ([nomad/structs]), as the package reads it *)

(** Modelled from the spec: the declared check, [structs.ServiceCheck],
    whose declaration is not among the sources; the fields are those the
    package reads and writes. *)
Module ServiceCheck.
Record t := mk {
  Name : string;
  Type_ : string;
  Command : string;
  Args : list string;
  Path : string;
  Protocol : string;
  PortLabel : string;
  Interval : Go.Duration;
  Timeout : Go.Duration;
  InitialStatus : string
}.

Definition set_Protocol (p : string) (c : t) : t :=
  mk (Name c) (Type_ c) (Command c) (Args c) (Path c) p (PortLabel c)
     (Interval c) (Timeout c) (InitialStatus c).
End ServiceCheck.

(** Modelled from the spec: a declared service, [structs.Service], with
    its checks behind pointers. *)
Module Service.
Record t := mk {
  Name : string;
  PortLabel : string;
  Tags : list string;
  Checks : list ServiceCheck.t
}.

Definition set_Checks (cs : list ServiceCheck.t) (s : t) : t :=
  mk (Name s) (PortLabel s) (Tags s) cs.
End Service.

(** Modelled from the spec: the three check types, the constants
    [structs.ServiceCheckHTTP], [ServiceCheckTCP] and
    [ServiceCheckScript]. *)
Definition ServiceCheckHTTP : string := "http".
Definition ServiceCheckTCP : string := "tcp".
Definition ServiceCheckScript : string := "script".

(** ** The registry's records ([consul/api]) *)

(** Modelled from the spec: a service registration,
    [api.AgentServiceRegistration]. *)
Module AgentServiceRegistration.
Record t := mk {
  ID : string;
  Name : string;
  Tags : list string;
  Address : string;
  Port : Z
}.
End AgentServiceRegistration.

(** Modelled from the spec: a check registration,
    [api.AgentCheckRegistration]; durations travel as strings. *)
Module AgentCheckRegistration.
Record t := mk {
  ID : string;
  Name : string;
  ServiceID : string;
  Status : string;
  Timeout : string;
  Interval : string;
  HTTP : string;
  TCP : string;
  TTL : string
}.

Definition set_HTTP (v : string) (r : t) : t :=
  mk (ID r) (Name r) (ServiceID r) (Status r) (Timeout r) (Interval r)
     v (TCP r) (TTL r).
Definition set_TCP (v : string) (r : t) : t :=
  mk (ID r) (Name r) (ServiceID r) (Status r) (Timeout r) (Interval r)
     (HTTP r) v (TTL r).
Definition set_TTL (v : string) (r : t) : t :=
  mk (ID r) (Name r) (ServiceID r) (Status r) (Timeout r) (Interval r)
     (HTTP r) (TCP r) v.
End AgentCheckRegistration.

(** Modelled from the spec: the three health states of a check,
    [api.HealthPassing], [api.HealthWarning] and [api.HealthCritical]. *)
Definition HealthPassing : string := "passing".
Definition HealthWarning : string := "warning".
Definition HealthCritical : string := "critical".

(** ** Collaborators outside the package

    What the package calls but does not define: the check hash and the
    port lookup of the workload model, the script executor, and the
    parsers of [net], [strconv] and [net/url]. *)

Class Externals := {
  (** [structs.ServiceCheck.Hash] *)
  ServiceCheck_Hash : ServiceCheck.t → string → string;
  (** [structs.Task.Resources] and the lookup of a port label in it,
      [structs.Task.FindHostAndPortFor] *)
  Resources : Type;
  FindHostAndPortFor : Resources → string → string * Z;
  (** [net.SplitHostPort] *)
  net_SplitHostPort : string → (string * string) + error;
  (** [strconv.Atoi] *)
  strconv_Atoi : string → Z + error;
  (** [driver.ScriptExecutor] *)
  ScriptExecutor : Type;
  (** [url.URL] as returned by [url.Parse] *)
  URL : Type;
  url_Parse : string → URL + error;
  (** [url.URL{Scheme, Host}.ResolveReference(relative).String()] *)
  url_ResolveReference : string → string → URL → string
}.

(** Modelled from the spec: a task, [structs.Task], with its services
    behind pointers. *)
Module Task.
Record t `{Externals} := mk {
  Name : string;
  Services : list Service.t;
  Resources_ : Resources
}.

Definition set_Services `{Externals} (ss : list Service.t) (k : t) : t :=
  mk _ (Name k) ss (Resources_ k).
End Task.

(** ** Constants *)

Definition nomadServicePrefix : string := "_nomad".
Definition defaultRetryInterval : Go.Duration := Go.Second.
Definition defaultMaxRetryInterval : Go.Duration := 30 * Go.Second.
Definition ttlCheckBuffer : Go.Duration := 31 * Go.Second.
Definition defaultShutdownWait : Go.Duration := Go.Minute.

(** ** The identifier scheme *)

Definition makeAgentServiceID (role : string) (service : Service.t) : string :=
  Go.Join ([nomadServicePrefix; role; Service.Name service]
             ++ Service.Tags service) "-".

Definition makeTaskServiceID (allocID taskName : string) (service : Service.t)
  : string :=
  Go.Join ([nomadServicePrefix; "executor"; allocID; taskName;
            Service.Name service] ++ Service.Tags service) "-".

Definition createCheckID `{Externals} (serviceID : string)
    (check : ServiceCheck.t) : string :=
  ServiceCheck_Hash check serviceID.

Definition isNomadService (id : string) : bool :=
  Go.HasPrefix id nomadServicePrefix.

(** ** The check translator

    [check] is a pointer in the source and the HTTP branch writes through
    it, so the translator returns the check record as the caller sees it
    afterwards, next to its result. *)

Definition createCheckReg `{Externals} (serviceID checkID : string)
    (check : ServiceCheck.t) (host : string) (port : Z)
  : (AgentCheckRegistration.t + error) * ServiceCheck.t :=
  let chkReg :=
    AgentCheckRegistration.mk checkID (ServiceCheck.Name check) serviceID
      (ServiceCheck.InitialStatus check)
      (Go.Duration_String (ServiceCheck.Timeout check))
      (Go.Duration_String (ServiceCheck.Interval check))
      "" "" "" in
  if String.eqb (ServiceCheck.Type_ check) ServiceCheckHTTP then
    let check :=
      if String.eqb (ServiceCheck.Protocol check) ""
      then ServiceCheck.set_Protocol "http" check else check in
    match url_Parse (ServiceCheck.Path check) with
    | inr err => (inr err, check)
    | inl relative =>
        let url :=
          url_ResolveReference (ServiceCheck.Protocol check)
            (Go.JoinHostPort host (Go.Itoa port)) relative in
        (inl (AgentCheckRegistration.set_HTTP url chkReg), check)
    end
  else if String.eqb (ServiceCheck.Type_ check) ServiceCheckTCP then
    (inl (AgentCheckRegistration.set_TCP
            (Go.JoinHostPort host (Go.Itoa port)) chkReg), check)
  else if String.eqb (ServiceCheck.Type_ check) ServiceCheckScript then
    (inl (AgentCheckRegistration.set_TTL
            (Go.Duration_String
               (Go.Duration_add (ServiceCheck.Interval check) ttlCheckBuffer))
            chkReg), check)
  else
    (inr (Errorf "check type %+q not valid" [ServiceCheck.Type_ check]),
     check).

(** ** The registry agent ([AgentAPI]) *)

(** Modelled from the spec: a service as the registry lists it,
    [api.AgentService]. *)
Module AgentService.
Record t := mk {
  ID : string;
  Service : string;
  Tags : list string;
  Port : Z;
  Address : string
}.
End AgentService.

(** Modelled from the spec: a check as the registry lists it,
    [api.AgentCheck]; the pass reads the ID of the owning service. *)
Module AgentCheck.
Record t := mk {
  CheckID : string;
  Name : string;
  Status : string;
  Output : string;
  ServiceID : string
}.
End AgentCheck.

(** The subset of the agent API the package consumes.  A call takes the
    registry to its next state and may fail. *)
Class AgentAPI (R : Type) := {
  Services : R → (gmap string AgentService.t + error) * R;
  Checks : R → (gmap string AgentCheck.t + error) * R;
  CheckRegister : AgentCheckRegistration.t → R → option error * R;
  CheckDeregister : string → R → option error * R;
  ServiceRegister : AgentServiceRegistration.t → R → option error * R;
  ServiceDeregister : string → R → option error * R;
  UpdateTTL : string → string → string → R → option error * R
}.

(** Go leaves the order of a [range] over a map unspecified and varies it
    from one loop to the next: [range seed m] is the order of the loop
    numbered [seed]. *)
Class MapRange := {
  range : nat → ∀ {V : Type}, gmap string V → list (string * V);
  range_perm : ∀ seed V (m : gmap string V), range seed m ≡ₚ map_to_list m
}.

(** ** Script checks and their handles *)

Module scriptCheck.
Record t `{Externals} := mk {
  id : string;
  check : ServiceCheck.t;
  exec : ScriptExecutor;
  running : bool;
  (** true if the last check was ok *)
  lastCheckOk : bool
}.

Definition set_running `{Externals} (b : bool) (s : t) : t :=
  mk _ (id s) (check s) (exec s) b (lastCheckOk s).
End scriptCheck.

(** [newScriptCheck] as script.go declares it: a check ID, the check and
    the executor (the call sites put the allocation ID and the task name
    in front); the agent, logger and shutdown channel it stores are
    those of the client. *)
Definition newScriptCheck `{Externals} (id : string) (check : ServiceCheck.t)
    (exec : ScriptExecutor) : scriptCheck.t :=
  scriptCheck.mk _ id check exec false true.

(** A live reference to a worker.  [cancel] cancels the worker's context:
    the handle records whether that has happened. *)
Module scriptHandle.
Record t := mk { cancelled : bool }.
Definition cancel (h : t) : t := mk true.
End scriptHandle.

(** [scriptCheck.run], seen from the sync loop: the worker is started on
    a fresh context, the check is marked running. *)
Definition scriptCheck_run `{Externals} (s : scriptCheck.t)
  : scriptHandle.t * scriptCheck.t :=
  (scriptHandle.mk false, scriptCheck.set_running true s).

(** ** Operation batches and the client *)

Module operations.
Record t `{Externals} := mk {
  regServices : list AgentServiceRegistration.t;
  regChecks : list AgentCheckRegistration.t;
  scripts : list scriptCheck.t;
  deregServices : list string;
  deregChecks : list string
}.

Definition empty `{Externals} : t := mk _ [] [] [] [] [].

Section Append.
Context `{Externals}.
Definition add_regService v (o : t) : t :=
  mk _ (regServices o ++ [v]) (regChecks o) (scripts o)
     (deregServices o) (deregChecks o).
Definition add_regCheck v (o : t) : t :=
  mk _ (regServices o) (regChecks o ++ [v]) (scripts o)
     (deregServices o) (deregChecks o).
Definition add_script v (o : t) : t :=
  mk _ (regServices o) (regChecks o) (scripts o ++ [v])
     (deregServices o) (deregChecks o).
Definition add_deregService v (o : t) : t :=
  mk _ (regServices o) (regChecks o) (scripts o)
     (deregServices o ++ [v]) (deregChecks o).
Definition add_deregCheck v (o : t) : t :=
  mk _ (regServices o) (regChecks o) (scripts o)
     (deregServices o) (deregChecks o ++ [v]).
End Append.
End operations.

Module ServiceClient.
Record t `{Externals} := mk {
  logger : list LogLine;
  retryInterval : Go.Duration;
  maxRetryInterval : Go.Duration;
  (** closed when the main Run loop exits *)
  exitCh : bool;
  (** closed when the client should shutdown *)
  shutdownCh : bool;
  shutdownWait : Go.Duration;
  (** the buffered channel of batches, oldest first *)
  opCh : list operations.t;
  services : gmap string AgentServiceRegistration.t;
  checks : gmap string AgentCheckRegistration.t;
  scripts : gmap string scriptCheck.t;
  runningScripts : gmap string scriptHandle.t;
  (** entries for the agent itself, removed on shutdown *)
  agentServices : gmap string ();
  agentChecks : gmap string ()
}.

Section Setters.
Context `{Externals}.

Definition set_logger v (c : t) : t :=
  mk _ v (retryInterval c) (maxRetryInterval c) (exitCh c) (shutdownCh c)
     (shutdownWait c) (opCh c) (services c) (checks c) (scripts c)
     (runningScripts c) (agentServices c) (agentChecks c).
Definition set_exitCh v (c : t) : t :=
  mk _ (logger c) (retryInterval c) (maxRetryInterval c) v (shutdownCh c)
     (shutdownWait c) (opCh c) (services c) (checks c) (scripts c)
     (runningScripts c) (agentServices c) (agentChecks c).
Definition set_shutdownCh v (c : t) : t :=
  mk _ (logger c) (retryInterval c) (maxRetryInterval c) (exitCh c) v
     (shutdownWait c) (opCh c) (services c) (checks c) (scripts c)
     (runningScripts c) (agentServices c) (agentChecks c).
Definition set_opCh v (c : t) : t :=
  mk _ (logger c) (retryInterval c) (maxRetryInterval c) (exitCh c)
     (shutdownCh c) (shutdownWait c) v (services c) (checks c) (scripts c)
     (runningScripts c) (agentServices c) (agentChecks c).
Definition set_services v (c : t) : t :=
  mk _ (logger c) (retryInterval c) (maxRetryInterval c) (exitCh c)
     (shutdownCh c) (shutdownWait c) (opCh c) v (checks c) (scripts c)
     (runningScripts c) (agentServices c) (agentChecks c).
Definition set_checks v (c : t) : t :=
  mk _ (logger c) (retryInterval c) (maxRetryInterval c) (exitCh c)
     (shutdownCh c) (shutdownWait c) (opCh c) (services c) v (scripts c)
     (runningScripts c) (agentServices c) (agentChecks c).
Definition set_scripts v (c : t) : t :=
  mk _ (logger c) (retryInterval c) (maxRetryInterval c) (exitCh c)
     (shutdownCh c) (shutdownWait c) (opCh c) (services c) (checks c) v
     (runningScripts c) (agentServices c) (agentChecks c).
Definition set_runningScripts v (c : t) : t :=
  mk _ (logger c) (retryInterval c) (maxRetryInterval c) (exitCh c)
     (shutdownCh c) (shutdownWait c) (opCh c) (services c) (checks c)
     (scripts c) v (agentServices c) (agentChecks c).
Definition set_agentServices v (c : t) : t :=
  mk _ (logger c) (retryInterval c) (maxRetryInterval c) (exitCh c)
     (shutdownCh c) (shutdownWait c) (opCh c) (services c) (checks c)
     (scripts c) (runningScripts c) v (agentChecks c).
Definition set_agentChecks v (c : t) : t :=
  mk _ (logger c) (retryInterval c) (maxRetryInterval c) (exitCh c)
     (shutdownCh c) (shutdownWait c) (opCh c) (services c) (checks c)
     (scripts c) (runningScripts c) (agentServices c) v.

Definition log (l : LogLine) (c : t) : t := set_logger (logger c ++ [l]) c.
End Setters.
End ServiceClient.

(** The case a two-way [select] takes when both are ready. *)
Inductive Pick := PickSend | PickShutdown.

#[global] Instance Pick_eq_dec : EqDecision Pick.
Proof. solve_decision. Defined.

Section Client.
Context `{Externals}.

(** The capacity of [opCh]. *)
Definition opChCap : nat := 8.

Definition NewServiceClient : ServiceClient.t :=
  ServiceClient.mk _ [] defaultRetryInterval defaultMaxRetryInterval
    false false defaultShutdownWait [] ∅ ∅ ∅ ∅ ∅ ∅.

(** *** commit

    A [select] whose cases are both ready takes one of them by a
    pseudo-random choice, here [pick]; one with no ready case blocks,
    which is [None]. *)

Definition commit (pick : Pick) (ops : operations.t) (c : ServiceClient.t)
  : option (bool * ServiceClient.t) :=
  let send := (true, ServiceClient.set_opCh (ServiceClient.opCh c ++ [ops]) c) in
  match bool_decide (length (ServiceClient.opCh c) < opChCap)%nat,
        ServiceClient.shutdownCh c with
  | true, true =>
      match pick with PickSend => Some send | PickShutdown => Some (false, c) end
  | true, false => Some send
  | false, true => Some (false, c)
  | false, false => None
  end.

(** *** merge *)

Definition merge_regServices (l : list AgentServiceRegistration.t)
    (c : ServiceClient.t) : ServiceClient.t :=
  foldl (λ c s, ServiceClient.set_services
                  (<[AgentServiceRegistration.ID s := s]> (ServiceClient.services c)) c)
        c l.

Definition merge_regChecks (l : list AgentCheckRegistration.t)
    (c : ServiceClient.t) : ServiceClient.t :=
  foldl (λ c check, ServiceClient.set_checks
                  (<[AgentCheckRegistration.ID check := check]> (ServiceClient.checks c)) c)
        c l.

Definition merge_scripts (l : list scriptCheck.t)
    (c : ServiceClient.t) : ServiceClient.t :=
  foldl (λ c s, ServiceClient.set_scripts
                  (<[scriptCheck.id s := s]> (ServiceClient.scripts c)) c)
        c l.

Definition merge_deregServices (l : list string)
    (c : ServiceClient.t) : ServiceClient.t :=
  foldl (λ c sid, ServiceClient.set_services
                  (delete sid (ServiceClient.services c)) c)
        c l.

(** The body of the last loop: a check with a live handle has the
    handle's [cancel] called and its script definition dropped. *)
Definition deregCheck (c : ServiceClient.t) (cid : string) : ServiceClient.t :=
  let c :=
    match ServiceClient.runningScripts c !! cid with
    | Some script =>
        let c := ServiceClient.set_runningScripts
                   (<[cid := scriptHandle.cancel script]>
                      (ServiceClient.runningScripts c)) c in
        ServiceClient.set_scripts (delete cid (ServiceClient.scripts c)) c
    | None => c
    end in
  ServiceClient.set_checks (delete cid (ServiceClient.checks c)) c.

Definition merge_deregChecks (l : list string)
    (c : ServiceClient.t) : ServiceClient.t :=
  foldl deregCheck c l.

Definition merge (ops : operations.t) (c : ServiceClient.t) : ServiceClient.t :=
  let c := merge_regServices (operations.regServices ops) c in
  let c := merge_regChecks (operations.regChecks ops) c in
  let c := merge_scripts (operations.scripts ops) c in
  let c := merge_deregServices (operations.deregServices ops) c in
  merge_deregChecks (operations.deregChecks ops) c.

End Client.

(** ** sync: one reconcile pass *)

Section Sync.
Context `{Externals} `{MapRange} {R : Type} `{AgentAPI R}.

(** Remove Nomad services in Consul but unknown locally. *)
Fixpoint sync_deregServices (c : ServiceClient.t)
    (l : list (string * AgentService.t)) (r : R) (sdereg : Z)
  : option error * R * Z :=
  match l with
  | [] => (None, r, sdereg)
  | (id, _) :: l' =>
      match ServiceClient.services c !! id with
      | Some _ => sync_deregServices c l' r sdereg
      | None =>
          if negb (isNomadService id) then sync_deregServices c l' r sdereg
          else
            match ServiceDeregister id r with
            | (Some err, r') => (Some err, r', sdereg)
            | (None, r') => sync_deregServices c l' r' (Go.int_add sdereg 1)
            end
      end
  end.

(** Add Nomad services missing from Consul. *)
Fixpoint sync_regServices (consulServices : gmap string AgentService.t)
    (l : list (string * AgentServiceRegistration.t)) (r : R) (sreg : Z)
  : option error * R * Z :=
  match l with
  | [] => (None, r, sreg)
  | (id, service) :: l' =>
      match consulServices !! id with
      | Some _ => sync_regServices consulServices l' r sreg
      | None =>
          match ServiceRegister service r with
          | (Some err, r') => (Some err, r', sreg)
          | (None, r') =>
              sync_regServices consulServices l' r' (Go.int_add sreg 1)
          end
      end
  end.

(** Remove Nomad checks in Consul but unknown locally. *)
Fixpoint sync_deregChecks (c : ServiceClient.t)
    (l : list (string * AgentCheck.t)) (r : R) (cdereg : Z)
  : option error * R * Z :=
  match l with
  | [] => (None, r, cdereg)
  | (id, check) :: l' =>
      match ServiceClient.checks c !! id with
      | Some _ => sync_deregChecks c l' r cdereg
      | None =>
          if negb (isNomadService (AgentCheck.ServiceID check))
          then sync_deregChecks c l' r cdereg
          else
            match CheckDeregister id r with
            | (Some err, r') => (Some err, r', cdereg)
            | (None, r') => sync_deregChecks c l' r' (Go.int_add cdereg 1)
            end
      end
  end.

(** Handle starting scripts: a registered check with a script
    definition and no handle gets a worker. *)
Definition sync_startScript (id : string) (c : ServiceClient.t)
  : ServiceClient.t :=
  match ServiceClient.scripts c !! id with
  | Some script =>
      match ServiceClient.runningScripts c !! id with
      | Some _ => c
      | None =>
          let '(handle, script) := scriptCheck_run script in
          let c := ServiceClient.set_scripts
                     (<[id := script]> (ServiceClient.scripts c)) c in
          ServiceClient.set_runningScripts
            (<[id := handle]> (ServiceClient.runningScripts c)) c
      end
  | None => c
  end.

(** Add Nomad checks missing from Consul. *)
Fixpoint sync_regChecks (consulChecks : gmap string AgentCheck.t)
    (l : list (string * AgentCheckRegistration.t))
    (c : ServiceClient.t) (r : R) (creg : Z)
  : option error * ServiceClient.t * R * Z :=
  match l with
  | [] => (None, c, r, creg)
  | (id, check) :: l' =>
      match consulChecks !! id with
      | Some _ => sync_regChecks consulChecks l' c r creg
      | None =>
          match CheckRegister check r with
          | (Some err, r') => (Some err, c, r', creg)
          | (None, r') =>
              sync_regChecks consulChecks l' (sync_startScript id c) r'
                (Go.int_add creg 1)
          end
      end
  end.

Definition sync (seed : nat) (c : ServiceClient.t) (r : R)
  : option error * ServiceClient.t * R :=
  match Services r with
  | (inr err, r) =>
      (Some (ErrorfWrap "error querying Consul services: %v" [] err), c, r)
  | (inl consulServices, r) =>
  match Checks r with
  | (inr err, r) =>
      (Some (ErrorfWrap "error querying Consul checks: %v" [] err), c, r)
  | (inl consulChecks, r) =>
  match sync_deregServices c (range seed consulServices) r 0 with
  | (Some err, r, _) => (Some err, c, r)
  | (None, r, sdereg) =>
  match sync_regServices consulServices
          (range (seed + 1) (ServiceClient.services c)) r 0 with
  | (Some err, r, _) => (Some err, c, r)
  | (None, r, sreg) =>
  match sync_deregChecks c (range (seed + 2) consulChecks) r 0 with
  | (Some err, r, _) => (Some err, c, r)
  | (None, r, cdereg) =>
  match sync_regChecks consulChecks
          (range (seed + 3) (ServiceClient.checks c)) c r 0 with
  | (Some err, c, r, _) => (Some err, c, r)
  | (None, c, r, creg) =>
      (None,
       ServiceClient.log
         (Printf "[DEBUG] consul.sync: registered %d services, %d checks; deregistered %d services, %d checks"
            [OpString (Go.Itoa sreg); OpString (Go.Itoa creg);
             OpString (Go.Itoa sdereg); OpString (Go.Itoa cdereg)]) c,
       r)
  end end end end end end.

End Sync.

(** ** The Run loop

    The loop is a machine with two program points: the [select] at the
    top of the body, followed by the pass and the retry bookkeeping, and
    the shutdown check at the bottom.  Callers and [Shutdown] run
    between the two. *)

Inductive Wake := WakeRetryTimer | WakeShutdown | WakeOp.
Inductive PC := AtSelect | AtShutdownCheck | Exited.

Module RunState.
Record t `{Externals} {R : Type} := mk {
  client : ServiceClient.t;
  remote : R;
  (** [Some d]: armed by [Reset(d)] and not yet received from;
      [None]: stopped or drained *)
  retryTimer : option Go.Duration;
  failures : Z;
  pc : PC;
  (** number of [range] loops run so far *)
  ranges : nat
}.
Arguments t {_} R.
Arguments mk {_ _}.
End RunState.

Section RunLoop.
Context `{Externals} `{MapRange} {R : Type} `{AgentAPI R}.

Definition Run_start (c : ServiceClient.t) (r : R) : RunState.t R :=
  RunState.mk c r None 0 AtSelect 0%nat.

(** The first [select] of the body: the case taken must be ready. *)
Definition Run_wake (w : Wake) (c : ServiceClient.t)
    (retryTimer : option Go.Duration)
  : option (ServiceClient.t * option Go.Duration) :=
  match w with
  | WakeRetryTimer =>
      match retryTimer with Some _ => Some (c, None) | None => None end
  | WakeShutdown =>
      if ServiceClient.shutdownCh c then Some (c, retryTimer) else None
  | WakeOp =>
      match ServiceClient.opCh c with
      | ops :: rest => Some (merge ops (ServiceClient.set_opCh rest c), retryTimer)
      | [] => None
      end
  end.

(** [retryInterval * failures], capped. *)
Definition Run_backoff (c : ServiceClient.t) (failures : Z) : Go.Duration :=
  let backoff := Go.Duration_mul (ServiceClient.retryInterval c) failures in
  if ServiceClient.maxRetryInterval c <? backoff
  then ServiceClient.maxRetryInterval c else backoff.

(** What follows the pass: on an error the failure is counted and the
    timer re-armed, on success the count is cleared. *)
Definition Run_after_sync (err : option error) (c : ServiceClient.t)
    (retryTimer : option Go.Duration) (failures : Z)
  : ServiceClient.t * option Go.Duration * Z :=
  match err with
  | Some err =>
      let c :=
        if failures =? 0
        then ServiceClient.log
               (Printf "[WARN] consul.sync: failed to update services in Consul: %v"
                  [OpError err]) c
        else c in
      let failures := Go.int_add failures 1 in
      (c, Some (Run_backoff c failures), failures)
  | None =>
      if 0 <? failures
      then (ServiceClient.log
              (Printf "[INFO] consul.sync: successfully updated services in Consul" []) c,
            retryTimer, 0)
      else (c, retryTimer, failures)
  end.

(** From the top of the body to the shutdown check. *)
Definition Run_body (w : Wake) (st : RunState.t R) : option (RunState.t R) :=
  match RunState.pc st with
  | AtSelect =>
      match Run_wake w (RunState.client st) (RunState.retryTimer st) with
      | None => None
      | Some (c, retryTimer) =>
          let '(err, c, r) := sync (RunState.ranges st) c (RunState.remote st) in
          let '(c, retryTimer, failures) :=
            Run_after_sync err c retryTimer (RunState.failures st) in
          Some (RunState.mk c r retryTimer failures AtShutdownCheck
                  (RunState.ranges st + 4)%nat)
      end
  | _ => None
  end.

(** The shutdown check: exit only after merging all outstanding
    batches and, through [continue], one more pass over them. *)
Definition Run_shutdownCheck (st : RunState.t R) : option (RunState.t R) :=
  match RunState.pc st with
  | AtShutdownCheck =>
      let c := RunState.client st in
      if ServiceClient.shutdownCh c then
        match ServiceClient.opCh c with
        | _ :: _ =>
            let c' := foldl (λ c ops, merge ops c)
                            (ServiceClient.set_opCh [] c) (ServiceClient.opCh c) in
            Some (RunState.mk c' (RunState.remote st) (RunState.retryTimer st)
                    (RunState.failures st) AtSelect (RunState.ranges st))
        | [] =>
            Some (RunState.mk (ServiceClient.set_exitCh true c) (RunState.remote st)
                    (RunState.retryTimer st) (RunState.failures st) Exited
                    (RunState.ranges st))
        end
      else
        Some (RunState.mk c (RunState.remote st) (RunState.retryTimer st)
                (RunState.failures st) AtSelect (RunState.ranges st))
  | _ => None
  end.

End RunLoop.

(** ** An in-memory registry *)

(** Modelled from the spec: the remote registry agent, which the package
    only reaches through [AgentAPI].  Registration installs the entry
    under its ID, deregistration removes it, the list calls return the
    current entries.  [faults] says which of the coming calls fail (a
    failed call changes nothing), [cascade] whether deregistering a
    service also removes the checks attached to it, as Consul does, and
    [calls] records every call received. *)
Module Registry.

Inductive Call :=
| CallServices
| CallChecks
| CallCheckRegister (check : AgentCheckRegistration.t)
| CallCheckDeregister (checkID : string)
| CallServiceRegister (service : AgentServiceRegistration.t)
| CallServiceDeregister (serviceID : string)
| CallUpdateTTL (id output status : string).

Record t := mk {
  services : gmap string AgentService.t;
  checks : gmap string AgentCheck.t;
  cascade : bool;
  faults : list bool;
  calls : list Call
}.

Definition unavailable : error := ExternalError "registry unavailable".

(** Record the call and draw its fate. *)
Definition receive (call : Call) (r : t) : bool * t :=
  (hd false (faults r),
   mk (services r) (checks r) (cascade r) (tl (faults r)) (calls r ++ [call])).

Definition set_services v (r : t) : t :=
  mk v (checks r) (cascade r) (faults r) (calls r).
Definition set_checks v (r : t) : t :=
  mk (services r) v (cascade r) (faults r) (calls r).

Definition Services (r : t) : (gmap string AgentService.t + error) * t :=
  let '(fail, r) := receive CallServices r in
  if fail then (inr unavailable, r) else (inl (services r), r).

Definition Checks (r : t) : (gmap string AgentCheck.t + error) * t :=
  let '(fail, r) := receive CallChecks r in
  if fail then (inr unavailable, r) else (inl (checks r), r).

Definition ServiceRegister (s : AgentServiceRegistration.t) (r : t)
  : option error * t :=
  let '(fail, r) := receive (CallServiceRegister s) r in
  if fail then (Some unavailable, r)
  else
    (None,
     set_services
       (<[AgentServiceRegistration.ID s :=
            AgentService.mk (AgentServiceRegistration.ID s)
              (AgentServiceRegistration.Name s) (AgentServiceRegistration.Tags s)
              (AgentServiceRegistration.Port s) (AgentServiceRegistration.Address s)]>
          (services r)) r).

Definition ServiceDeregister (id : string) (r : t) : option error * t :=
  let '(fail, r) := receive (CallServiceDeregister id) r in
  if fail then (Some unavailable, r)
  else
    let r := set_services (delete id (services r)) r in
    (None,
     if cascade r
     then set_checks
            (filter (λ kv, AgentCheck.ServiceID kv.2 ≠ id) (checks r)) r
     else r).

Definition CheckRegister (c : AgentCheckRegistration.t) (r : t)
  : option error * t :=
  let '(fail, r) := receive (CallCheckRegister c) r in
  if fail then (Some unavailable, r)
  else
    (None,
     set_checks
       (<[AgentCheckRegistration.ID c :=
            AgentCheck.mk (AgentCheckRegistration.ID c)
              (AgentCheckRegistration.Name c) (AgentCheckRegistration.Status c)
              "" (AgentCheckRegistration.ServiceID c)]>
          (checks r)) r).

Definition CheckDeregister (id : string) (r : t) : option error * t :=
  let '(fail, r) := receive (CallCheckDeregister id) r in
  if fail then (Some unavailable, r)
  else (None, set_checks (delete id (checks r)) r).

Definition UpdateTTL (id output status : string) (r : t) : option error * t :=
  let '(fail, r) := receive (CallUpdateTTL id output status) r in
  if fail then (Some unavailable, r)
  else
    match checks r !! id with
    | Some c =>
        (None,
         set_checks
           (<[id := AgentCheck.mk (AgentCheck.CheckID c) (AgentCheck.Name c)
                      status output (AgentCheck.ServiceID c)]> (checks r)) r)
    | None => (Some (ExternalError "unknown check"), r)
    end.

#[global] Instance api : AgentAPI t := {
  Services := Services;
  Checks := Checks;
  CheckRegister := CheckRegister;
  CheckDeregister := CheckDeregister;
  ServiceRegister := ServiceRegister;
  ServiceDeregister := ServiceDeregister;
  UpdateTTL := UpdateTTL
}.

(** The entries that do not bear the ownership prefix: services by
    their ID, checks by the ID of the service that owns them. *)
Definition foreign_services (r : t) : gmap string AgentService.t :=
  filter (λ kv, isNomadService kv.1 = false) (services r).

Definition foreign_checks (r : t) : gmap string AgentCheck.t :=
  filter (λ kv, isNomadService (AgentCheck.ServiceID kv.2) = false) (checks r).

End Registry.

(** ** The caller-facing operations *)

Section Callers.
Context `{Externals} `{MapRange}.

(** The body of the loop over a service's checks in [serviceRegs].
    Returns the batch and the check as they are when the body is left,
    also when it is left with an error. *)
Definition serviceRegs_check (id : string)
    (serviceReg : AgentServiceRegistration.t) (exec : option ScriptExecutor)
    (resources : Resources) (ops : operations.t) (check : ServiceCheck.t)
  : option error * operations.t * ServiceCheck.t :=
  let checkID := createCheckID id check in
  let scripted : operations.t + error :=
    if String.eqb (ServiceCheck.Type_ check) ServiceCheckScript then
      match exec with
      | None => inr (Errorf "driver doesn't support script checks" [])
      | Some exec =>
          inl (operations.add_script (newScriptCheck checkID check exec) ops)
      end
    else inl ops in
  match scripted with
  | inr err => (Some err, ops, check)
  | inl ops =>
      let '(host, port) :=
        if negb (String.eqb (ServiceCheck.PortLabel check) "")
        then FindHostAndPortFor resources (ServiceCheck.PortLabel check)
        else (AgentServiceRegistration.Address serviceReg,
              AgentServiceRegistration.Port serviceReg) in
      match createCheckReg id checkID check host port with
      | (inr err, check) =>
          (Some (ErrorfWrap "failed to add check %q: %v"
                   [ServiceCheck.Name check] err), ops, check)
      | (inl checkReg, check) =>
          (None, operations.add_regCheck checkReg ops, check)
      end
  end.

Fixpoint serviceRegs_checks (id : string)
    (serviceReg : AgentServiceRegistration.t) (exec : option ScriptExecutor)
    (resources : Resources) (ops : operations.t) (checks : list ServiceCheck.t)
  : option error * operations.t * list ServiceCheck.t :=
  match checks with
  | [] => (None, ops, [])
  | check :: rest =>
      match serviceRegs_check id serviceReg exec resources ops check with
      | (Some err, ops, check) => (Some err, ops, check :: rest)
      | (None, ops, check) =>
          let '(err, ops, rest) :=
            serviceRegs_checks id serviceReg exec resources ops rest in
          (err, ops, check :: rest)
      end
  end.

(** [serviceRegs]: the service registration, check registrations and
    script checks of one service of a task. *)
Definition serviceRegs (ops : operations.t) (allocID : string)
    (service : Service.t) (exec : option ScriptExecutor)
    (taskName : string) (resources : Resources)
  : option error * operations.t * Service.t :=
  let id := makeTaskServiceID allocID taskName service in
  let '(host, port) := FindHostAndPortFor resources (Service.PortLabel service) in
  let serviceReg :=
    AgentServiceRegistration.mk id (Service.Name service)
      (Service.Tags service) host port in
  let ops := operations.add_regService serviceReg ops in
  let '(err, ops, checks) :=
    serviceRegs_checks id serviceReg exec resources ops (Service.Checks service) in
  (err, ops, Service.set_Checks checks service).

Fixpoint RegisterTask_services (ops : operations.t) (allocID : string)
    (exec : option ScriptExecutor) (taskName : string) (resources : Resources)
    (services : list Service.t)
  : option error * operations.t * list Service.t :=
  match services with
  | [] => (None, ops, [])
  | service :: rest =>
      match serviceRegs ops allocID service exec taskName resources with
      | (Some err, ops, service) => (Some err, ops, service :: rest)
      | (None, ops, service) =>
          let '(err, ops, rest) :=
            RegisterTask_services ops allocID exec taskName resources rest in
          (err, ops, service :: rest)
      end
  end.

(** [RegisterTask]: translate and enqueue.  The result is the error
    returned ([None] is [nil]), the client, and the task with what the
    translation wrote into its checks; the whole is [None] when the
    call blocks in [commit]. *)
Definition RegisterTask (pick : Pick) (allocID : string) (task : Task.t)
    (exec : option ScriptExecutor) (c : ServiceClient.t)
  : option (option error * ServiceClient.t * Task.t) :=
  match RegisterTask_services operations.empty allocID exec (Task.Name task)
          (Task.Resources_ task) (Task.Services task) with
  | (Some err, _, services) => Some (Some err, c, Task.set_Services services task)
  | (None, ops, services) =>
      match commit pick ops c with
      | None => None
      | Some (_, c) => Some (None, c, Task.set_Services services task)
      end
  end.

(** The deregistrations of [RemoveTask]. *)
Definition RemoveTask_ops (allocID : string) (task : Task.t) : operations.t :=
  foldl (λ ops service,
           let id := makeTaskServiceID allocID (Task.Name task) service in
           foldl (λ ops check, operations.add_deregCheck (createCheckID id check) ops)
                 (operations.add_deregService id ops) (Service.Checks service))
        operations.empty (Task.Services task).

(** [RemoveTask] returns nothing; [None] is a call blocked in [commit]. *)
Definition RemoveTask (pick : Pick) (allocID : string) (task : Task.t)
    (c : ServiceClient.t) : option ServiceClient.t :=
  match commit pick (RemoveTask_ops allocID task) c with
  | None => None
  | Some (_, c) => Some c
  end.

(** *** RegisterAgent *)

(** The body of the loop over an agent service's checks.  Agents carry
    their address in the port label itself. *)
Definition RegisterAgent_check (id : string)
    (serviceReg : AgentServiceRegistration.t) (service : Service.t)
    (ops : operations.t) (check : ServiceCheck.t)
  : option error * operations.t * ServiceCheck.t :=
  let checkID := createCheckID id check in
  if String.eqb (ServiceCheck.Type_ check) ServiceCheckScript then
    (Some (Errorf "service %q contains invalid check: agent checks do not support scripts"
             [Service.Name service]), ops, check)
  else
    let addr : (string * Z) + error :=
      if negb (String.eqb (ServiceCheck.PortLabel check) "") then
        match net_SplitHostPort (ServiceCheck.PortLabel check) with
        | inr err =>
            inr (ErrorfWrap "error parsing port label %q from check %q: %v"
                   [Service.PortLabel service; ServiceCheck.Name check] err)
        | inl (host, rawport) =>
            match strconv_Atoi rawport with
            | inr err =>
                inr (ErrorfWrap "error parsing port %q from check %q: %v"
                       [rawport; ServiceCheck.Name check] err)
            | inl port => inl (host, port)
            end
        end
      else inl (AgentServiceRegistration.Address serviceReg,
                AgentServiceRegistration.Port serviceReg) in
    match addr with
    | inr err => (Some err, ops, check)
    | inl (checkHost, checkPort) =>
        match createCheckReg id checkID check checkHost checkPort with
        | (inr err, check) =>
            (Some (ErrorfWrap "failed to add check %q: %v"
                     [ServiceCheck.Name check] err), ops, check)
        | (inl checkReg, check) =>
            (None, operations.add_regCheck checkReg ops, check)
        end
    end.

Fixpoint RegisterAgent_checks (id : string)
    (serviceReg : AgentServiceRegistration.t) (service : Service.t)
    (ops : operations.t) (checks : list ServiceCheck.t)
  : option error * operations.t * list ServiceCheck.t :=
  match checks with
  | [] => (None, ops, [])
  | check :: rest =>
      match RegisterAgent_check id serviceReg service ops check with
      | (Some err, ops, check) => (Some err, ops, check :: rest)
      | (None, ops, check) =>
          let '(err, ops, rest) :=
            RegisterAgent_checks id serviceReg service ops rest in
          (err, ops, check :: rest)
      end
  end.

(** The body of the loop over the agent's services. *)
Definition RegisterAgent_service (role : string) (ops : operations.t)
    (service : Service.t) : option error * operations.t * Service.t :=
  let id := makeAgentServiceID role service in
  match net_SplitHostPort (Service.PortLabel service) with
  | inr err =>
      (Some (ErrorfWrap "error parsing port label %q from service %q: %v"
               [Service.PortLabel service; Service.Name service] err),
       ops, service)
  | inl (host, rawport) =>
      match strconv_Atoi rawport with
      | inr err =>
          (Some (ErrorfWrap "error parsing port %q from service %q: %v"
                   [rawport; Service.Name service] err), ops, service)
      | inl port =>
          let serviceReg :=
            AgentServiceRegistration.mk id (Service.Name service)
              (Service.Tags service) host port in
          let ops := operations.add_regService serviceReg ops in
          let '(err, ops, checks) :=
            RegisterAgent_checks id serviceReg service ops
              (Service.Checks service) in
          (err, ops, Service.set_Checks checks service)
      end
  end.

Fixpoint RegisterAgent_services (role : string) (ops : operations.t)
    (services : list Service.t)
  : option error * operations.t * list Service.t :=
  match services with
  | [] => (None, ops, [])
  | service :: rest =>
      match RegisterAgent_service role ops service with
      | (Some err, ops, service) => (Some err, ops, service :: rest)
      | (None, ops, service) =>
          let '(err, ops, rest) := RegisterAgent_services role ops rest in
          (err, ops, service :: rest)
      end
  end.

(** [RegisterAgent]: translate, enqueue and, unless shutting down,
    record the IDs for deregistration on shutdown. *)
Definition RegisterAgent (pick : Pick) (role : string)
    (services : list Service.t) (c : ServiceClient.t)
  : option (option error * ServiceClient.t * list Service.t) :=
  match RegisterAgent_services role operations.empty services with
  | (Some err, _, services) => Some (Some err, c, services)
  | (None, ops, services) =>
      match commit pick ops c with
      | None => None
      | Some (false, c) => Some (None, c, services)
      | Some (true, c) =>
          let c :=
            foldl (λ c id,
                     ServiceClient.set_agentServices
                       (<[AgentServiceRegistration.ID id := ()]>
                          (ServiceClient.agentServices c)) c)
                  c (operations.regServices ops) in
          let c :=
            foldl (λ c id,
                     ServiceClient.set_agentChecks
                       (<[AgentCheckRegistration.ID id := ()]>
                          (ServiceClient.agentChecks c)) c)
                  c (operations.regChecks ops) in
          Some (None, c, services)
      end
  end.

(** *** UpdateTask

    The services of the new task are reached through pointers kept in
    a map by ID: the map holds their positions in the task's list, and
    what the translation writes into a check lands in that list. *)

Definition UpdateTask_existingIDs (allocID : string) (existing : Task.t)
  : gmap string Service.t :=
  foldl (λ m s, <[makeTaskServiceID allocID (Task.Name existing) s := s]> m)
        ∅ (Task.Services existing).

Definition UpdateTask_newIDs (allocID : string) (newTask : Task.t)
  : gmap string nat :=
  foldl (λ m '(i, s), <[makeTaskServiceID allocID (Task.Name newTask) s := i]> m)
        ∅ (zip (seq 0 (length (Task.Services newTask))) (Task.Services newTask)).

(** The loop over the checks of a service present in both tasks:
    register the checks that are new, and strike those that exist
    from [existingChecks]. *)
Fixpoint UpdateTask_checks (existingID : string) (existingSvc : Service.t)
    (exec : option ScriptExecutor) (resources : Resources)
    (ops : operations.t) (existingChecks : gmap string ())
    (checks : list ServiceCheck.t)
  : option error * operations.t * gmap string () * list ServiceCheck.t :=
  match checks with
  | [] => (None, ops, existingChecks, [])
  | check :: rest =>
      let checkID := createCheckID existingID check in
      match existingChecks !! checkID with
      | Some _ =>
          let '(err, ops, existingChecks, rest) :=
            UpdateTask_checks existingID existingSvc exec resources ops
              (delete checkID existingChecks) rest in
          (err, ops, existingChecks, check :: rest)
      | None =>
          let scripted : operations.t + error :=
            if String.eqb (ServiceCheck.Type_ check) ServiceCheckScript then
              match exec with
              | None => inr (Errorf "driver doesn't support script checks" [])
              | Some exec =>
                  inl (operations.add_script
                         (newScriptCheck checkID check exec) ops)
              end
            else inl ops in
          match scripted with
          | inr err => (Some err, ops, existingChecks, check :: rest)
          | inl ops =>
              let '(host, port) :=
                if negb (String.eqb (ServiceCheck.PortLabel check) "")
                then FindHostAndPortFor resources (ServiceCheck.PortLabel check)
                else FindHostAndPortFor resources (Service.PortLabel existingSvc) in
              match createCheckReg existingID checkID check host port with
              | (inr err, check) =>
                  (Some err, ops, existingChecks, check :: rest)
              | (inl checkReg, check) =>
                  let '(err, ops, existingChecks, rest) :=
                    UpdateTask_checks existingID existingSvc exec resources
                      (operations.add_regCheck checkReg ops) existingChecks rest in
                  (err, ops, existingChecks, check :: rest)
              end
          end
      end
  end.

(** The loop over the existing service IDs. *)
Fixpoint UpdateTask_existing (seed : nat) (exec : option ScriptExecutor)
    (resources : Resources) (l : list (string * Service.t))
    (ops : operations.t) (newIDs : gmap string nat) (news : list Service.t)
  : option error * operations.t * gmap string nat * list Service.t :=
  match l with
  | [] => (None, ops, newIDs, news)
  | (existingID, existingSvc) :: l' =>
      match newIDs !! existingID ≫= (λ i, (λ s, (i, s)) <$> news !! i) with
      | None =>
          (* Existing service entry removed *)
          let ops := operations.add_deregService existingID ops in
          let ops :=
            foldl (λ ops check,
                     operations.add_deregCheck
                       (createCheckID existingID check) ops)
                  ops (Service.Checks existingSvc) in
          UpdateTask_existing (S seed) exec resources l' ops newIDs news
      | Some (i, newSvc) =>
          (* Service exists and wasn't updated, don't add it later *)
          let newIDs := delete existingID newIDs in
          let existingChecks : gmap string () :=
            foldl (λ m check, <[createCheckID existingID check := ()]> m)
                  ∅ (Service.Checks existingSvc) in
          let '(err, ops, existingChecks, checks) :=
            UpdateTask_checks existingID existingSvc exec resources ops
              existingChecks (Service.Checks newSvc) in
          let news := <[i := Service.set_Checks checks newSvc]> news in
          match err with
          | Some err => (Some err, ops, newIDs, news)
          | None =>
              (* Remove existing checks not in updated service *)
              let ops :=
                foldl (λ ops '(cid, _), operations.add_deregCheck cid ops)
                      ops (range seed existingChecks) in
              UpdateTask_existing (S seed) exec resources l' ops newIDs news
          end
      end
  end.

(** The loop over the services that remain in [newIDs]. *)
Fixpoint UpdateTask_remaining (allocID : string) (exec : option ScriptExecutor)
    (taskName : string) (resources : Resources) (l : list (string * nat))
    (ops : operations.t) (news : list Service.t)
  : option error * operations.t * list Service.t :=
  match l with
  | [] => (None, ops, news)
  | (_, i) :: l' =>
      match news !! i with
      | None => UpdateTask_remaining allocID exec taskName resources l' ops news
      | Some newSvc =>
          match serviceRegs ops allocID newSvc exec taskName resources with
          | (Some err, ops, newSvc) => (Some err, ops, <[i := newSvc]> news)
          | (None, ops, newSvc) =>
              UpdateTask_remaining allocID exec taskName resources l' ops
                (<[i := newSvc]> news)
          end
      end
  end.

(** [UpdateTask]: the batch that takes the registry from the existing
    task's entries to the new task's.  [seed] numbers its first
    [range] loop. *)
Definition UpdateTask (seed : nat) (pick : Pick) (allocID : string)
    (existing newTask : Task.t) (exec : option ScriptExecutor)
    (c : ServiceClient.t)
  : option (option error * ServiceClient.t * Task.t) :=
  let existingIDs := UpdateTask_existingIDs allocID existing in
  let newIDs := UpdateTask_newIDs allocID newTask in
  let resources := Task.Resources_ newTask in
  match UpdateTask_existing (S seed) exec resources (range seed existingIDs)
          operations.empty newIDs (Task.Services newTask) with
  | (Some err, _, _, news) => Some (Some err, c, Task.set_Services news newTask)
  | (None, ops, newIDs, news) =>
      match UpdateTask_remaining allocID exec (Task.Name newTask) resources
              (range (S seed + size existingIDs) newIDs) ops news with
      | (Some err, _, news) => Some (Some err, c, Task.set_Services news newTask)
      | (None, ops, news) =>
          match commit pick ops c with
          | None => None
          | Some (_, c) => Some (None, c, Task.set_Services news newTask)
          end
      end
  end.

(** *** Shutdown

    Up to the closing of the shutdown channel; what follows only waits
    for the loop and the script workers. *)
Definition Shutdown_signal (seed : nat) (pick : Pick) (c : ServiceClient.t)
  : option ServiceClient.t :=
  if ServiceClient.shutdownCh c then Some c
  else
    (* First deregister Nomad agent Consul entries *)
    let ops :=
      foldl (λ ops '(id, _), operations.add_deregService id ops)
            operations.empty (range seed (ServiceClient.agentServices c)) in
    let ops :=
      foldl (λ ops '(id, _), operations.add_deregCheck id ops)
            ops (range (S seed) (ServiceClient.agentChecks c)) in
    match commit pick ops c with
    | None => None
    | Some (_, c) =>
        (* Then signal shutdown *)
        Some (ServiceClient.set_shutdownCh true c)
    end.

End Callers.

(** ** The script-check worker ([scriptCheck.run])

    The goroutine started by [run].  Everything that reaches it from
    outside during one turn of its loop is an [Env]: what has happened
    by the time the first [select] returns, what the executor returns
    and what became of the execution context meanwhile, and what happens
    during the heartbeat.  A cancelled context and a closed channel stay
    so: the worker carries both as flags that only ever get set. *)

Module Worker.

(** What [execctx.Err()] finds after [Exec]: nothing, the parent
    context cancelled first, or the deadline passed first (and then
    whether [cancel] was called later on). *)
Inductive ExecCtx :=
| CtxLive
| CtxCanceled
| CtxDeadlineExceeded (cancelled_later : bool).

Record Env := mkEnv {
  sleep_cancel : bool;
  sleep_shutdown : bool;
  sleep_timer : bool;
  (** the pseudo-random choice among the ready cases *)
  sleep_pick : nat;
  exec_output : string;
  exec_code : Z;
  exec_err : option string;
  exec_ctx : ExecCtx;
  exec_shutdown : bool;
  ttl_cancel : bool;
  ttl_shutdown : bool
}.

Inductive Event :=
| EvExec (command : string) (args : list string) (timeout : Go.Duration)
| EvUpdateTTL (id output status : string)
| EvTimerReset (d : Go.Duration)
| EvDone.

Record t `{Externals} := mk {
  script : scriptCheck.t;
  (** [ctx.Done()] is closed *)
  ctx_done : bool;
  (** [s.shutdownCh] is closed *)
  shutdownCh : bool;
  logger : list LogLine;
  trace : list Event;
  (** [done] is closed: the goroutine has returned *)
  done : bool
}.

Inductive Case := CaseCtxDone | CaseShutdown | CaseTimer.

Section Run.
Context `{Externals} {R : Type} `{AgentAPI R}.

Definition set_lastCheckOk (b : bool) (s : scriptCheck.t) : scriptCheck.t :=
  scriptCheck.mk _ (scriptCheck.id s) (scriptCheck.check s)
    (scriptCheck.exec s) (scriptCheck.running s) b.

(** The goroutine as [run] starts it. *)
Definition start (s : scriptCheck.t) (shutdownCh : bool) : t :=
  mk _ s false shutdownCh [] [] false.

(** [return]: the deferred [timer.Stop()] and [close(done)]. *)
Definition exit (w : t) : t :=
  mk _ (script w) (ctx_done w) (shutdownCh w) (logger w)
     (trace w ++ [EvDone]) true.

Definition emit (e : Event) (w : t) : t :=
  mk _ (script w) (ctx_done w) (shutdownCh w) (logger w)
     (trace w ++ [e]) (done w).

Definition log (l : LogLine) (w : t) : t :=
  mk _ (script w) (ctx_done w) (shutdownCh w) (logger w ++ [l])
     (trace w) (done w).

Definition flags (cancel shutdown : bool) (w : t) : t :=
  mk _ (script w) (ctx_done w || cancel) (shutdownCh w || shutdown)
     (logger w) (trace w) (done w).

Definition with_lastCheckOk (b : bool) (w : t) : t :=
  mk _ (set_lastCheckOk b (script w)) (ctx_done w) (shutdownCh w)
     (logger w) (trace w) (done w).

(** The first [select].  The timer is armed whenever the worker gets
    here, so when nothing else is ready it is the timer that ends
    the wait. *)
Definition ready (e : Env) (w : t) : list Case :=
  let cancelled := ctx_done w || sleep_cancel e in
  let shutdown := shutdownCh w || sleep_shutdown e in
  (if cancelled then [CaseCtxDone] else [])
  ++ (if shutdown then [CaseShutdown] else [])
  ++ (if sleep_timer e || negb (cancelled || shutdown) then [CaseTimer] else []).

Definition select (e : Env) (w : t) : Case :=
  let cases := ready e w in
  nth (sleep_pick e mod length cases) cases CaseTimer.

(** [state] and [output] as the heartbeat carries them. *)
Definition status_of (code : Z) (err : option string) : string :=
  let state := HealthCritical in
  let state :=
    if code =? 0 then HealthPassing
    else if code =? 1 then HealthWarning
    else state in
  match err with Some _ => HealthCritical | None => state end.

Definition output_of (output : string) (err : option string) : string :=
  match err with Some text => text | None => output end.

(** From the heartbeat to the end of the body. *)
Definition heartbeat (e : Env) (w : t) (r : R) : t * R :=
  let s := script w in
  let state := status_of (exec_code e) (exec_err e) in
  let output := output_of (exec_output e) (exec_err e) in
  let w := emit (EvUpdateTTL (scriptCheck.id s) output state) w in
  let '(err, r) := UpdateTTL (scriptCheck.id s) output state r in
  let w := flags (ttl_cancel e) (exec_shutdown e || ttl_shutdown e) w in
  if ctx_done w then (exit w, r)
  else
    let name := ServiceCheck.Name (scriptCheck.check s) in
    let w :=
      match err with
      | Some err =>
          if scriptCheck.lastCheckOk (script w) then
            log (Printf "[WARN] consul.checks: update for check %q failed: %v"
                   [OpString name; OpError err])
                (with_lastCheckOk false w)
          else
            log (Printf "[DEBUG] consul.checks: update for check %q still failing: %v"
                   [OpString name; OpError err]) w
      | None =>
          if negb (scriptCheck.lastCheckOk (script w)) then
            log (Printf "[INFO] consul.checks: update for check %q succeeded"
                   [OpString name])
                (with_lastCheckOk true w)
          else w
      end in
    if shutdownCh w then (exit w, r) else (w, r).

(** From the execution to the end of the body. *)
Definition execute (e : Env) (w : t) (r : R) : t * R :=
  let check := scriptCheck.check (script w) in
  let w := emit (EvExec (ServiceCheck.Command check) (ServiceCheck.Args check)
                   (ServiceCheck.Timeout check)) w in
  if ctx_done w then (exit w, r)
  else
    match exec_ctx e with
    | CtxCanceled => (exit (flags true false w), r)
    | CtxDeadlineExceeded later =>
        let w := with_lastCheckOk false w in
        let w :=
          log (Printf "[WARN] consul.checks: check %q timed out (%s)"
                 [OpString (ServiceCheck.Name check);
                  OpString (Go.Duration_String (ServiceCheck.Timeout check))]) w in
        heartbeat e (flags later false w) r
    | CtxLive => heartbeat e w r
    end.

(** One turn of the loop. *)
Definition iteration (e : Env) (w : t) (r : R) : t * R :=
  let c := select e w in
  let w := flags (sleep_cancel e) (sleep_shutdown e) w in
  match c with
  | CaseCtxDone => (exit w, r)
  | CaseShutdown => execute e w r
  | CaseTimer =>
      execute e
        (emit (EvTimerReset (ServiceCheck.Interval (scriptCheck.check (script w)))) w)
        r
  end.

(** The goroutine over the turns [es] of its environment. *)
Fixpoint run (es : list Env) (w : t) (r : R) : t * R :=
  match es with
  | [] => (w, r)
  | e :: es' =>
      if done w then (w, r)
      else let '(w, r) := iteration e w r in run es' w r
  end.

End Run.

Definition is_probe (ev : Event) : bool :=
  match ev with EvExec _ _ _ => true | _ => false end.

Definition is_heartbeat (ev : Event) : bool :=
  match ev with EvUpdateTTL _ _ _ => true | _ => false end.

(** How many executions, and how many heartbeats, a trace holds. *)
Definition probes (tr : list Event) : nat := length (List.filter is_probe tr).
Definition heartbeats (tr : list Event) : nat :=
  length (List.filter is_heartbeat tr).

(** The events between two states of a worker. *)
Definition since `{Externals} (w w' : t) : list Event :=
  drop (length (trace w)) (trace w').

End Worker.

(** ** A concrete instance of the collaborators, for examples

    Checks hash to the service ID followed by their name, every port
    label resolves to the same address, the URL parser accepts every path. *)

Module Sample.

Definition externals : Externals := {|
  ServiceCheck_Hash := λ check serviceID,
    serviceID ++ "/" ++ ServiceCheck.Name check;
  Resources := unit;
  FindHostAndPortFor := λ _ _, ("10.0.0.1", 8080);
  net_SplitHostPort := λ _, inl ("10.0.0.1", "4648");
  strconv_Atoi := λ _, inl 4648;
  ScriptExecutor := unit;
  URL := string;
  url_Parse := λ path, inl path;
  url_ResolveReference := λ scheme host relative,
    scheme ++ "://" ++ host ++ relative
|}.

Program Definition order : MapRange := {|
  range := λ _ V m, map_to_list m
|}.
Next Obligation. reflexivity. Qed.

Definition check (type : string) (interval : Go.Duration) : ServiceCheck.t :=
  ServiceCheck.mk "alive" type "/bin/true" [] "/health" "" ""
    interval (2 * Go.Second) "".

End Sample.

(** * The vocabulary of the properties *)

(** The registration of [l] that a lookup of [k] finds: the last one
    with that ID. *)
Definition last_reg {A} (key : A → string) (l : list A) (k : string) : option A :=
  last (List.filter (λ a, String.eqb (key a) k) l).

(** The fields no pass and no merge writes. *)
Definition settings `{Externals} (c : ServiceClient.t) :=
  (ServiceClient.retryInterval c, ServiceClient.maxRetryInterval c,
   ServiceClient.exitCh c, ServiceClient.shutdownCh c,
   ServiceClient.shutdownWait c, ServiceClient.opCh c,
   ServiceClient.agentServices c, ServiceClient.agentChecks c).

(** ** Ownership *)
(** The store holds only what the identifier scheme mints: every service
    and check is filed under its own ID, every service ID bears the
    prefix, and every check belongs to a service whose ID does. *)
Definition store_owned `{Externals} (c : ServiceClient.t) : Prop :=
  (∀ id s, ServiceClient.services c !! id = Some s →
           AgentServiceRegistration.ID s = id ∧ isNomadService id = true)
  ∧ (∀ id ch, ServiceClient.checks c !! id = Some ch →
              AgentCheckRegistration.ID ch = id
              ∧ isNomadService (AgentCheckRegistration.ServiceID ch) = true).

(** A batch whose registrations all belong to the reconciler. *)
Definition ops_owned `{Externals} (ops : operations.t) : Prop :=
  Forall (λ s, isNomadService (AgentServiceRegistration.ID s) = true)
         (operations.regServices ops)
  ∧ Forall (λ ch, isNomadService (AgentCheckRegistration.ServiceID ch) = true)
           (operations.regChecks ops).

(** The registry holds the same foreign entries in [r'] as in [r]. *)
Definition same_foreign (r r' : Registry.t) : Prop :=
  Registry.foreign_services r' = Registry.foreign_services r
  ∧ Registry.foreign_checks r' = Registry.foreign_checks r.

(** A call the reconciler may make given the registry [r] it found: a
    deregistration only of a service with a prefixed ID, or of a check
    registered in [r] under a service with a prefixed ID. *)
Definition permitted (r : Registry.t) (call : Registry.Call) : Prop :=
  match call with
  | Registry.CallServiceDeregister id => isNomadService id = true
  | Registry.CallCheckDeregister id =>
      ∃ ch, Registry.checks r !! id = Some ch
            ∧ isNomadService (AgentCheck.ServiceID ch) = true
  | _ => True
  end.

(** The calls [r'] has received since [r] are all permitted. *)
Definition only_permitted (r r' : Registry.t) : Prop :=
  ∃ new, Registry.calls r' = (Registry.calls r ++ new)%list
         ∧ Forall (permitted r) new.

(** No foreign check is registered under [id]. *)
Definition no_foreign_check (r : Registry.t) (id : string) : Prop :=
  ∀ ch, Registry.checks r !! id = Some ch →
        isNomadService (AgentCheck.ServiceID ch) = true.

(** ** The reconciler among its callers

    What can happen to a running client, one step at a time: a caller
    registers, updates or removes a task or registers the agent,
    [Shutdown] commits its deregistrations and closes the shutdown
    channel, or the [Run] loop moves from one of its program points to
    the next. *)

Inductive Event `{Externals} :=
| EvRegisterAgent (pick : Pick) (role : string) (services : list Service.t)
| EvRegisterTask (pick : Pick) (allocID : string) (task : Task.t)
    (exec : option ScriptExecutor)
| EvUpdateTask (seed : nat) (pick : Pick) (allocID : string)
    (existing newTask : Task.t) (exec : option ScriptExecutor)
| EvRemoveTask (pick : Pick) (allocID : string) (task : Task.t)
| EvShutdown (seed : nat) (pick : Pick)
| EvBody (w : Wake)
| EvShutdownCheck.

Section Events.
Context `{Externals} `{MapRange} {R : Type} `{AgentAPI R}.

Definition with_client (c : ServiceClient.t) (st : RunState.t R) : RunState.t R :=
  RunState.mk c (RunState.remote st) (RunState.retryTimer st)
    (RunState.failures st) (RunState.pc st) (RunState.ranges st).

(** One step; [None] when the step cannot be taken: the caller blocks
    on a full queue, or the loop is not at that point. *)
Definition Run_event (ev : Event) (st : RunState.t R) : option (RunState.t R) :=
  let c := RunState.client st in
  match ev with
  | EvRegisterAgent pick role services =>
      (λ res, with_client res.1.2 st) <$> RegisterAgent pick role services c
  | EvRegisterTask pick allocID task exec =>
      (λ res, with_client res.1.2 st) <$> RegisterTask pick allocID task exec c
  | EvUpdateTask seed pick allocID existing newTask exec =>
      (λ res, with_client res.1.2 st)
        <$> UpdateTask seed pick allocID existing newTask exec c
  | EvRemoveTask pick allocID task =>
      (λ c, with_client c st) <$> RemoveTask pick allocID task c
  | EvShutdown seed pick =>
      (λ c, with_client c st) <$> Shutdown_signal seed pick c
  | EvBody w => Run_body w st
  | EvShutdownCheck => Run_shutdownCheck st
  end.

Fixpoint Run_events (evs : list Event) (st : RunState.t R)
  : option (RunState.t R) :=
  match evs with
  | [] => Some st
  | ev :: evs' =>
      match Run_event ev st with
      | Some st' => Run_events evs' st'
      | None => None
      end
  end.
End Events.

(** The store and every batch still in the queue are the reconciler's own. *)
Definition client_owned `{Externals} (c : ServiceClient.t) : Prop :=
  store_owned c ∧ Forall ops_owned (ServiceClient.opCh c).

(** * Scenarios *)

Module Rename.

Definition web : AgentServiceRegistration.t :=
  AgentServiceRegistration.mk "_nomad-executor-a1-web-web-v1" "web" ["v1"]
    "10.0.0.1" 8080.

(** A batch that removes the ID it adds. *)
Definition batch : operations.t (H := Sample.externals) :=
  operations.mk _ [web] [] [] [AgentServiceRegistration.ID web] [].

(** A batch that adds the ID and removes another. *)
Definition rename : operations.t (H := Sample.externals) :=
  operations.mk _ [web] [] [] ["_nomad-executor-a1-web-web-v0"] [].

End Rename.

(** A task with one service and one script check, registered, synced
    against an empty registry, and removed again. *)
Module Lifecycle.

#[local] Existing Instance Sample.externals.
#[local] Existing Instance Sample.order.

Definition web : Service.t :=
  Service.mk "web" "http" ["v1"] [Sample.check "script" (10 * Go.Second)].

Definition task : Task.t := Task.mk _ "web" [web] tt.

Definition checkID : string := "_nomad-executor-a1-web-web-v1/alive".

Definition registry : Registry.t := Registry.mk ∅ ∅ true [] [].

(** The store once the registration has been merged and synced: the
    script worker has been started. *)
Definition registered : ServiceClient.t :=
  match RegisterTask PickSend "a1" task (Some tt) NewServiceClient with
  | Some (_, c, _) =>
      match Run_body WakeOp (Run_start c registry) with
      | Some st => RunState.client st
      | None => c
      end
  | None => NewServiceClient
  end.

Definition removal : operations.t := RemoveTask_ops "a1" task.

(** The task registered and synced, removed and synced, and registered
    and synced once more. *)
Definition again : option (RunState.t Registry.t) :=
  Run_events
    [EvRegisterTask PickSend "a1" task (Some tt); EvBody WakeOp; EvShutdownCheck;
     EvRemoveTask PickSend "a1" task; EvBody WakeOp; EvShutdownCheck;
     EvRegisterTask PickSend "a1" task (Some tt); EvBody WakeOp]
    (Run_start NewServiceClient registry).

End Lifecycle.

(** A registry that fails every call it receives, and a loop that keeps
    retrying against it. *)
Module Outage.

#[local] Existing Instance Sample.externals.
#[local] Existing Instance Sample.order.

Definition registry (calls : nat) : Registry.t :=
  Registry.mk ∅ ∅ true (replicate calls true) [].

(** The loop with one batch waiting, before its first pass. *)
Definition start (calls : nat) : RunState.t Registry.t :=
  Run_start (ServiceClient.set_opCh [operations.empty] NewServiceClient)
    (registry calls).

(** One more turn of the loop, woken by the retry timer. *)
Definition retry (st : RunState.t Registry.t) : option (RunState.t Registry.t) :=
  Run_body WakeRetryTimer st ≫= Run_shutdownCheck.


(** The durations the timer is armed with over the first pass and [k]
    retries. *)
Fixpoint schedule (k : nat) (st : RunState.t Registry.t)
  : list (option Go.Duration) :=
  match k with
  | O => []
  | S k' =>
      match retry st with
      | Some st' => RunState.retryTimer st' :: schedule k' st'
      | None => []
      end
  end.

Definition first (calls : nat) : option (RunState.t Registry.t) :=
  Run_body WakeOp (start calls) ≫= Run_shutdownCheck.


End Outage.

(** A worker for the script check of the sample task, and turns of its
    environment. *)
Module Probe.

#[local] Existing Instance Sample.externals.

Definition worker : Worker.t :=
  Worker.start
    (newScriptCheck Lifecycle.checkID (Sample.check "script" (10 * Go.Second)) tt)
    false.

Definition registry : Registry.t :=
  Registry.mk ∅
    {[Lifecycle.checkID :=
        AgentCheck.mk Lifecycle.checkID "alive" "" ""
          "_nomad-executor-a1-web-web-v1"]}
    true [] [].

(** The timer fires, the script exits with [code]. *)
Definition tick (code : Z) (err : option string) : Worker.Env :=
  Worker.mkEnv false false true 0 "out" code err Worker.CtxLive false false false.

(** The deadline passes as the script exits with 0. *)
Definition late : Worker.Env :=
  Worker.mkEnv false false true 0 "out" 0 None
    (Worker.CtxDeadlineExceeded false) false false false.

(** The shutdown signal fires while the worker sleeps. *)
Definition shutdown : Worker.Env :=
  Worker.mkEnv false true false 0 "out" 0 None Worker.CtxLive false false false.

(** The worker asleep after its first execution. *)
Definition asleep : Worker.t := (Worker.iteration (tick 0 None) worker registry).1.

End Probe.

(** The client after the shutdown signal, its queue empty. *)
Definition stopping : ServiceClient.t (H := Sample.externals) :=
  ServiceClient.set_shutdownCh true NewServiceClient.

(** The registry of the prefix-gating scenario: a service of some other
    party and a stale service of the reconciler. *)
Module Gating.

Definition foo : AgentService.t :=
  AgentService.mk "svc-foo" "foo" [] 9090 "10.0.0.9".

Definition stale : AgentService.t :=
  AgentService.mk "_nomad-executor-a1-web-http" "web" ["http"] 8080 "10.0.0.1".

Definition registry : Registry.t :=
  Registry.mk {["svc-foo" := foo; "_nomad-executor-a1-web-http" := stale]}
    ∅ true [] [].

Definition after : Registry.t :=
  (sync (H := Sample.externals) (H0 := Sample.order) 0 NewServiceClient registry).2.

End Gating.

(** ** The vocabulary of the further properties *)

(** What the pass has done to the handle and the script of [k] between
    [c] and [c']: nothing, or it has started the script. *)
Definition started_or_same `{Externals} (k : string) (c c' : ServiceClient.t) : Prop :=
  (ServiceClient.runningScripts c' !! k = ServiceClient.runningScripts c !! k
   ∧ ServiceClient.scripts c' !! k = ServiceClient.scripts c !! k)
  ∨ (ServiceClient.runningScripts c !! k = None
     ∧ ServiceClient.runningScripts c' !! k = Some (scriptHandle.mk false)
     ∧ ∃ s, ServiceClient.scripts c !! k = Some s
            ∧ ServiceClient.scripts c' !! k = Some (scriptCheck.set_running true s)).

(** The calls [r'] has received since [r]; each has drawn its fate
    from [faults]. *)
Definition received_since (r r' : Registry.t) (new : list Registry.Call) : Prop :=
  Registry.calls r' = (Registry.calls r ++ new)%list
  ∧ Registry.faults r' = drop (length new) (Registry.faults r).

(** None of the next [n] calls that [r] receives fails. *)
Definition no_fault_before (r : Registry.t) (n : nat) : Prop :=
  ∀ i, (i < n)%nat → Registry.faults r !! i ≠ Some true.

(** How a run of calls from [r] has ended: without an error and without
    a failed call, or with an error and the call that failed as its
    last. *)
Definition stopped_at_fault (r : Registry.t) (err : option error)
    (r' : Registry.t) : Prop :=
  ∃ new,
    received_since r r' new
    ∧ match err with
      | None => no_fault_before r (length new)
      | Some _ =>
          ∃ j, length new = S j
               ∧ Registry.faults r !! j = Some true
               ∧ no_fault_before r j
      end.

(** What the callers never write: the state maps, the exit channel, the
    retry settings and the log. *)
Definition reconciler_fields `{Externals} (c : ServiceClient.t) :=
  (ServiceClient.services c, ServiceClient.checks c, ServiceClient.scripts c,
   ServiceClient.runningScripts c, ServiceClient.exitCh c,
   ServiceClient.retryInterval c, ServiceClient.maxRetryInterval c,
   ServiceClient.shutdownWait c, ServiceClient.logger c).

(** A step of a caller, as opposed to a step of the loop. *)
Definition is_caller `{Externals} (ev : Event) : bool :=
  match ev with
  | EvBody _ | EvShutdownCheck => false
  | _ => true
  end.

(** The check as the translator leaves it: an HTTP check without a
    protocol has got the default. *)
Definition with_default_protocol (check : ServiceCheck.t) : ServiceCheck.t :=
  if String.eqb (ServiceCheck.Type_ check) ServiceCheckHTTP
     && String.eqb (ServiceCheck.Protocol check) ""
  then ServiceCheck.set_Protocol "http" check else check.

(** The script checks that the checks of the service [id] give rise
    to, with the executor at hand. *)
Definition script_checks `{Externals} (id : string) (exec : option ScriptExecutor)
    (checks : list ServiceCheck.t) : list scriptCheck.t :=
  match exec with
  | Some exec =>
      (λ check, newScriptCheck (createCheckID id check) check exec)
        <$> List.filter
              (λ check, String.eqb (ServiceCheck.Type_ check) ServiceCheckScript)
              checks
  | None => []
  end.

(** The registration of a task's service. *)
Definition task_service_reg `{Externals} (allocID taskName : string)
    (resources : Resources) (service : Service.t) : AgentServiceRegistration.t :=
  AgentServiceRegistration.mk (makeTaskServiceID allocID taskName service)
    (Service.Name service) (Service.Tags service)
    (FindHostAndPortFor resources (Service.PortLabel service)).1
    (FindHostAndPortFor resources (Service.PortLabel service)).2.

(** The IDs of the checks of a task's service, in the order declared. *)
Definition task_check_ids `{Externals} (allocID taskName : string)
    (service : Service.t) : list string :=
  createCheckID (makeTaskServiceID allocID taskName service)
    <$> Service.Checks service.

(** The service as a registration leaves it. *)
Definition with_default_protocols (service : Service.t) : Service.t :=
  Service.set_Checks (with_default_protocol <$> Service.Checks service) service.

(** The errors of a task registration: no executor for a script check,
    or a check that does not translate. *)
Definition task_error `{Externals} (err : error) : Prop :=
  err = Errorf "driver doesn't support script checks" []
  ∨ ∃ name cause, err = ErrorfWrap "failed to add check %q: %v" [name] cause.

(** Two services with the same name and tags: they get the same ID. *)
Definition same_identity (s' s : Service.t) : Prop :=
  Service.Name s' = Service.Name s ∧ Service.Tags s' = Service.Tags s.

(** ** Further scenarios *)

(** The sample task between its registration and the first pass, an
    update of it, an agent service, and a worker that is cancelled. *)
Module Fleet.

#[local] Existing Instance Sample.externals.
#[local] Existing Instance Sample.order.

Definition serviceID : string := "_nomad-executor-a1-web-web-v1".

(** The batch that registers the sample task. *)
Definition registration : operations.t :=
  (RegisterTask_services operations.empty "a1" (Some tt) "web" tt
     [Lifecycle.web]).1.2.

(** The store with the registration merged, before any pass. *)
Definition desired : ServiceClient.t := merge registration NewServiceClient.

(** The store and the registry after a pass over [desired]. *)
Definition synced : ServiceClient.t := (sync 0 desired Lifecycle.registry).1.2.

Definition remote : Registry.t := (sync 0 desired Lifecycle.registry).2.

(** A service with an HTTP check that names no protocol. *)
Definition api : Service.t :=
  Service.mk "api" "http" ["v2"] [Sample.check "http" (10 * Go.Second)].

(** The sample task with its service replaced. *)
Definition next : Task.t := Task.mk _ "web" [api] tt.

(** A service of the agent itself. *)
Definition serf : Service.t :=
  Service.mk "nomad" "10.0.0.1:4648" ["serf"] [Sample.check "tcp" (10 * Go.Second)].

(** The client of an agent that has registered [serf]. *)
Definition serving : ServiceClient.t :=
  match RegisterAgent PickSend "server" [serf] NewServiceClient with
  | Some (_, c, _) => c
  | None => NewServiceClient
  end.

(** The same client once [Shutdown] has sent its batch. *)
Definition served : ServiceClient.t :=
  default serving (Shutdown_signal 0 PickSend serving).

(** The client after an update of the sample task to [next]. *)
Definition updated : ServiceClient.t :=
  match UpdateTask 0 PickSend "a1" Lifecycle.task next None NewServiceClient with
  | Some (_, c, _) => c
  | None => NewServiceClient
  end.

(** The loop after shutdown, with the removal of the sample task still
    in the queue. *)
Definition draining : RunState.t Registry.t :=
  Run_start (ServiceClient.set_opCh [Lifecycle.removal] stopping) remote.

(** The same loop after a turn whose [select] took the queued batch. *)
Definition drained : RunState.t Registry.t :=
  default draining (Run_body WakeOp draining).

(** The batch that registers [next]. *)
Definition renewal : operations.t :=
  (RegisterTask_services operations.empty "a1" None "web" tt [api]).1.2.

(** The events of a client that is shut down before anything else. *)
Definition shutdown : list Event :=
  [EvShutdown 0 PickSend; EvBody WakeShutdown; EvShutdownCheck;
   EvBody WakeShutdown; EvShutdownCheck].

(** The loop once it has exited. *)
Definition exited : RunState.t Registry.t :=
  default (Run_start NewServiceClient Lifecycle.registry)
    (Run_events shutdown (Run_start NewServiceClient Lifecycle.registry)).

(** The context is cancelled while the worker sleeps. *)
Definition cancelled : Worker.Env :=
  Worker.mkEnv true false false 0 "out" 0 None Worker.CtxLive false false false.

End Fleet.

(** * Properties *)

(** ** Integers *)

Lemma wrap64_id z : Go.int64_range z → Go.wrap64 z = z.
Proof.
  unfold Go.int64_range, Go.MinInt64, Go.MaxInt64, Go.wrap64. intros Hz.
  rewrite Z.mod_small; lia.
Qed.

(** ** The check translator *)

Section Translator.
Context `{Externals}.

Lemma createCheckReg_script serviceID checkID check host port :
  ServiceCheck.Type_ check = ServiceCheckScript →
  createCheckReg serviceID checkID check host port =
    (inl (AgentCheckRegistration.mk checkID (ServiceCheck.Name check) serviceID
            (ServiceCheck.InitialStatus check)
            (Go.Duration_String (ServiceCheck.Timeout check))
            (Go.Duration_String (ServiceCheck.Interval check))
            "" ""
            (Go.Duration_String
               (Go.Duration_add (ServiceCheck.Interval check) ttlCheckBuffer))),
     check).
Proof. intros Ht. unfold createCheckReg. rewrite Ht. reflexivity. Qed.

(** C5, as far as it holds: a script check whose interval leaves room
    for the buffer below the largest [int64] translates, without error,
    to a registration with no HTTP URL and no TCP endpoint whose TTL is
    the rendering of the interval plus 31 seconds; the check itself is
    left as it was. *)
Theorem createCheckReg_script_ttl serviceID checkID check host port :
  ServiceCheck.Type_ check = ServiceCheckScript →
  Go.MinInt64 <= ServiceCheck.Interval check
              <= Go.MaxInt64 - 31 * Go.Second →
  ∃ reg,
    createCheckReg serviceID checkID check host port = (inl reg, check)
    ∧ AgentCheckRegistration.HTTP reg = ""
    ∧ AgentCheckRegistration.TCP reg = ""
    ∧ AgentCheckRegistration.TTL reg =
        Go.Duration_String (ServiceCheck.Interval check + 31 * Go.Second).
Proof.
  intros Ht Hrange. eexists. split; [by apply createCheckReg_script|].
  cbn [AgentCheckRegistration.HTTP AgentCheckRegistration.TCP
       AgentCheckRegistration.TTL].
  repeat split. unfold Go.Duration_add. rewrite wrap64_id; [reflexivity|].
  unfold Go.int64_range, ttlCheckBuffer, Go.MinInt64, Go.MaxInt64 in *.
  change Go.Second with 1000000000 in *. lia.
Qed.

End Translator.

(** An interval of ten seconds is registered with a TTL of ["41s"]. *)
Lemma createCheckReg_script_ttl_witness :
  ∃ reg,
    createCheckReg (H := Sample.externals) "_nomad-executor-a1-web-web" "c1"
      (Sample.check "script" (10 * Go.Second)) "10.0.0.1" 8080
    = (inl reg, Sample.check "script" (10 * Go.Second))
    ∧ AgentCheckRegistration.HTTP reg = ""
    ∧ AgentCheckRegistration.TCP reg = ""
    ∧ AgentCheckRegistration.TTL reg = "41s".
Proof.
  apply (createCheckReg_script_ttl (H := Sample.externals)
           "_nomad-executor-a1-web-web" "c1"
           (Sample.check "script" (10 * Go.Second)) "10.0.0.1" 8080).
  - reflexivity.
  - vm_compute. split; discriminate.
Defined.

(** C5 as stated fails at the top of the range: with the largest interval
    the sum wraps around and the registered TTL is a negative duration,
    not the interval plus 31 seconds. *)
Lemma createCheckReg_script_ttl_overflow :
  ¬ (∀ check : ServiceCheck.t,
       ServiceCheck.Type_ check = ServiceCheckScript →
       ∃ reg,
         (createCheckReg (H := Sample.externals) "_nomad-s" "c1" check "h" 1).1
           = inl reg
         ∧ AgentCheckRegistration.TTL reg =
             Go.Duration_String (ServiceCheck.Interval check + 31 * Go.Second)).
Proof.
  intros Hall.
  destruct (Hall (Sample.check "script" Go.MaxInt64) eq_refl) as (reg & Hreg & Httl).
  vm_compute in Hreg. injection Hreg as <-.
  vm_compute in Httl. discriminate.
Qed.

(** What is registered then: the largest interval, 2562047h47m16.854775807s,
    gets a TTL of minus 2562047h46m45.854775809s. *)
Example createCheckReg_script_ttl_wraps :
  (createCheckReg (H := Sample.externals) "_nomad-s" "c1"
     (Sample.check "script" Go.MaxInt64) "h" 1).1
  = inl (AgentCheckRegistration.mk "c1" "alive" "_nomad-s" "" "2s"
           "2562047h47m16.854775807s" "" "" "-2562047h46m45.854775809s").
Proof. vm_compute. reflexivity. Qed.

Section TranslatorFrame.
Context `{Externals}.

(** The check as the caller finds it after the call: only an HTTP
    check without a protocol is touched. *)
Lemma createCheckReg_check serviceID checkID check host port :
  (createCheckReg serviceID checkID check host port).2 =
    if String.eqb (ServiceCheck.Type_ check) ServiceCheckHTTP
       && String.eqb (ServiceCheck.Protocol check) ""
    then ServiceCheck.set_Protocol "http" check else check.
Proof.
  unfold createCheckReg.
  destruct (String.eqb (ServiceCheck.Type_ check) ServiceCheckHTTP); cbn [andb].
  - destruct (String.eqb (ServiceCheck.Protocol check) "");
      destruct (url_Parse _); reflexivity.
  - repeat (match goal with |- context [if ?b then _ else _] => destruct b end);
      reflexivity.
Qed.

(** C9: for an HTTP check with an empty protocol, the check record the
    caller passed reads ["http"] in its [Protocol] field after the
    call, whether the translation succeeds or not, every other field
    is as before, and a registration that is produced takes its scheme
    from that field. *)
Theorem createCheckReg_writes_protocol serviceID checkID check host port :
  ServiceCheck.Type_ check = ServiceCheckHTTP →
  ServiceCheck.Protocol check = "" →
  let '(result, check') := createCheckReg serviceID checkID check host port in
  ServiceCheck.Protocol check' = "http"
  ∧ ServiceCheck.Name check' = ServiceCheck.Name check
  ∧ ServiceCheck.Type_ check' = ServiceCheck.Type_ check
  ∧ ServiceCheck.Command check' = ServiceCheck.Command check
  ∧ ServiceCheck.Args check' = ServiceCheck.Args check
  ∧ ServiceCheck.Path check' = ServiceCheck.Path check
  ∧ ServiceCheck.PortLabel check' = ServiceCheck.PortLabel check
  ∧ ServiceCheck.Interval check' = ServiceCheck.Interval check
  ∧ ServiceCheck.Timeout check' = ServiceCheck.Timeout check
  ∧ ServiceCheck.InitialStatus check' = ServiceCheck.InitialStatus check
  ∧ ∀ reg, result = inl reg →
      ∃ relative,
        url_Parse (ServiceCheck.Path check) = inl relative
        ∧ AgentCheckRegistration.HTTP reg =
            url_ResolveReference "http"
              (Go.JoinHostPort host (Go.Itoa port)) relative.
Proof.
  intros Ht Hp.
  pose proof (createCheckReg_check serviceID checkID check host port) as Hsnd.
  rewrite Ht, Hp in Hsnd. cbn in Hsnd.
  destruct (createCheckReg serviceID checkID check host port)
    as [result check'] eqn:Hreg.
  cbn in Hsnd. subst check'. repeat split.
  intros reg ->. unfold createCheckReg in Hreg. rewrite Ht, Hp in Hreg.
  cbn in Hreg. destruct (url_Parse (ServiceCheck.Path check)) as [relative|err].
  - exists relative. split; [reflexivity|]. by injection Hreg as <-.
  - discriminate.
Qed.

End TranslatorFrame.

Lemma createCheckReg_writes_protocol_witness :
  let '(result, check') :=
    createCheckReg (H := Sample.externals) "_nomad-executor-a1-web-web" "c1"
      (Sample.check "http" (10 * Go.Second)) "10.0.0.1" 8080 in
  ServiceCheck.Protocol (Sample.check "http" (10 * Go.Second)) = ""
  ∧ ServiceCheck.Protocol check' = "http"
  ∧ result = inl (AgentCheckRegistration.mk "c1" "alive"
                    "_nomad-executor-a1-web-web" "" "2s" "10s"
                    "http://10.0.0.1:8080/health" "" "").
Proof.
  pose proof (createCheckReg_writes_protocol (H := Sample.externals)
                "_nomad-executor-a1-web-web" "c1"
                (Sample.check "http" (10 * Go.Second)) "10.0.0.1" 8080
                eq_refl eq_refl) as Hw.
  destruct (createCheckReg _ _ _ _ _) as [result check'] eqn:Hreg.
  destruct Hw as (Hp & _). repeat split; [exact Hp|].
  vm_compute in Hreg. by injection Hreg as <- _.
Defined.

(** ** merge *)

Section Merge.
Context `{Externals}.

Implicit Types (c : ServiceClient.t) (ops : operations.t).

Lemma foldl_insert_lookup {A} (key : A → string) (l : list A)
    (m : gmap string A) (k : string) :
  foldl (λ m a, <[key a := a]> m) m l !! k =
    match last_reg key l k with Some a => Some a | None => m !! k end.
Proof.
  unfold last_reg. revert m. induction l as [|a l IH] using rev_ind; intros m.
  - reflexivity.
  - rewrite foldl_app, List.filter_app. cbn [foldl List.filter].
    destruct (String.eqb_spec (key a) k) as [->|Hne].
    + rewrite last_snoc. apply lookup_insert_eq.
    + rewrite app_nil_r, lookup_insert_ne by done. apply IH.
Qed.

Lemma foldl_delete_lookup {A} (l : list string) (m : gmap string A) (k : string) :
  foldl (λ m i, delete i m) m l !! k = if decide (k ∈ l) then None else m !! k.
Proof.
  revert m. induction l as [|a l IH]; intros m; cbn [foldl].
  - by rewrite decide_False by set_solver.
  - rewrite IH. destruct (decide (k ∈ l)).
    + by rewrite decide_True by set_solver.
    + destruct (decide (k = a)) as [->|].
      * rewrite decide_True by set_solver. apply lookup_delete_eq.
      * rewrite decide_False by set_solver. by apply lookup_delete_ne.
Qed.

(** Each loop of [merge] writes one map. *)
Lemma merge_regServices_eq l c :
  merge_regServices l c =
    ServiceClient.set_services
      (foldl (λ m s, <[AgentServiceRegistration.ID s := s]> m)
             (ServiceClient.services c) l) c.
Proof.
  unfold merge_regServices. revert c. induction l as [|a l IH]; intros c.
  - by destruct c.
  - cbn [foldl]. rewrite IH. by destruct c.
Qed.

Lemma merge_regChecks_eq l c :
  merge_regChecks l c =
    ServiceClient.set_checks
      (foldl (λ m s, <[AgentCheckRegistration.ID s := s]> m)
             (ServiceClient.checks c) l) c.
Proof.
  unfold merge_regChecks. revert c. induction l as [|a l IH]; intros c.
  - by destruct c.
  - cbn [foldl]. rewrite IH. by destruct c.
Qed.

Lemma merge_scripts_eq l c :
  merge_scripts l c =
    ServiceClient.set_scripts
      (foldl (λ m s, <[scriptCheck.id s := s]> m)
             (ServiceClient.scripts c) l) c.
Proof.
  unfold merge_scripts. revert c. induction l as [|a l IH]; intros c.
  - by destruct c.
  - cbn [foldl]. rewrite IH. by destruct c.
Qed.

Lemma merge_deregServices_eq l c :
  merge_deregServices l c =
    ServiceClient.set_services
      (foldl (λ m i, delete i m) (ServiceClient.services c) l) c.
Proof.
  unfold merge_deregServices. revert c. induction l as [|a l IH]; intros c.
  - by destruct c.
  - cbn [foldl]. rewrite IH. by destruct c.
Qed.

(** The last loop writes three maps and leaves the others. *)
Lemma merge_deregChecks_services l c :
  ServiceClient.services (merge_deregChecks l c) = ServiceClient.services c.
Proof.
  unfold merge_deregChecks. revert c. induction l as [|a l IH]; intros c; [done|].
  cbn [foldl]. rewrite IH. unfold deregCheck.
  by destruct (ServiceClient.runningScripts c !! a).
Qed.

Lemma merge_deregChecks_checks l c k :
  ServiceClient.checks (merge_deregChecks l c) !! k =
    if decide (k ∈ l) then None else ServiceClient.checks c !! k.
Proof.
  unfold merge_deregChecks. revert c. induction l as [|a l IH]; intros c.
  - by rewrite decide_False by set_solver.
  - cbn [foldl]. rewrite IH.
    assert (ServiceClient.checks (deregCheck c a) =
              delete a (ServiceClient.checks c)) as ->.
    { unfold deregCheck. by destruct (ServiceClient.runningScripts c !! a). }
    destruct (decide (k ∈ l)).
    + by rewrite decide_True by set_solver.
    + destruct (decide (k = a)) as [->|].
      * rewrite decide_True by set_solver. apply lookup_delete_eq.
      * rewrite decide_False by set_solver. by apply lookup_delete_ne.
Qed.

Lemma deregCheck_runningScripts c a k :
  ServiceClient.runningScripts (deregCheck c a) !! k =
    if decide (k = a)
    then scriptHandle.cancel <$> ServiceClient.runningScripts c !! k
    else ServiceClient.runningScripts c !! k.
Proof.
  unfold deregCheck.
  destruct (ServiceClient.runningScripts c !! a) as [h|] eqn:Hh; cbn.
  - destruct (decide (k = a)) as [->|].
    + by rewrite lookup_insert_eq, Hh.
    + by rewrite lookup_insert_ne.
  - destruct (decide (k = a)) as [->|]; [by rewrite Hh|done].
Qed.

(** [merge] never takes a handle out of [runningScripts]: the handle of
    a deregistered check stays, cancelled. *)
Lemma merge_deregChecks_runningScripts l c k :
  ServiceClient.runningScripts (merge_deregChecks l c) !! k =
    if decide (k ∈ l)
    then scriptHandle.cancel <$> ServiceClient.runningScripts c !! k
    else ServiceClient.runningScripts c !! k.
Proof.
  unfold merge_deregChecks. revert c. induction l as [|a l IH]; intros c.
  - by rewrite decide_False by set_solver.
  - cbn [foldl]. rewrite IH, deregCheck_runningScripts.
    destruct (decide (k ∈ l)), (decide (k = a)) as [->|].
    + rewrite decide_True by set_solver.
      by destruct (ServiceClient.runningScripts c !! a).
    + by rewrite decide_True by set_solver.
    + by rewrite decide_True by set_solver.
    + by rewrite decide_False by set_solver.
Qed.

Lemma deregCheck_scripts c a k :
  ServiceClient.scripts (deregCheck c a) !! k =
    if decide (k = a ∧ is_Some (ServiceClient.runningScripts c !! a))
    then None else ServiceClient.scripts c !! k.
Proof.
  unfold deregCheck.
  destruct (ServiceClient.runningScripts c !! a) as [h|] eqn:Hh; cbn.
  - destruct (decide (k = a)) as [->|].
    + rewrite decide_True by (split; [done|by eexists]). apply lookup_delete_eq.
    + rewrite decide_False by naive_solver. by apply lookup_delete_ne.
  - rewrite decide_False; [done|]. intros [_ [? ?]]. congruence.
Qed.

Lemma merge_deregChecks_scripts l c k :
  ServiceClient.scripts (merge_deregChecks l c) !! k =
    if decide (k ∈ l ∧ is_Some (ServiceClient.runningScripts c !! k))
    then None else ServiceClient.scripts c !! k.
Proof.
  unfold merge_deregChecks. revert c. induction l as [|a l IH]; intros c.
  - rewrite decide_False; [done|]. set_solver.
  - cbn [foldl]. rewrite IH, deregCheck_scripts, deregCheck_runningScripts.
    assert (∀ x : option scriptHandle.t,
              is_Some (scriptHandle.cancel <$> x) ↔ is_Some x) as Hfmap.
    { intros x. by rewrite fmap_is_Some. }
    repeat case_decide; try done; exfalso; set_solver.
Qed.

Lemma merge_services ops c k :
  ServiceClient.services (merge ops c) !! k =
    if decide (k ∈ operations.deregServices ops) then None
    else match last_reg AgentServiceRegistration.ID
                 (operations.regServices ops) k with
         | Some s => Some s
         | None => ServiceClient.services c !! k
         end.
Proof.
  unfold merge. rewrite merge_deregChecks_services, merge_deregServices_eq,
    merge_scripts_eq, merge_regChecks_eq, merge_regServices_eq.
  cbn. rewrite foldl_delete_lookup. case_decide; [done|].
  apply foldl_insert_lookup.
Qed.

Lemma merge_checks ops c k :
  ServiceClient.checks (merge ops c) !! k =
    if decide (k ∈ operations.deregChecks ops) then None
    else match last_reg AgentCheckRegistration.ID
                 (operations.regChecks ops) k with
         | Some s => Some s
         | None => ServiceClient.checks c !! k
         end.
Proof.
  unfold merge. rewrite merge_deregChecks_checks, merge_deregServices_eq,
    merge_scripts_eq, merge_regChecks_eq, merge_regServices_eq.
  cbn. case_decide; [done|]. apply foldl_insert_lookup.
Qed.

Lemma merge_runningScripts ops c k :
  ServiceClient.runningScripts (merge ops c) !! k =
    if decide (k ∈ operations.deregChecks ops)
    then scriptHandle.cancel <$> ServiceClient.runningScripts c !! k
    else ServiceClient.runningScripts c !! k.
Proof.
  unfold merge. rewrite merge_deregChecks_runningScripts, merge_deregServices_eq,
    merge_scripts_eq, merge_regChecks_eq, merge_regServices_eq. done.
Qed.

Lemma merge_scripts_lookup ops c k :
  ServiceClient.scripts (merge ops c) !! k =
    if decide (k ∈ operations.deregChecks ops
               ∧ is_Some (ServiceClient.runningScripts c !! k))
    then None
    else match last_reg scriptCheck.id (operations.scripts ops) k with
         | Some s => Some s
         | None => ServiceClient.scripts c !! k
         end.
Proof.
  unfold merge. rewrite merge_deregChecks_scripts, merge_deregServices_eq,
    merge_scripts_eq, merge_regChecks_eq, merge_regServices_eq.
  cbn. case_decide; [done|]. apply foldl_insert_lookup.
Qed.

End Merge.

Section MergeOrder.
Context `{Externals}.

(** C3, as the code has it: [merge] runs its five loops in the order
    register-services, register-checks, register-scripts,
    deregister-services, deregister-checks, and since the removals
    come last it is the removal that takes effect when a batch both
    adds and removes an ID: the ID is absent from the store after the
    merge.  An ID the batch adds and does not remove is present, with
    the last registration the batch holds for it. *)
Theorem merge_removal_wins (ops : operations.t) (c : ServiceClient.t) :
  merge ops c =
    merge_deregChecks (operations.deregChecks ops)
      (merge_deregServices (operations.deregServices ops)
         (merge_scripts (operations.scripts ops)
            (merge_regChecks (operations.regChecks ops)
               (merge_regServices (operations.regServices ops) c))))
  ∧ (∀ id, id ∈ operations.deregServices ops →
           ServiceClient.services (merge ops c) !! id = None)
  ∧ (∀ id, id ∈ operations.deregChecks ops →
           ServiceClient.checks (merge ops c) !! id = None)
  ∧ (∀ id s, id ∉ operations.deregServices ops →
             last_reg AgentServiceRegistration.ID
               (operations.regServices ops) id = Some s →
             ServiceClient.services (merge ops c) !! id = Some s)
  ∧ (∀ id s, id ∉ operations.deregChecks ops →
             last_reg AgentCheckRegistration.ID
               (operations.regChecks ops) id = Some s →
             ServiceClient.checks (merge ops c) !! id = Some s).
Proof.
  split; [reflexivity|]. repeat split.
  - intros id Hin. rewrite merge_services. by rewrite decide_True.
  - intros id Hin. rewrite merge_checks. by rewrite decide_True.
  - intros id s Hnin Hlast. rewrite merge_services, decide_False by done.
    by rewrite Hlast.
  - intros id s Hnin Hlast. rewrite merge_checks, decide_False by done.
    by rewrite Hlast.
Qed.

End MergeOrder.

Lemma merge_removal_wins_witness :
  "_nomad-executor-a1-web-web-v0" ∈ operations.deregServices Rename.rename
  ∧ ServiceClient.services (merge Rename.rename NewServiceClient)
      !! "_nomad-executor-a1-web-web-v0" = None
  ∧ ServiceClient.services (merge Rename.rename NewServiceClient)
      !! "_nomad-executor-a1-web-web-v1" = Some Rename.web.
Proof.
  destruct (merge_removal_wins Rename.rename NewServiceClient)
    as (_ & Hs & _ & Hl & _).
  split; [|split].
  - cbn. set_solver.
  - apply Hs. cbn. set_solver.
  - apply Hl; [|reflexivity]. cbn. rewrite list_elem_of_singleton. discriminate.
Defined.

(** C3 as stated fails: in a batch that re-adds the ID it removes, the
    add does not take effect. *)
Lemma merge_add_does_not_win :
  ¬ (∀ (ops : operations.t (H := Sample.externals)) (c : ServiceClient.t) s,
       s ∈ operations.regServices ops →
       AgentServiceRegistration.ID s ∈ operations.deregServices ops →
       is_Some (ServiceClient.services (merge ops c)
                  !! AgentServiceRegistration.ID s)).
Proof.
  intros Hall.
  destruct (Hall Rename.batch NewServiceClient Rename.web) as [s Hs].
  - cbn. set_solver.
  - cbn. set_solver.
  - rewrite merge_services, decide_True in Hs; [discriminate|].
    cbn. set_solver.
Qed.

Section RunningScripts.
Context `{Externals}.

(** C2, where the code departs from it: [merge] cancels the handle of
    a deregistered check and drops the script definition, but leaves
    the handle in [runningScripts].  After merging a batch that
    deregisters a check with a live handle, the check ID is still a
    key of [runningScripts] (its handle cancelled) and no longer a key
    of [scripts]: the store does not satisfy runningScripts ⊆ scripts. *)
Theorem merge_keeps_cancelled_handle (ops : operations.t)
    (c : ServiceClient.t) (cid : string) (h : scriptHandle.t) :
  cid ∈ operations.deregChecks ops →
  ServiceClient.runningScripts c !! cid = Some h →
  ServiceClient.runningScripts (merge ops c) !! cid
    = Some (scriptHandle.mk true)
  ∧ ServiceClient.scripts (merge ops c) !! cid = None
  ∧ ¬ (dom (ServiceClient.runningScripts (merge ops c))
         ⊆ dom (ServiceClient.scripts (merge ops c))).
Proof.
  intros Hin Hh.
  assert (ServiceClient.runningScripts (merge ops c) !! cid
            = Some (scriptHandle.mk true)) as Hrun.
  { rewrite merge_runningScripts, decide_True, Hh by done. reflexivity. }
  assert (ServiceClient.scripts (merge ops c) !! cid = None) as Hscr.
  { rewrite merge_scripts_lookup, decide_True; [done|]. split; [done|by eexists]. }
  repeat split; [done..|].
  intros Hsub. apply not_elem_of_dom in Hscr. apply Hscr, Hsub.
  apply elem_of_dom. by eexists.
Qed.

(** No batch removes a key from [runningScripts]. *)
Lemma merge_runningScripts_dom (ops : operations.t) (c : ServiceClient.t) :
  dom (ServiceClient.runningScripts (merge ops c))
    = dom (ServiceClient.runningScripts c).
Proof.
  apply set_eq. intros k. rewrite !elem_of_dom, merge_runningScripts.
  case_decide; [|done]. by rewrite fmap_is_Some.
Qed.

End RunningScripts.

Lemma merge_keeps_cancelled_handle_witness :
  dom (ServiceClient.runningScripts Lifecycle.registered)
    ⊆ dom (ServiceClient.scripts Lifecycle.registered)
  ∧ ServiceClient.runningScripts (merge Lifecycle.removal Lifecycle.registered)
      !! Lifecycle.checkID = Some (scriptHandle.mk true)
  ∧ ServiceClient.scripts (merge Lifecycle.removal Lifecycle.registered)
      !! Lifecycle.checkID = None
  ∧ ¬ (dom (ServiceClient.runningScripts
              (merge Lifecycle.removal Lifecycle.registered))
         ⊆ dom (ServiceClient.scripts
                  (merge Lifecycle.removal Lifecycle.registered))).
Proof.
  split.
  - assert (ServiceClient.runningScripts Lifecycle.registered
            = {[Lifecycle.checkID := scriptHandle.mk false]}) as ->
      by (vm_compute; reflexivity).
    rewrite dom_singleton_L, singleton_subseteq_l, elem_of_dom.
    vm_compute. eexists; reflexivity.
  - apply (merge_keeps_cancelled_handle (H := Sample.externals)
             Lifecycle.removal Lifecycle.registered Lifecycle.checkID
             (scriptHandle.mk false)).
    + vm_compute. set_solver.
    + vm_compute. reflexivity.
Defined.

(** What the stale handle costs: when the task is registered again, the
    check is back in the registry and its script definition back in the
    store, but the pass finds the cancelled handle and starts no worker. *)
Example reregistered_script_not_restarted :
  match Lifecycle.again with
  | Some st =>
      is_Some (Registry.checks (RunState.remote st) !! Lifecycle.checkID)
      ∧ is_Some (ServiceClient.scripts (RunState.client st) !! Lifecycle.checkID)
      ∧ ServiceClient.runningScripts (RunState.client st) !! Lifecycle.checkID
        = Some (scriptHandle.mk true)
  | None => False
  end.
Proof. vm_compute. split_and!; [by eexists..|done]. Qed.

(** ** What merge and sync leave alone *)

Section Frames.
Context `{Externals} `{MapRange} {R : Type} `{AgentAPI R}.

Lemma merge_deregChecks_settings l c :
  settings (merge_deregChecks l c) = settings c.
Proof.
  unfold merge_deregChecks. revert c. induction l as [|a l IH]; intros c; [done|].
  cbn [foldl]. rewrite IH. unfold deregCheck.
  by destruct (ServiceClient.runningScripts c !! a).
Qed.

Lemma merge_settings ops c : settings (merge ops c) = settings c.
Proof.
  unfold merge. rewrite merge_deregChecks_settings, merge_deregServices_eq,
    merge_scripts_eq, merge_regChecks_eq, merge_regServices_eq. done.
Qed.

Lemma sync_startScript_frame id c :
  settings (sync_startScript id c) = settings c
  ∧ ServiceClient.services (sync_startScript id c) = ServiceClient.services c
  ∧ ServiceClient.checks (sync_startScript id c) = ServiceClient.checks c.
Proof.
  unfold sync_startScript.
  destruct (ServiceClient.scripts c !! id); [|done].
  by destruct (ServiceClient.runningScripts c !! id).
Qed.

Lemma sync_regChecks_frame consulChecks l c r creg :
  let c' := (sync_regChecks consulChecks l c r creg).1.1.2 in
  settings c' = settings c
  ∧ ServiceClient.services c' = ServiceClient.services c
  ∧ ServiceClient.checks c' = ServiceClient.checks c.
Proof.
  revert c r creg. induction l as [|[id check] l IH]; intros c r creg; [done|].
  cbn [sync_regChecks]. destruct (consulChecks !! id); [apply IH|].
  destruct (CheckRegister check r) as [[err|] r']; [done|].
  destruct (sync_startScript_frame id c) as (Hs & Hsv & Hch).
  cbn zeta. rewrite <- Hs, <- Hsv, <- Hch. apply IH.
Qed.

(** A pass writes the scripts, their handles and the log, nothing else. *)
Lemma sync_frame seed c r :
  let c' := (sync seed c r).1.2 in
  settings c' = settings c
  ∧ ServiceClient.services c' = ServiceClient.services c
  ∧ ServiceClient.checks c' = ServiceClient.checks c.
Proof.
  unfold sync.
  destruct (Services r) as [[consulServices|err] r1]; [|done].
  destruct (Checks r1) as [[consulChecks|err] r2]; [|done].
  destruct (sync_deregServices _ _ _ _) as [[[err|] r3] sdereg]; [done|].
  destruct (sync_regServices _ _ _ _) as [[[err|] r4] sreg]; [done|].
  destruct (sync_deregChecks _ _ _ _) as [[[err|] r5] cdereg]; [done|].
  pose proof (sync_regChecks_frame consulChecks
                (range (seed + 3) (ServiceClient.checks c)) c r5 0) as Hf.
  destruct (sync_regChecks _ _ _ _ _) as [[[[err|] c'] r6] creg]; exact Hf.
Qed.

End Frames.

(** ** The retry schedule *)


Section RetrySchedule.
Context `{Externals} `{MapRange} {R : Type} `{AgentAPI R}.




End RetrySchedule.

(** The schedule over 35 consecutive failures: 1s, 2s, ..., 30s, 30s, ... *)
Example Run_schedule_35 :
  (match Outage.first 35 with
   | Some st => RunState.retryTimer st :: Outage.schedule 34 st
   | None => []
   end)
  = map (λ n, Some (Z.min (Z.of_nat n * Go.Second) (30 * Go.Second))) (seq 1 35).
Proof. vm_compute. reflexivity. Qed.


Section OutageRounds.
#[local] Existing Instance Sample.externals.
#[local] Existing Instance Sample.order.

Implicit Types (st : RunState.t Registry.t).




End OutageRounds.


(** ** The script-check worker *)

Section WorkerTrace.
Context `{Externals} {R : Type} `{AgentAPI R}.
Import Worker.

Lemma since_app w w' l : trace w' = (trace w ++ l)%list → since w w' = l.
Proof. intros Heq. unfold since. by rewrite Heq, drop_app_length. Qed.

(** The events of the heartbeat part. *)
Lemma heartbeat_trace e w r :
  done w = false →
  let s := script w in
  let ev := EvUpdateTTL (scriptCheck.id s)
              (output_of (exec_output e) (exec_err e))
              (status_of (exec_code e) (exec_err e)) in
  let w' := (heartbeat e w r).1 in
  trace w' = (trace w ++ ev :: (if done w' then [EvDone] else []))%list
  ∧ done w' = ctx_done w || ttl_cancel e
              || shutdownCh w || exec_shutdown e || ttl_shutdown e
  ∧ (heartbeat e w r).2 =
      (UpdateTTL (scriptCheck.id s) (output_of (exec_output e) (exec_err e))
         (status_of (exec_code e) (exec_err e)) r).2.
Proof.
  intros Hlive. cbn zeta. unfold heartbeat.
  destruct (UpdateTTL _ _ _ r) as [err r'].
  destruct w as [s cd sh lg tr dn]. cbn in *. subst dn.
  destruct cd, (ttl_cancel e), sh, (exec_shutdown e), (ttl_shutdown e), err,
    (scriptCheck.lastCheckOk s); cbn; rewrite <- ?app_assoc; done.
Qed.

Lemma execute_trace e w r :
  done w = false →
  let check := scriptCheck.check (script w) in
  let probe := EvExec (ServiceCheck.Command check) (ServiceCheck.Args check)
                 (ServiceCheck.Timeout check) in
  let beat := EvUpdateTTL (scriptCheck.id (script w))
                (output_of (exec_output e) (exec_err e))
                (status_of (exec_code e) (exec_err e)) in
  let w' := (execute e w r).1 in
  if ctx_done w || match exec_ctx e with CtxCanceled => true | _ => false end
  then trace w' = (trace w ++ [probe; EvDone])%list ∧ done w' = true
       ∧ (execute e w r).2 = r
  else
    trace w' = (trace w ++ probe :: beat :: (if done w' then [EvDone] else []))%list
    ∧ done w' = match exec_ctx e with CtxDeadlineExceeded b => b | _ => false end
                || ttl_cancel e || shutdownCh w || exec_shutdown e || ttl_shutdown e
    ∧ (execute e w r).2 =
      (UpdateTTL (scriptCheck.id (script w)) (output_of (exec_output e) (exec_err e))
         (status_of (exec_code e) (exec_err e)) r).2.
Proof.
  intros Hlive. cbn zeta. unfold execute.
  destruct (ctx_done w) eqn:Hcd; cbn [orb].
  - cbn. rewrite Hcd. cbn. by rewrite <- app_assoc.
  - cbn [emit ctx_done]. rewrite Hcd.
    destruct (exec_ctx e) as [| |later].
    + pose proof (heartbeat_trace e
        (emit (EvExec (ServiceCheck.Command (scriptCheck.check (script w)))
                 (ServiceCheck.Args (scriptCheck.check (script w)))
                 (ServiceCheck.Timeout (scriptCheck.check (script w)))) w) r Hlive)
        as (Ht & Hd & Hr).
      cbn in Ht, Hd, Hr. rewrite Hcd in Hd. rewrite Ht, Hd, Hr.
      by rewrite <- app_assoc.
    + cbn. by rewrite <- app_assoc.
    + match goal with |- context [heartbeat e ?w0 r] =>
        pose proof (heartbeat_trace e w0 r Hlive) as (Ht & Hd & Hr) end.
      cbn in Ht, Hd, Hr. rewrite Hcd in Hd. rewrite Ht, Hd, Hr.
      rewrite <- app_assoc, ?orb_false_r. done.
Qed.

Lemma run_done es w (r : R) : done w = true → run es w r = (w, r).
Proof. intros Hd. destruct es; cbn; [done|]. by rewrite Hd. Qed.

(** What one turn adds to the trace. *)
Lemma iteration_trace e w r :
  done w = false →
  let check := scriptCheck.check (script w) in
  let probe := EvExec (ServiceCheck.Command check) (ServiceCheck.Args check)
                 (ServiceCheck.Timeout check) in
  let beat := EvUpdateTTL (scriptCheck.id (script w))
                (output_of (exec_output e) (exec_err e))
                (status_of (exec_code e) (exec_err e)) in
  let w' := (iteration e w r).1 in
  let reset := match select e w with
               | CaseTimer => [EvTimerReset (ServiceCheck.Interval check)]
               | _ => []
               end in
  match select e w with
  | CaseCtxDone => since w w' = [EvDone] ∧ done w' = true
  | _ =>
      if ctx_done w || sleep_cancel e
         || match exec_ctx e with CtxCanceled => true | _ => false end
      then since w w' = (reset ++ [probe; EvDone])%list ∧ done w' = true
      else
        since w w' =
          (reset ++ probe :: beat :: (if done w' then [EvDone] else []))%list
        ∧ done w' =
            match exec_ctx e with CtxDeadlineExceeded b => b | _ => false end
            || ttl_cancel e || shutdownCh w || sleep_shutdown e
            || exec_shutdown e || ttl_shutdown e
  end.
Proof.
  intros Hlive. cbn zeta. unfold iteration.
  destruct (select e w).
  - split; [|done]. by apply since_app.
  - match goal with |- context [execute e ?w0 r] =>
      pose proof (execute_trace e w0 r Hlive) as Hex end.
    cbn zeta in Hex. cbn [flags ctx_done shutdownCh script trace] in Hex.
    destruct (ctx_done w || sleep_cancel e || _).
    + destruct Hex as (Ht & Hd & _). split; [|done]. by apply since_app.
    + destruct Hex as (Ht & Hd & _). split.
      * by apply since_app.
      * by rewrite Hd, !orb_assoc.
  - match goal with |- context [execute e ?w0 r] =>
      pose proof (execute_trace e w0 r Hlive) as Hex end.
    cbn zeta in Hex. cbn [flags emit ctx_done shutdownCh script trace] in Hex.
    destruct (ctx_done w || sleep_cancel e || _).
    + destruct Hex as (Ht & Hd & _). split; [|done]. apply since_app.
      etrans; [exact Ht|]. by rewrite <- app_assoc.
    + destruct Hex as (Ht & Hd & _). split.
      * apply since_app. etrans; [exact Ht|]. by rewrite <- app_assoc.
      * etrans; [exact Hd|]. by rewrite !orb_assoc.
Qed.
End WorkerTrace.

Section WorkerClaims.
Context `{Externals} {R : Type} `{AgentAPI R}.
Import Worker.

(** A worker whose context is live is not woken by [ctx.Done()]. *)
Lemma select_live e w :
  ctx_done w = false → sleep_cancel e = false → select e w ≠ CaseCtxDone.
Proof.
  intros Hc Hs. unfold select, ready. rewrite Hc, Hs. cbn [orb app].
  match goal with |- nth ?n ?l ?d ≠ _ =>
    destruct (nth_in_or_default n l d) as [Hin| ->]; [|done];
    revert Hin; generalize (nth n l d) end.
  intros c. destruct (shutdownCh w || sleep_shutdown e), (sleep_timer e);
    cbn; naive_solver.
Qed.

(** A turn in which the worker is not cancelled sends its heartbeat. *)
Lemma worker_heartbeat_sent (e : Env) (w : t) (r : R) :
  done w = false →
  ctx_done w = false →
  sleep_cancel e = false →
  exec_ctx e ≠ CtxCanceled →
  In (EvUpdateTTL (scriptCheck.id (script w))
        (output_of (exec_output e) (exec_err e))
        (status_of (exec_code e) (exec_err e)))
     (since w (iteration e w r).1).
Proof.
  intros Hlive Hc Hs Hx.
  pose proof (select_live e w Hc Hs) as Hsel.
  pose proof (iteration_trace e w r Hlive) as Hit. cbn zeta in Hit.
  rewrite Hc, Hs in Hit. cbn [orb] in Hit.
  assert (match exec_ctx e with CtxCanceled => true | _ => false end = false)
    as Hnc by (by destruct (exec_ctx e)).
  rewrite Hnc in Hit.
  destruct (select e w); [done|..]; destruct Hit as [-> _]; cbn; auto.
Qed.

(** A worker woken by [ctx.Done()] has been cancelled. *)
Lemma select_ctx_cancelled e w :
  select e w = CaseCtxDone → ctx_done w || sleep_cancel e = true.
Proof.
  intros Hsel. destruct (ctx_done w) eqn:Hc; [done|].
  destruct (sleep_cancel e) eqn:Hs; [done|].
  by destruct (select_live e w Hc Hs).
Qed.

(** C6: in a turn of its loop a worker that is not cancelled sends
    exactly one heartbeat, the registry receives exactly that call, and
    the heartbeat carries the check's ID and: when the executor
    returned no error, the executor's output and the status passing for
    exit code 0, warning for 1 and critical for any other code; when
    the executor returned an error, critical and, as output, the
    error's text.  A worker cancelled before the heartbeat sends none
    and leaves the registry as it was. *)
Theorem worker_heartbeat_status (e : Env) (w : t) (r : R) :
  done w = false →
  let id := scriptCheck.id (script w) in
  let status :=
    match exec_err e with
    | Some _ => HealthCritical
    | None =>
        if decide (exec_code e = 0) then HealthPassing
        else if decide (exec_code e = 1) then HealthWarning
        else HealthCritical
    end in
  let output :=
    match exec_err e with Some text => text | None => exec_output e end in
  let cancelled :=
    ctx_done w || sleep_cancel e
    || match exec_ctx e with CtxCanceled => true | _ => false end in
  List.filter is_heartbeat (since w (iteration e w r).1)
    = (if cancelled then [] else [EvUpdateTTL id output status])
  ∧ (iteration e w r).2
    = (if cancelled then r else (UpdateTTL id output status r).2).
Proof.
  intros Hlive. cbn zeta.
  assert (status_of (exec_code e) (exec_err e)
          = match exec_err e with
            | Some _ => HealthCritical
            | None =>
                if decide (exec_code e = 0) then HealthPassing
                else if decide (exec_code e = 1) then HealthWarning
                else HealthCritical
            end) as <-.
  { unfold status_of. destruct (exec_err e); [done|].
    destruct (Z.eqb_spec (exec_code e) 0), (Z.eqb_spec (exec_code e) 1);
      repeat case_decide; done. }
  change (match exec_err e with Some text => text | None => exec_output e end)
    with (output_of (exec_output e) (exec_err e)).
  split.
  - pose proof (iteration_trace e w r Hlive) as Hit. cbn zeta in Hit.
    destruct (select e w) eqn:Hsel.
    + destruct Hit as [-> _]. by rewrite (select_ctx_cancelled e w Hsel).
    + destruct (ctx_done w || sleep_cancel e || _);
        destruct Hit as [-> _]; [done|].
      by destruct (done (iteration e w r).1).
    + destruct (ctx_done w || sleep_cancel e || _);
        destruct Hit as [-> _]; [done|].
      by destruct (done (iteration e w r).1).
  - unfold iteration.
    destruct (select e w) eqn:Hsel.
    + by rewrite (select_ctx_cancelled e w Hsel).
    + match goal with |- context [execute e ?w0 r] =>
        pose proof (execute_trace e w0 r Hlive) as Hex end.
      cbn zeta in Hex. cbn [flags ctx_done script] in Hex.
      destruct (ctx_done w || sleep_cancel e || _);
        destruct Hex as (_ & _ & Hex); exact Hex.
    + match goal with |- context [execute e ?w0 r] =>
        pose proof (execute_trace e w0 r Hlive) as Hex end.
      cbn zeta in Hex. cbn [flags emit ctx_done script] in Hex.
      destruct (ctx_done w || sleep_cancel e || _);
        destruct Hex as (_ & _ & Hex); exact Hex.
Qed.

(** C7, the part the code does: every execution that exceeds its
    deadline (and is not cancelled first) logs the timeout warning,
    whatever [lastCheckOk] is. *)
Lemma worker_timeout_logged (e : Env) (w : t) (r : R) (later : bool) :
  done w = false →
  ctx_done w = false →
  sleep_cancel e = false →
  exec_ctx e = CtxDeadlineExceeded later →
  let check := scriptCheck.check (script w) in
  ∃ rest,
    logger (iteration e w r).1 =
      (logger w
       ++ Printf "[WARN] consul.checks: check %q timed out (%s)"
            [OpString (ServiceCheck.Name check);
             OpString (Go.Duration_String (ServiceCheck.Timeout check))]
       :: rest)%list.
Proof.
  intros Hlive Hc Hs Hctx. cbn zeta.
  pose proof (select_live e w Hc Hs) as Hsel.
  unfold iteration.
  destruct (select e w); [done|..];
    unfold execute; cbn [emit flags ctx_done]; rewrite Hc, Hs, Hctx; cbn [orb];
    unfold heartbeat; destruct (UpdateTTL _ _ _ r) as [err r'];
    destruct w as [s cd sh lg tr dn]; cbn in *; subst cd dn;
    destruct later, (ttl_cancel e), sh, (sleep_shutdown e), (exec_shutdown e),
      (ttl_shutdown e), err; cbn; rewrite <- ?app_assoc; cbn; by eexists.
Qed.

(** C7, where the code departs from it: the status of an execution
    that exceeded its deadline is still taken from the exit code and
    the executor's error.  When the executor returns exit code 0 and
    no error as the deadline passes, the timeout is logged and the
    heartbeat says passing, not critical. *)
Theorem worker_timeout_heartbeat_passing (e : Env) (w : t) (r : R) :
  done w = false →
  ctx_done w = false →
  sleep_cancel e = false →
  exec_ctx e = CtxDeadlineExceeded false →
  exec_code e = 0 →
  exec_err e = None →
  In (EvUpdateTTL (scriptCheck.id (script w)) (exec_output e) HealthPassing)
     (since w (iteration e w r).1).
Proof.
  intros Hlive Hc Hs Hctx Hcode Herr.
  pose proof (select_live e w Hc Hs) as Hsel.
  pose proof (iteration_trace e w r Hlive) as Hit. cbn zeta in Hit.
  rewrite Hc, Hs, Hctx, Hcode, Herr in Hit. cbn [orb] in Hit.
  destruct (select e w); [done|..]; destruct Hit as [-> _];
    cbn; unfold status_of, output_of; cbn; auto.
Qed.

(** C8: a live worker that is woken while the shutdown signal fires
    and is not cancelled runs the probe once, sends one heartbeat and
    returns: its trace grows by the execution, the heartbeat and the
    closing of [done], in this order (after the timer reset, if the
    timer fired too and was the case taken), [done] is closed, the
    registry is as the heartbeat call left it, and no later turn adds
    anything. *)
Theorem worker_final_heartbeat (e : Env) (es : list Env) (w : t) (r : R) :
  done w = false →
  ctx_done w = false →
  sleep_shutdown e = true →
  sleep_cancel e = false →
  exec_ctx e ≠ CtxCanceled →
  exec_ctx e ≠ CtxDeadlineExceeded true →
  ttl_cancel e = false →
  let check := scriptCheck.check (script w) in
  let probe := EvExec (ServiceCheck.Command check) (ServiceCheck.Args check)
                 (ServiceCheck.Timeout check) in
  let beat := EvUpdateTTL (scriptCheck.id (script w))
                (output_of (exec_output e) (exec_err e))
                (status_of (exec_code e) (exec_err e)) in
  let w' := (run (e :: es) w r).1 in
  done w' = true
  ∧ (since w w' = [probe; beat; EvDone]
     ∨ since w w' =
         [EvTimerReset (ServiceCheck.Interval check); probe; beat; EvDone])
  ∧ probes (since w w') = 1%nat
  ∧ heartbeats (since w w') = 1%nat
  ∧ (run (e :: es) w r).2 =
      (UpdateTTL (scriptCheck.id (script w))
         (output_of (exec_output e) (exec_err e))
         (status_of (exec_code e) (exec_err e)) r).2.
Proof.
  intros Hlive Hc Hsh Hs Hx1 Hx2 Ht. cbn zeta.
  pose proof (select_live e w Hc Hs) as Hsel.
  pose proof (iteration_trace e w r Hlive) as Hit. cbn zeta in Hit.
  rewrite Hc, Hs, Hsh, Ht in Hit.
  assert (match exec_ctx e with CtxCanceled => true | _ => false end = false)
    as Hnc by (by destruct (exec_ctx e)).
  assert (match exec_ctx e with CtxDeadlineExceeded b => b | _ => false end = false)
    as Hnl by (by destruct (exec_ctx e) as [| |[]]).
  rewrite Hnc, Hnl, !orb_true_r in Hit. cbn [orb] in Hit.
  assert ((iteration e w r).2 =
            (UpdateTTL (scriptCheck.id (script w))
               (output_of (exec_output e) (exec_err e))
               (status_of (exec_code e) (exec_err e)) r).2) as Hreg.
  { unfold iteration.
    destruct (select e w); [done|..];
      match goal with |- context [execute e ?w0 r] =>
        pose proof (execute_trace e w0 r Hlive) as Hex end;
      cbn zeta in Hex; cbn [flags emit ctx_done script] in Hex;
      rewrite Hc, Hs, Hnc in Hex; cbn [orb] in Hex;
      destruct Hex as (_ & _ & Hex); rewrite Hs; exact Hex. }
  cbn [run]. rewrite Hlive.
  destruct (iteration e w r) as [w1 r1] eqn:Hiter. cbn [fst snd] in *.
  assert (done w1 = true) as Hd1 by (destruct (select e w); [done|..]; apply Hit).
  rewrite run_done by done. cbn [fst snd].
  rewrite Hd1 in Hit.
  destruct (select e w); [done|..]; destruct Hit as [Hsince _];
    rewrite Hsince; cbn; auto 10.
Qed.

End WorkerClaims.

Lemma worker_heartbeat_status_witness :
  List.filter Worker.is_heartbeat
    (Worker.since Probe.worker
       (Worker.iteration (Probe.tick 1 None) Probe.worker Probe.registry).1)
  = [Worker.EvUpdateTTL Lifecycle.checkID "out" HealthWarning]
  ∧ Registry.checks
      (Worker.iteration (Probe.tick 1 None) Probe.worker Probe.registry).2
    !! Lifecycle.checkID
    = Some (AgentCheck.mk Lifecycle.checkID "alive" HealthWarning "out"
              "_nomad-executor-a1-web-web-v1").
Proof.
  destruct (worker_heartbeat_status (H := Sample.externals)
              (Probe.tick 1 None) Probe.worker Probe.registry eq_refl)
    as [Ht Hr].
  split; [exact Ht|]. rewrite Hr. vm_compute. reflexivity.
Defined.

Lemma worker_timeout_heartbeat_passing_witness :
  In (Worker.EvUpdateTTL Lifecycle.checkID "out" "passing")
     (Worker.since Probe.asleep
        (Worker.iteration Probe.late Probe.asleep Probe.registry).1).
Proof.
  apply (worker_timeout_heartbeat_passing (H := Sample.externals)
           Probe.late Probe.asleep Probe.registry); reflexivity.
Defined.

Lemma worker_final_heartbeat_witness :
  Worker.done Probe.asleep = false
  ∧ Worker.done
      (Worker.run [Probe.shutdown; Probe.tick 0 None] Probe.asleep Probe.registry).1
    = true
  ∧ Worker.probes
      (Worker.since Probe.asleep
         (Worker.run [Probe.shutdown; Probe.tick 0 None] Probe.asleep
            Probe.registry).1) = 1%nat
  ∧ Worker.heartbeats
      (Worker.since Probe.asleep
         (Worker.run [Probe.shutdown; Probe.tick 0 None] Probe.asleep
            Probe.registry).1) = 1%nat.
Proof.
  destruct (worker_final_heartbeat (H := Sample.externals)
              Probe.shutdown [Probe.tick 0 None] Probe.asleep Probe.registry)
    as (Hd & _ & Hp & Hh & _); try reflexivity; try discriminate.
  split; [reflexivity|]. split; [exact Hd|]. split; [exact Hp|exact Hh].
Defined.

(** ** commit and its callers *)

Section Commit.
Context `{Externals} `{MapRange}.

(** [commit] returns false only once shutdown has been signalled, and
    then leaves the client as it was. *)
Lemma commit_false pick (ops : operations.t) (c c' : ServiceClient.t) :
  commit pick ops c = Some (false, c') →
  ServiceClient.shutdownCh c = true ∧ c' = c.
Proof.
  unfold commit.
  destruct (bool_decide _), (ServiceClient.shutdownCh c), pick;
    intros [=]; by subst.
Qed.



End Commit.



(** ** Ownership *)

Section RegistryCalls.

Implicit Types (r : Registry.t).

Lemma same_foreign_refl r : same_foreign r r.
Proof. done. Qed.

Lemma same_foreign_trans r1 r2 r3 :
  same_foreign r1 r2 → same_foreign r2 r3 → same_foreign r1 r3.
Proof. intros [? ?] [? ?]. split; congruence. Qed.

Lemma no_foreign_check_same r0 r id :
  same_foreign r0 r → no_foreign_check r0 id → no_foreign_check r id.
Proof.
  intros [_ Hc] H0 ch Hch.
  destruct (isNomadService (AgentCheck.ServiceID ch)) eqn:Hown; [done|].
  assert (Registry.foreign_checks r !! id = Some ch) as Hf
    by (by apply map_lookup_filter_Some).
  rewrite Hc in Hf. apply map_lookup_filter_Some in Hf as [Hf _].
  apply H0 in Hf. congruence.
Qed.

Lemma receive_foreign call r : same_foreign r (Registry.receive call r).2.
Proof. done. Qed.

Lemma ServiceDeregister_foreign id r :
  isNomadService id = true →
  same_foreign r (Registry.ServiceDeregister id r).2.
Proof.
  intros Hown. unfold Registry.ServiceDeregister, Registry.receive.
  destruct (hd false (Registry.faults r)); [done|]. cbn.
  assert (Registry.foreign_services
            (Registry.set_services (delete id (Registry.services r)) r)
          = Registry.foreign_services r) as Hs.
  { unfold Registry.foreign_services. cbn.
    apply map_filter_delete_not. intros y _. cbn [fst snd]. congruence. }
  destruct (Registry.cascade r); split; try done.
  unfold Registry.foreign_checks. cbn [Registry.checks Registry.set_checks].
  apply map_filter_strong_ext. intros k ch. cbn [fst snd].
  rewrite map_lookup_filter_Some. cbn [fst snd]. split; [naive_solver|].
  intros [Hf Hk]. repeat split; try done. intros Heq. congruence.
Qed.

Lemma ServiceRegister_foreign s r :
  isNomadService (AgentServiceRegistration.ID s) = true →
  same_foreign r (Registry.ServiceRegister s r).2.
Proof.
  intros Hown. unfold Registry.ServiceRegister, Registry.receive.
  destruct (hd false (Registry.faults r)); [done|]. split; [|done].
  unfold Registry.foreign_services. cbn [Registry.services Registry.set_services].
  apply map_filter_insert_not. intros y. cbn [fst snd]. congruence.
Qed.

Lemma CheckDeregister_foreign id r :
  no_foreign_check r id →
  same_foreign r (Registry.CheckDeregister id r).2.
Proof.
  intros Hno. unfold Registry.CheckDeregister, Registry.receive.
  destruct (hd false (Registry.faults r)); [done|]. split; [done|].
  unfold Registry.foreign_checks. cbn [Registry.checks Registry.set_checks].
  apply map_filter_delete_not. intros y Hy. cbn [fst snd].
  rewrite (Hno y Hy). done.
Qed.

Lemma CheckRegister_foreign ch r :
  isNomadService (AgentCheckRegistration.ServiceID ch) = true →
  no_foreign_check r (AgentCheckRegistration.ID ch) →
  same_foreign r (Registry.CheckRegister ch r).2.
Proof.
  intros Hown Hno. unfold Registry.CheckRegister, Registry.receive.
  destruct (hd false (Registry.faults r)); [done|]. split; [done|].
  unfold Registry.foreign_checks. cbn [Registry.checks Registry.set_checks].
  apply map_filter_insert_not'; cbn [fst snd AgentCheck.ServiceID]; [congruence|].
  intros y Hy. rewrite (Hno y Hy). done.
Qed.

End RegistryCalls.

Section RegistryEffects.

Implicit Types (r : Registry.t).

Lemma only_permitted_refl r : only_permitted r r.
Proof. exists []. by rewrite app_nil_r. Qed.

Lemma only_permitted_step r0 r r' call :
  only_permitted r0 r →
  Registry.calls r' = (Registry.calls r ++ [call])%list →
  permitted r0 call →
  only_permitted r0 r'.
Proof.
  intros (new & Hnew & Hall) Hr' Hcall. exists (new ++ [call])%list.
  rewrite Hr', Hnew, <- app_assoc. split; [done|].
  apply Forall_app. split; [done|]. by constructor.
Qed.

Lemma ServiceDeregister_calls id r :
  Registry.calls (Registry.ServiceDeregister id r).2
    = (Registry.calls r ++ [Registry.CallServiceDeregister id])%list.
Proof.
  unfold Registry.ServiceDeregister, Registry.receive.
  by destruct (hd false (Registry.faults r)), (Registry.cascade r).
Qed.

Lemma ServiceRegister_calls s r :
  Registry.calls (Registry.ServiceRegister s r).2
    = (Registry.calls r ++ [Registry.CallServiceRegister s])%list.
Proof.
  unfold Registry.ServiceRegister, Registry.receive.
  by destruct (hd false (Registry.faults r)).
Qed.

Lemma CheckDeregister_calls id r :
  Registry.calls (Registry.CheckDeregister id r).2
    = (Registry.calls r ++ [Registry.CallCheckDeregister id])%list.
Proof.
  unfold Registry.CheckDeregister, Registry.receive.
  by destruct (hd false (Registry.faults r)).
Qed.

Lemma CheckRegister_calls ch r :
  Registry.calls (Registry.CheckRegister ch r).2
    = (Registry.calls r ++ [Registry.CallCheckRegister ch])%list.
Proof.
  unfold Registry.CheckRegister, Registry.receive.
  by destruct (hd false (Registry.faults r)).
Qed.

(** Deregistering a service removes it, if the call succeeds, and adds
    no service in any case. *)
Lemma ServiceDeregister_services id r k :
  let '(err, r') := Registry.ServiceDeregister id r in
  (Registry.services r !! k = None → Registry.services r' !! k = None)
  ∧ (err = None → Registry.services r' !! id = None).
Proof.
  unfold Registry.ServiceDeregister, Registry.receive.
  destruct (hd false (Registry.faults r)); [done|].
  assert (Registry.services r !! k = None →
          delete id (Registry.services r) !! k = None) as Hmono
    by (intros Hk; apply lookup_delete_None; auto).
  destruct (Registry.cascade r); cbn;
    (split; [exact Hmono|intros ?; apply lookup_delete_eq]).
Qed.

Lemma ServiceRegister_services s r k :
  AgentServiceRegistration.ID s ≠ k →
  Registry.services (Registry.ServiceRegister s r).2 !! k
    = Registry.services r !! k.
Proof.
  intros Hne. unfold Registry.ServiceRegister, Registry.receive.
  destruct (hd false (Registry.faults r)); [done|]. cbn.
  by rewrite lookup_insert_ne.
Qed.

Lemma CheckDeregister_services id r :
  Registry.services (Registry.CheckDeregister id r).2 = Registry.services r.
Proof.
  unfold Registry.CheckDeregister, Registry.receive.
  by destruct (hd false (Registry.faults r)).
Qed.

Lemma CheckRegister_services ch r :
  Registry.services (Registry.CheckRegister ch r).2 = Registry.services r.
Proof.
  unfold Registry.CheckRegister, Registry.receive.
  by destruct (hd false (Registry.faults r)).
Qed.

(** The list calls return the current entries and change none. *)
Lemma Services_spec r res r1 :
  Registry.Services r = (res, r1) →
  Registry.services r1 = Registry.services r
  ∧ Registry.checks r1 = Registry.checks r
  ∧ Registry.calls r1 = (Registry.calls r ++ [Registry.CallServices])%list
  ∧ ∀ consulServices, res = inl consulServices →
                      consulServices = Registry.services r.
Proof.
  unfold Registry.Services, Registry.receive.
  destruct (hd false (Registry.faults r)); intros [= <- <-]; split_and!; try done.
  by intros ? [= <-].
Qed.

Lemma Checks_spec r res r1 :
  Registry.Checks r = (res, r1) →
  Registry.services r1 = Registry.services r
  ∧ Registry.checks r1 = Registry.checks r
  ∧ Registry.calls r1 = (Registry.calls r ++ [Registry.CallChecks])%list
  ∧ ∀ consulChecks, res = inl consulChecks →
                    consulChecks = Registry.checks r.
Proof.
  unfold Registry.Checks, Registry.receive.
  destruct (hd false (Registry.faults r)); intros [= <- <-]; split_and!; try done.
  by intros ? [= <-].
Qed.

Lemma same_foreign_maps r r' :
  Registry.services r' = Registry.services r →
  Registry.checks r' = Registry.checks r →
  same_foreign r r'.
Proof.
  intros Hs Hc. unfold same_foreign, Registry.foreign_services,
    Registry.foreign_checks. by rewrite Hs, Hc.
Qed.

End RegistryEffects.

Section SyncSound.
Context `{Externals} `{MapRange}.

Implicit Types (r : Registry.t) (c : ServiceClient.t).

Lemma elem_of_range seed {V} (m : gmap string V) id v :
  (id, v) ∈ range seed m ↔ m !! id = Some v.
Proof. by rewrite range_perm, elem_of_map_to_list. Qed.

(** The stale-service sweep. *)
Lemma sync_deregServices_sound c l r0 r n err r' n' :
  same_foreign r0 r → only_permitted r0 r →
  sync_deregServices c l r n = (err, r', n') →
  same_foreign r0 r' ∧ only_permitted r0 r'
  ∧ (∀ k, Registry.services r !! k = None → Registry.services r' !! k = None)
  ∧ (err = None →
     ∀ id v, (id, v) ∈ l → ServiceClient.services c !! id = None →
             isNomadService id = true → Registry.services r' !! id = None).
Proof.
  revert r n. induction l as [|[id v] l IH]; intros r n Hf Hp Hrun.
  - cbn in Hrun. injection Hrun as <- <- <-.
    split; [done|]. split; [done|]. split; [done|].
    intros _ id v Hin. by apply elem_of_nil in Hin.
  - cbn [sync_deregServices] in Hrun.
    assert (∀ r1 n1, same_foreign r0 r1 → only_permitted r0 r1 →
              (∀ k, Registry.services r !! k = None → Registry.services r1 !! k = None) →
              (ServiceClient.services c !! id = None → isNomadService id = true →
               Registry.services r1 !! id = None) →
              sync_deregServices c l r1 n1 = (err, r', n') →
              same_foreign r0 r' ∧ only_permitted r0 r'
              ∧ (∀ k, Registry.services r !! k = None → Registry.services r' !! k = None)
              ∧ (err = None →
                 ∀ id' v', (id', v') ∈ (id, v) :: l →
                           ServiceClient.services c !! id' = None →
                           isNomadService id' = true →
                           Registry.services r' !! id' = None)) as Hrest.
    { intros r1 n1 Hf1 Hp1 Hmono Hgone Hrun1.
      destruct (IH r1 n1 Hf1 Hp1 Hrun1) as (Hf' & Hp' & Hmono' & Hgone').
      split; [done|]. split; [done|]. split; [by auto|].
      intros -> id' v' [[= -> ->]|Hin]%elem_of_cons Hunk Hown; [by auto|by eauto]. }
    destruct (ServiceClient.services c !! id) as [s|] eqn:Hknown.
    { apply (Hrest r n); try done. }
    destruct (isNomadService id) eqn:Hown; cbn [negb] in Hrun.
    2: { apply (Hrest r n); try done. }
    pose proof (ServiceDeregister_foreign id r Hown) as Hf1.
    pose proof (ServiceDeregister_calls id r) as Hc1.
    pose proof (ServiceDeregister_services id r) as Hs1.
    cbn [ServiceDeregister Registry.api] in Hrun.
    destruct (Registry.ServiceDeregister id r) as [[e|] r1]; cbn [snd] in *.
    + injection Hrun as <- <- <-. split_and!; try done.
      * by eapply same_foreign_trans.
      * by eapply only_permitted_step.
      * intros k. apply (Hs1 k).
    + apply (Hrest r1 (Go.int_add n 1)); try done.
      * by eapply same_foreign_trans.
      * by eapply only_permitted_step.
      * intros k. apply (Hs1 k).
      * intros _ _. by apply (Hs1 id).
Qed.

(** The missing-service install. *)
Lemma sync_regServices_sound consulServices l r0 r n err r' n' :
  same_foreign r0 r → only_permitted r0 r →
  (∀ id s, (id, s) ∈ l → isNomadService (AgentServiceRegistration.ID s) = true) →
  sync_regServices consulServices l r n = (err, r', n') →
  same_foreign r0 r' ∧ only_permitted r0 r'
  ∧ (∀ k, (∀ id s, (id, s) ∈ l → AgentServiceRegistration.ID s ≠ k) →
          Registry.services r' !! k = Registry.services r !! k).
Proof.
  revert r n. induction l as [|[id s] l IH]; intros r n Hf Hp Hown Hrun.
  - cbn in Hrun. by injection Hrun as <- <- <-.
  - cbn [sync_regServices] in Hrun.
    assert (∀ id' s', (id', s') ∈ l →
              isNomadService (AgentServiceRegistration.ID s') = true) as Hown'.
    { intros id' s' Hin. apply (Hown id' s'). by right. }
    destruct (consulServices !! id).
    { destruct (IH r n Hf Hp Hown' Hrun) as (Hf' & Hp' & Hk').
      split_and!; try done. intros k Hne. apply Hk'.
      intros id' s' Hin. apply (Hne id' s'). by right. }
    pose proof (ServiceRegister_foreign s r (Hown id s ltac:(left))) as Hf1.
    pose proof (ServiceRegister_calls s r) as Hc1.
    pose proof (ServiceRegister_services s r) as Hs1.
    cbn [ServiceRegister Registry.api] in Hrun.
    destruct (Registry.ServiceRegister s r) as [[e|] r1]; cbn [snd] in *.
    + injection Hrun as <- <- <-. split_and!.
      * by eapply same_foreign_trans.
      * by eapply only_permitted_step.
      * intros k Hne. apply Hs1, (Hne id s). by left.
    + destruct (IH r1 (Go.int_add n 1)) as (Hf' & Hp' & Hk'); try done.
      * by eapply same_foreign_trans.
      * by eapply only_permitted_step.
      * split_and!; try done. intros k Hne. rewrite Hk'.
        -- apply Hs1, (Hne id s). by left.
        -- intros id' s' Hin. apply (Hne id' s'). by right.
Qed.

(** The stale-check sweep. *)
Lemma sync_deregChecks_sound c l r0 r n err r' n' :
  same_foreign r0 r → only_permitted r0 r →
  (∀ id ch, (id, ch) ∈ l → Registry.checks r0 !! id = Some ch) →
  sync_deregChecks c l r n = (err, r', n') →
  same_foreign r0 r' ∧ only_permitted r0 r'
  ∧ Registry.services r' = Registry.services r.
Proof.
  revert r n. induction l as [|[id ch] l IH]; intros r n Hf Hp Hsnap Hrun.
  - cbn in Hrun. by injection Hrun as <- <- <-.
  - cbn [sync_deregChecks] in Hrun.
    assert (∀ id' ch', (id', ch') ∈ l → Registry.checks r0 !! id' = Some ch')
      as Hsnap' by (intros id' ch' Hin; apply Hsnap; by right).
    destruct (ServiceClient.checks c !! id); [by apply (IH r n)|].
    destruct (isNomadService (AgentCheck.ServiceID ch)) eqn:Hown;
      cbn [negb] in Hrun; [|by apply (IH r n)].
    assert (no_foreign_check r id) as Hno.
    { apply (no_foreign_check_same r0); [done|]. intros ch' Hch'.
      rewrite (Hsnap id ch) in Hch' by left. by injection Hch' as <-. }
    pose proof (CheckDeregister_foreign id r Hno) as Hf1.
    pose proof (CheckDeregister_calls id r) as Hc1.
    pose proof (CheckDeregister_services id r) as Hs1.
    assert (permitted r0 (Registry.CallCheckDeregister id)) as Hperm.
    { exists ch. split; [|done]. apply Hsnap. by left. }
    cbn [CheckDeregister Registry.api] in Hrun.
    destruct (Registry.CheckDeregister id r) as [[e|] r1]; cbn [snd] in *.
    + injection Hrun as <- <- <-. split_and!; try done.
      * by eapply same_foreign_trans.
      * by eapply only_permitted_step.
    + destruct (IH r1 (Go.int_add n 1)) as (Hf' & Hp' & Hk'); try done.
      * by eapply same_foreign_trans.
      * by eapply only_permitted_step.
      * split_and!; try done. congruence.
Qed.

(** The missing-check install. *)
Lemma sync_regChecks_sound l c r0 r n err c' r' n' :
  same_foreign r0 r → only_permitted r0 r →
  (∀ id ch, (id, ch) ∈ l →
     AgentCheckRegistration.ID ch = id
     ∧ isNomadService (AgentCheckRegistration.ServiceID ch) = true) →
  sync_regChecks (Registry.checks r0) l c r n = (err, c', r', n') →
  same_foreign r0 r' ∧ only_permitted r0 r'
  ∧ Registry.services r' = Registry.services r.
Proof.
  revert c r n. induction l as [|[id ch] l IH]; intros c r n Hf Hp Hown Hrun.
  - cbn in Hrun. by injection Hrun as <- <- <- <-.
  - cbn [sync_regChecks] in Hrun.
    assert (∀ id' ch', (id', ch') ∈ l →
              AgentCheckRegistration.ID ch' = id'
              ∧ isNomadService (AgentCheckRegistration.ServiceID ch') = true)
      as Hown' by (intros id' ch' Hin; apply Hown; by right).
    destruct (Registry.checks r0 !! id) eqn:Hsnap; [by apply (IH c r n)|].
    destruct (Hown id ch ltac:(left)) as [Hid Hsvc].
    assert (no_foreign_check r (AgentCheckRegistration.ID ch)) as Hno.
    { apply (no_foreign_check_same r0); [done|]. intros ch' Hch'.
      rewrite Hid in Hch'. congruence. }
    pose proof (CheckRegister_foreign ch r Hsvc Hno) as Hf1.
    pose proof (CheckRegister_calls ch r) as Hc1.
    pose proof (CheckRegister_services ch r) as Hs1.
    cbn [CheckRegister Registry.api] in Hrun.
    destruct (Registry.CheckRegister ch r) as [[e|] r1]; cbn [snd] in *.
    + injection Hrun as <- <- <- <-. split_and!; try done.
      * by eapply same_foreign_trans.
      * by eapply only_permitted_step.
    + destruct (IH (sync_startScript id c) r1 (Go.int_add n 1))
        as (Hf' & Hp' & Hk'); try done.
      * by eapply same_foreign_trans.
      * by eapply only_permitted_step.
      * split_and!; try done. congruence.
Qed.

End SyncSound.

Section SyncPermitted.
Context `{Externals} `{MapRange}.

Implicit Types (r : Registry.t) (c : ServiceClient.t).

Lemma sync_deregServices_permitted c l r0 r n :
  only_permitted r0 r →
  only_permitted r0 (sync_deregServices c l r n).1.2.
Proof.
  revert r n. induction l as [|[id v] l IH]; intros r n Hp; [done|].
  cbn [sync_deregServices].
  destruct (ServiceClient.services c !! id); [by apply IH|].
  destruct (isNomadService id) eqn:Hown; cbn [negb]; [|by apply IH].
  pose proof (ServiceDeregister_calls id r) as Hc1.
  cbn [ServiceDeregister Registry.api].
  destruct (Registry.ServiceDeregister id r) as [[e|] r1]; cbn [snd] in *.
  - by eapply only_permitted_step.
  - apply IH. by eapply only_permitted_step.
Qed.

Lemma sync_regServices_permitted consulServices l r0 r n :
  only_permitted r0 r →
  only_permitted r0 (sync_regServices consulServices l r n).1.2.
Proof.
  revert r n. induction l as [|[id s] l IH]; intros r n Hp; [done|].
  cbn [sync_regServices]. destruct (consulServices !! id); [by apply IH|].
  pose proof (ServiceRegister_calls s r) as Hc1.
  cbn [ServiceRegister Registry.api].
  destruct (Registry.ServiceRegister s r) as [[e|] r1]; cbn [snd] in *.
  - by eapply only_permitted_step.
  - apply IH. by eapply only_permitted_step.
Qed.

Lemma sync_deregChecks_permitted c l r0 r n :
  only_permitted r0 r →
  (∀ id ch, (id, ch) ∈ l → Registry.checks r0 !! id = Some ch) →
  only_permitted r0 (sync_deregChecks c l r n).1.2.
Proof.
  revert r n. induction l as [|[id ch] l IH]; intros r n Hp Hsnap; [done|].
  cbn [sync_deregChecks].
  assert (∀ id' ch', (id', ch') ∈ l → Registry.checks r0 !! id' = Some ch')
    as Hsnap' by (intros id' ch' Hin; apply Hsnap; by right).
  destruct (ServiceClient.checks c !! id); [by apply IH|].
  destruct (isNomadService (AgentCheck.ServiceID ch)) eqn:Hown;
    cbn [negb]; [|by apply IH].
  pose proof (CheckDeregister_calls id r) as Hc1.
  assert (permitted r0 (Registry.CallCheckDeregister id)) as Hperm.
  { exists ch. split; [|done]. apply Hsnap. by left. }
  cbn [CheckDeregister Registry.api].
  destruct (Registry.CheckDeregister id r) as [[e|] r1]; cbn [snd] in *.
  - by eapply only_permitted_step.
  - apply IH; [|done]. by eapply only_permitted_step.
Qed.

Lemma sync_regChecks_permitted consulChecks l c r0 r n :
  only_permitted r0 r →
  only_permitted r0 (sync_regChecks consulChecks l c r n).1.2.
Proof.
  revert c r n. induction l as [|[id ch] l IH]; intros c r n Hp; [done|].
  cbn [sync_regChecks]. destruct (consulChecks !! id); [by apply IH|].
  pose proof (CheckRegister_calls ch r) as Hc1.
  cbn [CheckRegister Registry.api].
  destruct (Registry.CheckRegister ch r) as [[e|] r1]; cbn [snd] in *.
  - by eapply only_permitted_step.
  - apply IH. by eapply only_permitted_step.
Qed.

(** The two list calls that open a pass. *)
Lemma sync_snapshots r res1 r1 res2 r2 :
  Registry.Services r = (res1, r1) →
  Registry.Checks r1 = (res2, r2) →
  same_foreign r r1 ∧ only_permitted r r1
  ∧ same_foreign r r2 ∧ only_permitted r r2
  ∧ Registry.services r2 = Registry.services r
  ∧ (∀ cs, res1 = inl cs → cs = Registry.services r2)
  ∧ (∀ cc, res2 = inl cc → cc = Registry.checks r).
Proof.
  intros (Hs1 & Hc1 & Hcalls1 & Hres1)%Services_spec
         (Hs2 & Hc2 & Hcalls2 & Hres2)%Checks_spec.
  assert (only_permitted r r1) as Hp1.
  { eapply only_permitted_step; [apply only_permitted_refl|done..]. }
  split_and!.
  - by apply same_foreign_maps.
  - done.
  - apply same_foreign_maps; congruence.
  - by eapply only_permitted_step.
  - congruence.
  - intros cs Hcs. rewrite (Hres1 cs Hcs). congruence.
  - intros cc Hcc. rewrite (Hres2 cc Hcc). congruence.
Qed.

(** A pass makes only permitted calls, whatever the store holds. *)
Lemma sync_permitted seed c r : only_permitted r (sync seed c r).2.
Proof.
  unfold sync. cbn [Services Checks Registry.api].
  destruct (Registry.Services r) as [res1 r1] eqn:H1.
  destruct (Registry.Checks r1) as [res2 r2] eqn:H2.
  destruct (sync_snapshots _ _ _ _ _ H1 H2)
    as (_ & Hp1 & _ & Hp2 & _ & Hcs & Hcc).
  destruct res1 as [consulServices|e]; [|done].
  cbv beta iota.
  destruct res2 as [consulChecks|e]; [|done].
  cbv beta iota.
  rewrite (Hcc _ eq_refl).
  pose proof (sync_deregServices_permitted c
                (range seed consulServices) r r2 0 Hp2) as Hp3.
  destruct (sync_deregServices _ _ _ _) as [[[e|] r3] sdereg]; [done|].
  pose proof (sync_regServices_permitted consulServices
                (range (seed + 1) (ServiceClient.services c)) r r3 0 Hp3) as Hp4.
  destruct (sync_regServices _ _ _ _) as [[[e|] r4] sreg]; [done|].
  pose proof (sync_deregChecks_permitted c
                (range (seed + 2) (Registry.checks r)) r r4 0 Hp4) as Hp5.
  destruct (sync_deregChecks _ _ _ _) as [[[e|] r5] cdereg].
  { apply Hp5. intros id ch Hin. by apply elem_of_range in Hin. }
  pose proof (sync_regChecks_permitted (Registry.checks r)
                (range (seed + 3) (ServiceClient.checks c)) c r r5 0) as Hp6.
  destruct (sync_regChecks _ _ _ _ _) as [[[[e|] c'] r6] creg];
    apply Hp6, Hp5; intros id ch Hin; by apply elem_of_range in Hin.
Qed.

(** A pass over a store that holds only the reconciler's own entries
    leaves the foreign entries of the registry as they are, and when
    it succeeds no prefixed service unknown to the store is left. *)
Lemma sync_sound seed c r :
  store_owned c →
  same_foreign r (sync seed c r).2
  ∧ ((sync seed c r).1.1 = None →
     ∀ id, isNomadService id = true →
           ServiceClient.services c !! id = None →
           Registry.services (sync seed c r).2 !! id = None).
Proof.
  intros [Hsvc Hchk]. unfold sync. cbn [Services Checks Registry.api].
  destruct (Registry.Services r) as [res1 r1] eqn:H1.
  destruct (Registry.Checks r1) as [res2 r2] eqn:H2.
  destruct (sync_snapshots _ _ _ _ _ H1 H2)
    as (Hf1 & Hp1 & Hf2 & Hp2 & Hs2 & Hcs & Hcc).
  destruct res1 as [consulServices|e]; [|done].
  cbv beta iota.
  destruct res2 as [consulChecks|e]; [|done].
  cbv beta iota.
  rewrite (Hcc _ eq_refl), (Hcs _ eq_refl).
  destruct (sync_deregServices _ _ _ _) as [[err3 r3] sdereg] eqn:Hph1.
  destruct (sync_deregServices_sound _ _ _ _ _ _ _ _ Hf2 Hp2 Hph1)
    as (Hf3 & Hp3 & Hmono3 & Hgone3).
  destruct err3 as [e|]; [done|].
  destruct (sync_regServices _ _ _ _) as [[err4 r4] sreg] eqn:Hph2.
  destruct (sync_regServices_sound _ _ _ _ _ _ _ _ Hf3 Hp3
              ltac:(intros id s Hin; apply elem_of_range in Hin;
                    destruct (Hsvc id s Hin) as [-> ?]; done) Hph2)
    as (Hf4 & Hp4 & Hsame4).
  destruct err4 as [e|]; [done|].
  destruct (sync_deregChecks _ _ _ _) as [[err5 r5] cdereg] eqn:Hph3.
  destruct (sync_deregChecks_sound _ _ _ _ _ _ _ _ Hf4 Hp4
              ltac:(intros id ch Hin; by apply elem_of_range in Hin) Hph3)
    as (Hf5 & Hp5 & Hsame5).
  destruct err5 as [e|]; [done|].
  destruct (sync_regChecks _ _ _ _ _) as [[[err6 c6] r6] creg] eqn:Hph4.
  destruct (sync_regChecks_sound _ _ _ _ _ _ _ _ _ Hf5 Hp5
              ltac:(intros id ch Hin; apply elem_of_range in Hin;
                    by apply Hchk) Hph4)
    as (Hf6 & Hp6 & Hsame6).
  assert (∀ id, isNomadService id = true →
            ServiceClient.services c !! id = None →
            Registry.services r6 !! id = None) as Hgone.
  { intros id Hown Hunk. rewrite Hsame6, Hsame5, Hsame4.
    - destruct (Registry.services r2 !! id) as [v|] eqn:Hin.
      + apply (Hgone3 eq_refl id v); [by apply elem_of_range|done..].
      + by apply Hmono3.
    - intros id' s Hin%elem_of_range.
      destruct (Hsvc id' s Hin) as [-> _]. congruence. }
  destruct err6; cbn [fst snd]; (split; [done|]); [done|]. intros _. exact Hgone.
Qed.

End SyncPermitted.

Section OwnedStore.
Context `{Externals} `{MapRange}.

Implicit Types (c : ServiceClient.t) (ops : operations.t).

Lemma last_reg_Some {A} (key : A → string) (l : list A) k a :
  last_reg key l k = Some a → a ∈ l ∧ key a = k.
Proof.
  unfold last_reg. intros (l' & Hl)%last_Some.
  assert (In a (List.filter (λ a, String.eqb (key a) k) l)) as Hin.
  { rewrite Hl. apply in_or_app. right. by left. }
  apply List.filter_In in Hin as [Hin Hk].
  split; [by apply list_elem_of_In|by apply String.eqb_eq].
Qed.

Lemma store_owned_maps c c' :
  ServiceClient.services c' = ServiceClient.services c →
  ServiceClient.checks c' = ServiceClient.checks c →
  store_owned c → store_owned c'.
Proof. unfold store_owned. by intros -> ->. Qed.

Lemma NewServiceClient_owned : client_owned NewServiceClient.
Proof.
  split; [|by constructor].
  split; intros id x; cbn; by rewrite lookup_empty.
Qed.

(** Merging one of the reconciler's own batches keeps the store its own. *)
Lemma merge_owned ops c : ops_owned ops → store_owned c → store_owned (merge ops c).
Proof.
  intros [Hos Hoc] [Hs Hc]. split.
  - intros id s. rewrite merge_services. case_decide; [done|].
    destruct (last_reg _ _ _) as [s'|] eqn:Hlast; [|by apply Hs].
    intros [= ->]. apply last_reg_Some in Hlast as [Hin <-].
    split; [done|]. by apply (proj1 (Forall_forall _ _) Hos).
  - intros id ch. rewrite merge_checks. case_decide; [done|].
    destruct (last_reg _ _ _) as [ch'|] eqn:Hlast; [|by apply Hc].
    intros [= ->]. apply last_reg_Some in Hlast as [Hin <-].
    split; [done|]. by apply (proj1 (Forall_forall _ _) Hoc).
Qed.

Lemma merge_opCh ops c : ServiceClient.opCh (merge ops c) = ServiceClient.opCh c.
Proof. pose proof (merge_settings ops c) as Hs. unfold settings in Hs. by simplify_eq. Qed.

Lemma commit_owned pick ops c b c' :
  ops_owned ops → client_owned c → commit pick ops c = Some (b, c') →
  client_owned c'.
Proof.
  intros Ho [Hst Hq]. unfold commit.
  destruct (bool_decide _), (ServiceClient.shutdownCh c), pick;
    intros [= <- <-]; try done;
    (split; [done|]); cbn; apply Forall_app; split; try done; by constructor.
Qed.

Lemma drain_owned l c :
  Forall ops_owned l → store_owned c →
  store_owned (foldl (λ c ops, merge ops c) c l)
  ∧ ServiceClient.opCh (foldl (λ c ops, merge ops c) c l) = ServiceClient.opCh c.
Proof.
  revert c. induction l as [|ops l IH]; intros c Hall Hst; [done|].
  apply Forall_cons in Hall as [Ho Hall]. cbn [foldl].
  destruct (IH (merge ops c) Hall (merge_owned _ _ Ho Hst)) as [Hst' Hq'].
  split; [done|]. by rewrite Hq', merge_opCh.
Qed.

Implicit Types (st : RunState.t Registry.t).

Lemma Run_body_owned w st st' :
  client_owned (RunState.client st) →
  Run_body w st = Some st' →
  client_owned (RunState.client st')
  ∧ same_foreign (RunState.remote st) (RunState.remote st').
Proof.
  intros [Hst Hq] Hbody. unfold Run_body in Hbody.
  destruct (RunState.pc st); try done.
  destruct (Run_wake w _ _) as [[c tm]|] eqn:Hwake; [|done].
  assert (client_owned c) as [Hst1 Hq1].
  { destruct w; cbn in Hwake.
    - destruct (RunState.retryTimer st); [|done]. by injection Hwake as <- <-.
    - destruct (ServiceClient.shutdownCh _); [|done]. by injection Hwake as <- <-.
    - destruct (ServiceClient.opCh (RunState.client st)) as [|ops rest] eqn:Hops;
        [done|]. injection Hwake as <- <-.
      apply Forall_cons in Hq as [Ho Hq].
      split; [by apply merge_owned|]. by rewrite merge_opCh. }
  pose proof (sync_frame (RunState.ranges st) c (RunState.remote st))
    as (Hset & Hsv & Hch).
  pose proof (sync_sound (RunState.ranges st) c (RunState.remote st) Hst1)
    as [Hf _].
  destruct (sync _ c _) as [[err c1] r1]. cbn [fst snd] in *.
  assert (client_owned c1) as Hown1.
  { split; [by eapply store_owned_maps|].
    assert (ServiceClient.opCh c1 = ServiceClient.opCh c) as ->
      by (unfold settings in Hset; congruence).
    done. }
  unfold Run_after_sync in Hbody.
  destruct err as [e|].
  - destruct (RunState.failures st =? 0); injection Hbody as <-; by split.
  - destruct (0 <? RunState.failures st); injection Hbody as <-; by split.
Qed.

Lemma Run_shutdownCheck_owned st st' :
  client_owned (RunState.client st) →
  Run_shutdownCheck st = Some st' →
  client_owned (RunState.client st')
  ∧ same_foreign (RunState.remote st) (RunState.remote st').
Proof.
  intros [Hst Hq] Hcheck. unfold Run_shutdownCheck in Hcheck.
  destruct (RunState.pc st); try done.
  destruct (ServiceClient.shutdownCh _).
  - destruct (ServiceClient.opCh (RunState.client st)) as [|ops rest] eqn:Hops.
    + injection Hcheck as <-. split; [|done]. split; [exact Hst|].
      cbn. by rewrite Hops.
    + injection Hcheck as <-. split; [|done]. cbn [RunState.client].
      destruct (drain_owned (ops :: rest)
                  (ServiceClient.set_opCh [] (RunState.client st)) Hq Hst)
        as [Hst' Hq'].
      split; [done|]. cbn [foldl] in Hq'. rewrite Hq'. by constructor.
  - by injection Hcheck as <-.
Qed.

End OwnedStore.

Section Producers.
Context `{Externals} `{MapRange}.

Implicit Types (c : ServiceClient.t) (ops : operations.t).

(** Every ID the scheme mints bears the prefix. *)
Lemma isNomadService_makeTaskServiceID allocID taskName service :
  isNomadService (makeTaskServiceID allocID taskName service) = true.
Proof. reflexivity. Qed.

Lemma isNomadService_makeAgentServiceID role service :
  isNomadService (makeAgentServiceID role service) = true.
Proof. reflexivity. Qed.

(** A registration carries the IDs the translator was given. *)
Lemma createCheckReg_ids serviceID checkID check host port reg check' :
  createCheckReg serviceID checkID check host port = (inl reg, check') →
  AgentCheckRegistration.ID reg = checkID
  ∧ AgentCheckRegistration.ServiceID reg = serviceID.
Proof.
  unfold createCheckReg.
  repeat (match goal with
          | |- context [if ?b then _ else _] => destruct b
          | |- context [match url_Parse ?p with _ => _ end] =>
              destruct (url_Parse p)
          end);
    intros [= <- <-]; done.
Qed.

Lemma ops_owned_add_regService s ops :
  isNomadService (AgentServiceRegistration.ID s) = true →
  ops_owned ops → ops_owned (operations.add_regService s ops).
Proof.
  intros Hs [Ho1 Ho2]. split; [|done]. apply Forall_app. split; [done|].
  by constructor.
Qed.

Lemma ops_owned_add_regCheck ch ops :
  isNomadService (AgentCheckRegistration.ServiceID ch) = true →
  ops_owned ops → ops_owned (operations.add_regCheck ch ops).
Proof.
  intros Hs [Ho1 Ho2]. split; [done|]. apply Forall_app. split; [done|].
  by constructor.
Qed.

Lemma serviceRegs_check_owned id serviceReg exec resources ops check :
  isNomadService id = true → ops_owned ops →
  ops_owned (serviceRegs_check id serviceReg exec resources ops check).1.2.
Proof.
  intros Hid Ho. unfold serviceRegs_check.
  assert (∀ ops', ops_owned ops' →
            ops_owned
              (let '(host, port) :=
                 if negb (String.eqb (ServiceCheck.PortLabel check) "")
                 then FindHostAndPortFor resources (ServiceCheck.PortLabel check)
                 else (AgentServiceRegistration.Address serviceReg,
                       AgentServiceRegistration.Port serviceReg) in
               match createCheckReg id (createCheckID id check) check host port with
               | (inr err, check) =>
                   (Some (ErrorfWrap "failed to add check %q: %v"
                            [ServiceCheck.Name check] err), ops', check)
               | (inl checkReg, check) =>
                   (None, operations.add_regCheck checkReg ops', check)
               end).1.2) as Hrest.
  { intros ops' Ho'.
    destruct (if negb _ then _ else _) as [host port].
    destruct (createCheckReg _ _ _ _ _) as [[reg|err] check'] eqn:Hreg; [|done].
    apply createCheckReg_ids in Hreg as [_ Hsid].
    apply ops_owned_add_regCheck; [congruence|done]. }
  destruct (String.eqb (ServiceCheck.Type_ check) ServiceCheckScript).
  - destruct exec as [exec|]; [|done]. by apply Hrest.
  - by apply Hrest.
Qed.

Lemma serviceRegs_checks_owned id serviceReg exec resources ops checks :
  isNomadService id = true → ops_owned ops →
  ops_owned (serviceRegs_checks id serviceReg exec resources ops checks).1.2.
Proof.
  intros Hid. revert ops. induction checks as [|check rest IH]; intros ops Ho; [done|].
  cbn [serviceRegs_checks].
  pose proof (serviceRegs_check_owned id serviceReg exec resources ops check Hid Ho)
    as Ho1.
  destruct (serviceRegs_check _ _ _ _ _ _) as [[[err|] ops1] check1]; [done|].
  pose proof (IH ops1 Ho1) as Ho2.
  by destruct (serviceRegs_checks _ _ _ _ _ _) as [[err ops2] rest2].
Qed.

Lemma serviceRegs_owned ops allocID service exec taskName resources :
  ops_owned ops →
  ops_owned (serviceRegs ops allocID service exec taskName resources).1.2.
Proof.
  intros Ho. unfold serviceRegs.
  destruct (FindHostAndPortFor _ _) as [host port].
  match goal with |- context [serviceRegs_checks ?id ?reg ?e ?res ?o ?cs] =>
    pose proof (serviceRegs_checks_owned id reg e res o cs
                  (isNomadService_makeTaskServiceID _ _ _)
                  (ops_owned_add_regService reg ops
                     (isNomadService_makeTaskServiceID allocID taskName service)
                     Ho)) as Ho1;
    destruct (serviceRegs_checks id reg e res o cs) as [[err ops1] checks1]
  end.
  done.
Qed.

Lemma RegisterTask_services_owned ops allocID exec taskName resources services :
  ops_owned ops →
  ops_owned (RegisterTask_services ops allocID exec taskName resources services).1.2.
Proof.
  revert ops. induction services as [|service rest IH]; intros ops Ho; [done|].
  cbn [RegisterTask_services].
  pose proof (serviceRegs_owned ops allocID service exec taskName resources Ho)
    as Ho1.
  destruct (serviceRegs _ _ _ _ _ _) as [[[err|] ops1] service1]; [done|].
  pose proof (IH ops1 Ho1) as Ho2.
  by destruct (RegisterTask_services _ _ _ _ _ _) as [[err ops2] rest2].
Qed.

Lemma operations_empty_owned : ops_owned operations.empty.
Proof. split; constructor. Qed.

(** What [RegisterTask] puts in the queue is the reconciler's own. *)
Lemma RegisterTask_owned pick allocID task exec c err c' task' :
  client_owned c →
  RegisterTask pick allocID task exec c = Some (err, c', task') →
  client_owned c'.
Proof.
  intros Hown. unfold RegisterTask.
  pose proof (RegisterTask_services_owned operations.empty allocID exec
                (Task.Name task) (Task.Resources_ task) (Task.Services task)
                operations_empty_owned) as Ho.
  destruct (RegisterTask_services _ _ _ _ _ _) as [[[e|] ops] services].
  - by intros [= <- <- <-].
  - destruct (commit pick ops c) as [[b c1]|] eqn:Hcommit; [|done].
    intros [= <- <- <-]. by eapply commit_owned.
Qed.

Lemma RemoveTask_ops_owned allocID task : ops_owned (RemoveTask_ops allocID task).
Proof.
  unfold RemoveTask_ops.
  assert (∀ services ops, ops_owned ops →
            ops_owned
              (foldl (λ ops service,
                 let id := makeTaskServiceID allocID (Task.Name task) service in
                 foldl (λ ops check,
                          operations.add_deregCheck (createCheckID id check) ops)
                       (operations.add_deregService id ops)
                       (Service.Checks service))
                 ops services)) as Hfold.
  { induction services as [|service rest IH]; intros ops Ho; [done|].
    cbn [foldl]. apply IH.
    generalize (Service.Checks service).
    assert (ops_owned
              (operations.add_deregService
                 (makeTaskServiceID allocID (Task.Name task) service) ops)) as Ho1
      by (by destruct Ho).
    revert Ho1. generalize (operations.add_deregService
                 (makeTaskServiceID allocID (Task.Name task) service) ops).
    intros ops1 Ho1 checks. revert ops1 Ho1.
    induction checks as [|check checks IHc]; intros ops1 Ho1; [done|].
    cbn [foldl]. apply IHc. by destruct Ho1. }
  apply Hfold, operations_empty_owned.
Qed.

Lemma RemoveTask_owned pick allocID task c c' :
  client_owned c → RemoveTask pick allocID task c = Some c' → client_owned c'.
Proof.
  intros Hown. unfold RemoveTask.
  destruct (commit _ _ c) as [[b c1]|] eqn:Hcommit; [|done].
  intros [= <-]. eapply commit_owned; [apply RemoveTask_ops_owned|done..].
Qed.

End Producers.

Section MoreProducers.
Context `{Externals} `{MapRange}.

Implicit Types (c : ServiceClient.t) (ops : operations.t).

Lemma ops_owned_regs ops ops' :
  operations.regServices ops' = operations.regServices ops →
  operations.regChecks ops' = operations.regChecks ops →
  ops_owned ops → ops_owned ops'.
Proof. unfold ops_owned. by intros -> ->. Qed.

Lemma ops_owned_add_script s ops :
  ops_owned ops → ops_owned (operations.add_script s ops).
Proof. by apply ops_owned_regs. Qed.

Lemma ops_owned_foldl {A} (g : operations.t → A → operations.t) l ops :
  (∀ ops a, ops_owned ops → ops_owned (g ops a)) →
  ops_owned ops → ops_owned (foldl g ops l).
Proof.
  intros Hg. revert ops. induction l as [|a l IH]; intros ops Ho; [done|].
  cbn [foldl]. by apply IH, Hg.
Qed.

(** Appending deregistrations keeps a batch the reconciler's own. *)
Ltac deregs_owned :=
  repeat (apply ops_owned_foldl;
          [intros ? [? ?] ?; by eapply ops_owned_regs|]).

(** *** RegisterAgent *)

Lemma RegisterAgent_check_owned id serviceReg service ops check :
  isNomadService id = true → ops_owned ops →
  ops_owned (RegisterAgent_check id serviceReg service ops check).1.2.
Proof.
  intros Hid Ho. unfold RegisterAgent_check.
  destruct (String.eqb (ServiceCheck.Type_ check) ServiceCheckScript); [done|].
  match goal with |- context [match ?a with inl _ => _ | inr _ => _ end] =>
    destruct a as [[checkHost checkPort]|err] end; [|done].
  destruct (createCheckReg _ _ _ _ _) as [[reg|err] check'] eqn:Hreg; [|done].
  apply createCheckReg_ids in Hreg as [_ Hsid].
  apply ops_owned_add_regCheck; [congruence|done].
Qed.

Lemma RegisterAgent_checks_owned id serviceReg service ops checks :
  isNomadService id = true → ops_owned ops →
  ops_owned (RegisterAgent_checks id serviceReg service ops checks).1.2.
Proof.
  intros Hid. revert ops. induction checks as [|check rest IH]; intros ops Ho; [done|].
  cbn [RegisterAgent_checks].
  pose proof (RegisterAgent_check_owned id serviceReg service ops check Hid Ho)
    as Ho1.
  destruct (RegisterAgent_check _ _ _ _ _) as [[[err|] ops1] check1]; [done|].
  pose proof (IH ops1 Ho1) as Ho2.
  by destruct (RegisterAgent_checks _ _ _ _ _) as [[err ops2] rest2].
Qed.

Lemma RegisterAgent_service_owned role ops service :
  ops_owned ops → ops_owned (RegisterAgent_service role ops service).1.2.
Proof.
  intros Ho. unfold RegisterAgent_service.
  destruct (net_SplitHostPort _) as [[host rawport]|err]; [|done].
  destruct (strconv_Atoi rawport) as [port|err]; [|done].
  match goal with |- context [RegisterAgent_checks ?id ?reg ?sv ?o ?cs] =>
    pose proof (RegisterAgent_checks_owned id reg sv o cs
                  (isNomadService_makeAgentServiceID role service)
                  (ops_owned_add_regService reg ops
                     (isNomadService_makeAgentServiceID role service) Ho)) as Ho1;
    destruct (RegisterAgent_checks id reg sv o cs) as [[err ops1] checks1]
  end.
  done.
Qed.

Lemma RegisterAgent_services_owned role ops services :
  ops_owned ops → ops_owned (RegisterAgent_services role ops services).1.2.
Proof.
  revert ops. induction services as [|service rest IH]; intros ops Ho; [done|].
  cbn [RegisterAgent_services].
  pose proof (RegisterAgent_service_owned role ops service Ho) as Ho1.
  destruct (RegisterAgent_service _ _ _) as [[[err|] ops1] service1]; [done|].
  pose proof (IH ops1 Ho1) as Ho2.
  by destruct (RegisterAgent_services _ _ _) as [[err ops2] rest2].
Qed.

Lemma record_agentServices_owned {A} (f : A → string) l c :
  client_owned c →
  client_owned
    (foldl (λ c a, ServiceClient.set_agentServices
                     (<[f a := ()]> (ServiceClient.agentServices c)) c) c l).
Proof. revert c. induction l as [|a l IH]; intros c Hown; [done|]. by apply IH. Qed.

Lemma record_agentChecks_owned {A} (f : A → string) l c :
  client_owned c →
  client_owned
    (foldl (λ c a, ServiceClient.set_agentChecks
                     (<[f a := ()]> (ServiceClient.agentChecks c)) c) c l).
Proof. revert c. induction l as [|a l IH]; intros c Hown; [done|]. by apply IH. Qed.

Lemma RegisterAgent_owned pick role services c err c' services' :
  client_owned c →
  RegisterAgent pick role services c = Some (err, c', services') →
  client_owned c'.
Proof.
  intros Hown. unfold RegisterAgent.
  pose proof (RegisterAgent_services_owned role operations.empty services
                operations_empty_owned) as Ho.
  destruct (RegisterAgent_services _ _ _) as [[[e|] ops] services1].
  - by intros [= <- <- <-].
  - destruct (commit pick ops c) as [[[] c1]|] eqn:Hcommit; [..|done];
      intros [= <- <- <-].
    + apply record_agentChecks_owned, record_agentServices_owned.
      by eapply commit_owned.
    + by eapply commit_owned.
Qed.

(** *** Shutdown *)

Lemma Shutdown_signal_owned seed pick c c' :
  client_owned c → Shutdown_signal seed pick c = Some c' → client_owned c'.
Proof.
  intros Hown. unfold Shutdown_signal.
  destruct (ServiceClient.shutdownCh c); [by intros [= <-]|].
  destruct (commit _ _ c) as [[b c1]|] eqn:Hcommit; [|done].
  intros [= <-].
  assert (client_owned c1) as Hown1; [|done].
  eapply commit_owned; [|done..].
  deregs_owned. apply operations_empty_owned.
Qed.

(** *** UpdateTask *)

Lemma UpdateTask_existingIDs_prefixed allocID existing id s :
  UpdateTask_existingIDs allocID existing !! id = Some s →
  isNomadService id = true.
Proof.
  unfold UpdateTask_existingIDs.
  rewrite (foldl_insert_lookup
             (makeTaskServiceID allocID (Task.Name existing))).
  destruct (last_reg _ _ _) as [s'|] eqn:Hlast; [|by rewrite lookup_empty].
  intros _. apply last_reg_Some in Hlast as [_ <-]. reflexivity.
Qed.

Lemma UpdateTask_checks_owned existingID existingSvc exec resources ops
    existingChecks checks :
  isNomadService existingID = true → ops_owned ops →
  ops_owned (UpdateTask_checks existingID existingSvc exec resources ops
               existingChecks checks).1.1.2.
Proof.
  intros Hid. revert ops existingChecks.
  induction checks as [|check rest IH]; intros ops existingChecks Ho; [done|].
  cbn [UpdateTask_checks].
  destruct (existingChecks !! _).
  { pose proof (IH ops (delete (createCheckID existingID check) existingChecks) Ho)
      as Ho1.
    by destruct (UpdateTask_checks _ _ _ _ _ _ _) as [[[err ops1] ec1] rest1]. }
  assert (∀ ops', ops_owned ops' →
            ops_owned
              (let '(host, port) :=
                 if negb (String.eqb (ServiceCheck.PortLabel check) "")
                 then FindHostAndPortFor resources (ServiceCheck.PortLabel check)
                 else FindHostAndPortFor resources (Service.PortLabel existingSvc) in
               match createCheckReg existingID (createCheckID existingID check)
                       check host port with
               | (inr err, check) =>
                   (Some err, ops', existingChecks, check :: rest)
               | (inl checkReg, check) =>
                   let '(err, ops, existingChecks, rest) :=
                     UpdateTask_checks existingID existingSvc exec resources
                       (operations.add_regCheck checkReg ops') existingChecks rest in
                   (err, ops, existingChecks, check :: rest)
               end).1.1.2) as Hrest.
  { intros ops' Ho'.
    destruct (if negb _ then _ else _) as [host port].
    destruct (createCheckReg _ _ _ _ _) as [[reg|err] check'] eqn:Hreg; [|done].
    apply createCheckReg_ids in Hreg as [_ Hsid].
    assert (isNomadService (AgentCheckRegistration.ServiceID reg) = true)
      as Hown by congruence.
    pose proof (IH (operations.add_regCheck reg ops') existingChecks
                  (ops_owned_add_regCheck reg ops' Hown Ho')) as Ho1.
    by destruct (UpdateTask_checks _ _ _ _ _ _ _) as [[[err ops1] ec1] rest1]. }
  destruct (String.eqb (ServiceCheck.Type_ check) ServiceCheckScript).
  - destruct exec as [exec|]; [|done]. by apply Hrest, ops_owned_add_script.
  - by apply Hrest.
Qed.

Lemma UpdateTask_existing_owned seed exec resources l ops newIDs news :
  (∀ id s, (id, s) ∈ l → isNomadService id = true) →
  ops_owned ops →
  ops_owned (UpdateTask_existing seed exec resources l ops newIDs news).1.1.2.
Proof.
  revert seed ops newIDs news.
  induction l as [|[existingID existingSvc] l IH];
    intros seed ops newIDs news Hl Ho; [done|].
  assert (∀ id s, (id, s) ∈ l → isNomadService id = true) as Hl'
    by (intros id s Hin; apply (Hl id s); by right).
  assert (isNomadService existingID = true) as Hid
    by (apply (Hl existingID existingSvc); by left).
  cbn [UpdateTask_existing].
  destruct (newIDs !! existingID ≫= _) as [[i newSvc]|].
  - pose proof (UpdateTask_checks_owned existingID existingSvc exec resources ops
                  (foldl (λ m check, <[createCheckID existingID check := ()]> m)
                         ∅ (Service.Checks existingSvc))
                  (Service.Checks newSvc) Hid Ho) as Ho1.
    destruct (UpdateTask_checks _ _ _ _ _ _ _) as [[[[err|] ops1] ec1] checks1];
      [done|].
    apply IH; [done|]. by deregs_owned.
  - apply IH; [done|].
    apply ops_owned_foldl; [intros ? ? ?; by eapply ops_owned_regs|].
    by eapply ops_owned_regs.
Qed.

Lemma UpdateTask_remaining_owned allocID exec taskName resources l ops news :
  ops_owned ops →
  ops_owned (UpdateTask_remaining allocID exec taskName resources l ops news).1.2.
Proof.
  revert ops news. induction l as [|[id i] l IH]; intros ops news Ho; [done|].
  cbn [UpdateTask_remaining].
  destruct (news !! i) as [newSvc|]; [|by apply IH].
  pose proof (serviceRegs_owned ops allocID newSvc exec taskName resources Ho)
    as Ho1.
  destruct (serviceRegs _ _ _ _ _ _) as [[[err|] ops1] newSvc1]; [done|].
  by apply IH.
Qed.

Lemma UpdateTask_owned seed pick allocID existing newTask exec c err c' task' :
  client_owned c →
  UpdateTask seed pick allocID existing newTask exec c = Some (err, c', task') →
  client_owned c'.
Proof.
  intros Hown. unfold UpdateTask.
  pose proof (UpdateTask_existing_owned (S seed) exec (Task.Resources_ newTask)
                (range seed (UpdateTask_existingIDs allocID existing))
                operations.empty (UpdateTask_newIDs allocID newTask)
                (Task.Services newTask)) as Ho1.
  destruct (UpdateTask_existing _ _ _ _ _ _ _) as [[[[e|] ops1] newIDs1] news1].
  { by intros [= <- <- <-]. }
  cbn [fst snd] in Ho1.
  match goal with |- context [UpdateTask_remaining ?a ?e ?n ?r ?l ?o ?ns] =>
    pose proof (UpdateTask_remaining_owned a e n r l o ns) as Ho2;
    destruct (UpdateTask_remaining a e n r l o ns) as [[[e2|] ops2] news2]
  end.
  { by intros [= <- <- <-]. }
  destruct (commit pick ops2 c) as [[b c1]|] eqn:Hcommit; [|done].
  intros [= <- <- <-]. eapply commit_owned; [|done..].
  apply Ho2, Ho1; [|apply operations_empty_owned].
  intros id s Hin%elem_of_range. by eapply UpdateTask_existingIDs_prefixed.
Qed.

End MoreProducers.

Section Interleaving.
Context `{Externals} `{MapRange}.

Implicit Types (st : RunState.t Registry.t).

Lemma Run_event_owned ev st st' :
  client_owned (RunState.client st) →
  Run_event ev st = Some st' →
  client_owned (RunState.client st')
  ∧ same_foreign (RunState.remote st) (RunState.remote st').
Proof.
  intros Hown Hstep.
  destruct ev as [pick role services|pick allocID task exec
                 |seed pick allocID existing newTask exec
                 |pick allocID task|seed pick|w|]; cbn in Hstep.
  - destruct (RegisterAgent _ _ _ _) as [[[err c'] services']|] eqn:Hcall; [|done].
    injection Hstep as <-. split; [|done]. by eapply RegisterAgent_owned.
  - destruct (RegisterTask _ _ _ _ _) as [[[err c'] task']|] eqn:Hcall; [|done].
    injection Hstep as <-. split; [|done]. by eapply RegisterTask_owned.
  - destruct (UpdateTask _ _ _ _ _ _ _) as [[[err c'] task']|] eqn:Hcall; [|done].
    injection Hstep as <-. split; [|done]. by eapply UpdateTask_owned.
  - destruct (RemoveTask _ _ _ _) as [c'|] eqn:Hcall; [|done].
    injection Hstep as <-. split; [|done]. by eapply RemoveTask_owned.
  - destruct (Shutdown_signal _ _ _) as [c'|] eqn:Hcall; [|done].
    injection Hstep as <-. split; [|done]. by eapply Shutdown_signal_owned.
  - by eapply Run_body_owned.
  - by eapply Run_shutdownCheck_owned.
Qed.

(** However the loop and its callers interleave, the store stays the
    reconciler's own and the foreign entries of the registry stay as
    they are. *)
Lemma Run_events_foreign evs st st' :
  client_owned (RunState.client st) →
  Run_events evs st = Some st' →
  client_owned (RunState.client st')
  ∧ same_foreign (RunState.remote st) (RunState.remote st').
Proof.
  revert st. induction evs as [|ev evs IH]; intros st Hown Hrun.
  - injection Hrun as <-. by split.
  - cbn [Run_events] in Hrun.
    destruct (Run_event ev st) as [st1|] eqn:Hstep; [|done].
    destruct (Run_event_owned _ _ _ Hown Hstep) as [Hown1 Hf1].
    destruct (IH st1 Hown1 Hrun) as [Hown' Hf'].
    split; [done|]. by eapply same_foreign_trans.
Qed.

End Interleaving.

Section Ownership.
Context `{Externals} `{MapRange}.

(** C1: a reconcile pass issues no deregistration for a service whose
    ID lacks the prefix nor for a check registered under a service
    whose ID lacks it, whatever the registry and the store hold.
    Hence, with a store that holds what the identifier scheme mints,
    one pass leaves the registry's entries without the prefix
    (services by ID, checks by owning service) exactly as they were,
    and so does any run of the loop from a new client, however it
    interleaves with the callers' operations and with shutdown.  And a
    pass that succeeds leaves no prefixed service in the registry that
    the store does not hold. *)
Theorem sync_ownership_safety :
  (∀ seed (c : ServiceClient.t) (r : Registry.t),
     only_permitted r (sync seed c r).2)
  ∧ (∀ seed (c : ServiceClient.t) (r : Registry.t),
       store_owned c → same_foreign r (sync seed c r).2)
  ∧ (∀ evs (r : Registry.t) (st' : RunState.t Registry.t),
       Run_events evs (Run_start NewServiceClient r) = Some st' →
       same_foreign r (RunState.remote st'))
  ∧ (∀ seed (c : ServiceClient.t) (r : Registry.t) id,
       store_owned c →
       (sync seed c r).1.1 = None →
       isNomadService id = true →
       ServiceClient.services c !! id = None →
       Registry.services (sync seed c r).2 !! id = None).
Proof.
  split_and!.
  - apply sync_permitted.
  - intros seed c r Hown. by apply sync_sound.
  - intros evs r st' Hrun.
    by apply (Run_events_foreign evs (Run_start NewServiceClient r) st'
                NewServiceClient_owned).
  - intros seed c r id Hown Hok Hid Hunk.
    by apply (sync_sound seed c r Hown).
Qed.

End Ownership.

Lemma sync_ownership_safety_witness :
  Registry.services Gating.after !! "svc-foo" = Some Gating.foo
  ∧ Registry.services Gating.after !! "_nomad-executor-a1-web-http" = None.
Proof.
  destruct (sync_ownership_safety (H := Sample.externals) (H0 := Sample.order))
    as (_ & Hsame & _ & Hgone).
  split.
  - destruct (Hsame 0%nat NewServiceClient Gating.registry) as [Hs _].
    { apply NewServiceClient_owned. }
    assert (Registry.foreign_services Gating.registry !! "svc-foo"
            = Some Gating.foo) as Hfoo.
    { apply map_lookup_filter_Some. split; by vm_compute. }
    rewrite <- Hs in Hfoo. by apply map_lookup_filter_Some in Hfoo as [Hfoo _].
  - apply Hgone.
    + apply NewServiceClient_owned.
    + by vm_compute.
    + reflexivity.
    + reflexivity.
Defined.

(** * Further properties *)

(** ** The identifier scheme *)

Lemma append_cons (x : ascii) (a b : string) :
  String x a ++ b = String x (a ++ b).
Proof. reflexivity. Qed.

Lemma append_assoc (a b c : string) : (a ++ b) ++ c = a ++ b ++ c.
Proof. induction a as [|x a IH]; [done|]. rewrite !append_cons. by f_equal. Qed.

Lemma append_nil_r (a : string) : a ++ "" = a.
Proof. induction a as [|x a IH]; [done|]. rewrite append_cons. by f_equal. Qed.

Lemma prefix_append (pre s : string) :
  String.prefix pre s = true ↔ ∃ rest, s = pre ++ rest.
Proof.
  revert s. induction pre as [|a pre IH]; intros s.
  - split; [|by destruct s]. intros _. by exists s.
  - destruct s as [|b s]; cbn [String.prefix].
    + split; [done|]. by intros [rest ?].
    + destruct (ascii_dec a b) as [->|Hne].
      * rewrite IH. split; intros [rest Hrest]; exists rest;
          rewrite ?append_cons in *; congruence.
      * split; [done|]. intros [rest Hrest]. rewrite append_cons in Hrest.
        congruence.
Qed.

Lemma concat_empty_cons (a : string) (l : list string) :
  String.concat "" (a :: l) = a ++ String.concat "" l.
Proof.
  destruct l as [|b l]; [by rewrite append_nil_r|].
  change (String.concat "" (a :: b :: l)) with (a ++ "" ++ String.concat "" (b :: l)).
  done.
Qed.

(** [strings.Join] puts the separator in front of every part but the
    first. *)
Lemma Join_cons (x : string) (l : list string) (sep : string) :
  Go.Join (x :: l) sep = x ++ String.concat "" (map (String.append sep) l).
Proof.
  unfold Go.Join. revert x. induction l as [|y l IH]; intros x.
  - cbn. by rewrite append_nil_r.
  - change (String.concat sep (x :: y :: l))
      with (x ++ sep ++ String.concat sep (y :: l)).
    rewrite IH. cbn [map]. by rewrite concat_empty_cons, append_assoc.
Qed.

(** X1: the ownership test accepts exactly the IDs that start with the
    six characters [_nomad], whatever follows; the empty ID is not
    accepted, and every ID that the scheme mints for a task or an agent
    service is. *)
Theorem isNomadService_prefix (id : string) :
  (isNomadService id = true ↔ ∃ rest, id = "_nomad" ++ rest)
  ∧ isNomadService "" = false
  ∧ (∀ allocID taskName service,
       isNomadService (makeTaskServiceID allocID taskName service) = true)
  ∧ (∀ role service, isNomadService (makeAgentServiceID role service) = true).
Proof.
  split_and!; [|reflexivity..].
  unfold isNomadService, Go.HasPrefix, nomadServicePrefix.
  apply prefix_append.
Qed.

(** The shape of the IDs the scheme mints.  A task service ID is the
    prefix, the word executor, the allocation ID, the task name, the
    service name and the tags, an agent service ID the prefix, the role,
    the service name and the tags, each part after the first with a dash
    in front; and the ownership test accepts both. *)
Lemma minted_ids_shape (allocID taskName role : string) (service : Service.t) :
  makeTaskServiceID allocID taskName service =
    "_nomad-executor-" ++ allocID ++ "-" ++ taskName ++ "-" ++ Service.Name service
      ++ String.concat "" (map (String.append "-") (Service.Tags service))
  ∧ makeAgentServiceID role service =
      "_nomad-" ++ role ++ "-" ++ Service.Name service
        ++ String.concat "" (map (String.append "-") (Service.Tags service))
  ∧ isNomadService (makeTaskServiceID allocID taskName service) = true
  ∧ isNomadService (makeAgentServiceID role service) = true.
Proof.
  split_and!; [| |reflexivity..].
  - unfold makeTaskServiceID. cbn [app]. rewrite Join_cons. cbn [map].
    rewrite !concat_empty_cons, !append_assoc. reflexivity.
  - unfold makeAgentServiceID. cbn [app]. rewrite Join_cons. cbn [map].
    rewrite !concat_empty_cons, !append_assoc. reflexivity.
Qed.

(** X2: the scheme does not keep its fields apart.  A dash inside a
    field reads like the separator: a service named [n-t] gets the ID of
    the service named [n] whose first tag is [t], and an allocation
    [a-b] with task [t] the ID of allocation [a] with task [b-t]. *)
Theorem makeTaskServiceID_collides (allocID taskName name tag other : string)
    (tags : list string) (portLabel portLabel' : string)
    (checks checks' : list ServiceCheck.t) (service : Service.t) :
  makeTaskServiceID allocID taskName
      (Service.mk (name ++ "-" ++ tag) portLabel tags checks)
    = makeTaskServiceID allocID taskName
        (Service.mk name portLabel' (tag :: tags) checks')
  ∧ makeTaskServiceID (allocID ++ "-" ++ other) taskName service
    = makeTaskServiceID allocID (other ++ "-" ++ taskName) service
  ∧ makeAgentServiceID (allocID ++ "-" ++ other) service
    = makeAgentServiceID allocID
        (Service.mk (other ++ "-" ++ Service.Name service)
           (Service.PortLabel service) (Service.Tags service)
           (Service.Checks service)).
Proof.
  assert (∀ a t s, makeTaskServiceID a t s =
            "_nomad-executor-" ++ a ++ "-" ++ t ++ "-" ++ Service.Name s
              ++ String.concat "" (map (String.append "-") (Service.Tags s))) as Ht
    by (intros a t s; apply (minted_ids_shape a t "" s)).
  assert (∀ r s, makeAgentServiceID r s =
            "_nomad-" ++ r ++ "-" ++ Service.Name s
              ++ String.concat "" (map (String.append "-") (Service.Tags s))) as Ha
    by (intros r s; apply (minted_ids_shape "" "" r s)).
  split_and!.
  - rewrite !Ht. cbn [Service.Name Service.Tags map].
    by rewrite concat_empty_cons, !append_assoc.
  - rewrite !Ht, !append_assoc. done.
  - rewrite !Ha. cbn [Service.Name Service.Tags]. by rewrite !append_assoc.
Qed.

Section TranslatorResults.
Context `{Externals}.

(** X3: when the translator fails.  It returns an error, and no
    registration, in two cases only: the check's type is none of http,
    tcp and script, and the error names the type; or the check is an
    HTTP check whose path the URL parser rejects, and the error is the
    parser's own, not wrapped. *)
Theorem createCheckReg_errors serviceID checkID check host port :
  let result := (createCheckReg serviceID checkID check host port).1 in
  (∀ err, result = inr err ↔
     (ServiceCheck.Type_ check = ServiceCheckHTTP
      ∧ url_Parse (ServiceCheck.Path check) = inr err)
     ∨ (ServiceCheck.Type_ check ≠ ServiceCheckHTTP
        ∧ ServiceCheck.Type_ check ≠ ServiceCheckTCP
        ∧ ServiceCheck.Type_ check ≠ ServiceCheckScript
        ∧ err = Errorf "check type %+q not valid" [ServiceCheck.Type_ check])).
Proof.
  cbn zeta. intros err. unfold createCheckReg.
  destruct (String.eqb_spec (ServiceCheck.Type_ check) ServiceCheckHTTP) as [Hh|Hh].
  { assert (ServiceCheck.Path
              (if String.eqb (ServiceCheck.Protocol check) ""
               then ServiceCheck.set_Protocol "http" check else check)
            = ServiceCheck.Path check) as ->
      by (by destruct (String.eqb _ _)).
    destruct (url_Parse (ServiceCheck.Path check)) as [rel|e]; cbn [fst].
    - split; [done|]. intros [[_ [=]]|(? & _)]; done.
    - split.
      + intros [= ->]. by left.
      + intros [[_ [= ->]]|(? & _)]; done. }
  destruct (String.eqb_spec (ServiceCheck.Type_ check) ServiceCheckTCP) as [Ht|Ht].
  { cbn [fst]. split; [done|]. intros [[? _]|(_ & ? & _)]; done. }
  destruct (String.eqb_spec (ServiceCheck.Type_ check) ServiceCheckScript) as [Hs|Hs].
  { cbn [fst]. split; [done|]. intros [[? _]|(_ & _ & ? & _)]; done. }
  cbn [fst]. split.
  - intros [= <-]. right. done.
  - intros [[? _]|(_ & _ & _ & ->)]; done.
Qed.

(** X4: what a registration carries.  Every registration the translator
    returns has the check ID and service ID it was given, the check's
    name and initial status, and the renderings of its timeout and
    interval; and it is of one kind, given by the check's type: an HTTP
    check has the URL and neither TCP endpoint nor TTL, a TCP check the
    endpoint [host:port] and neither URL nor TTL, a script check the TTL
    and neither URL nor endpoint. *)
Theorem createCheckReg_one_kind serviceID checkID check host port reg :
  (createCheckReg serviceID checkID check host port).1 = inl reg →
  AgentCheckRegistration.ID reg = checkID
  ∧ AgentCheckRegistration.ServiceID reg = serviceID
  ∧ AgentCheckRegistration.Name reg = ServiceCheck.Name check
  ∧ AgentCheckRegistration.Status reg = ServiceCheck.InitialStatus check
  ∧ AgentCheckRegistration.Timeout reg
    = Go.Duration_String (ServiceCheck.Timeout check)
  ∧ AgentCheckRegistration.Interval reg
    = Go.Duration_String (ServiceCheck.Interval check)
  ∧ ((ServiceCheck.Type_ check = ServiceCheckHTTP
      ∧ (∃ relative,
           url_Parse (ServiceCheck.Path check) = inl relative
           ∧ AgentCheckRegistration.HTTP reg =
               url_ResolveReference
                 (if String.eqb (ServiceCheck.Protocol check) ""
                  then "http" else ServiceCheck.Protocol check)
                 (Go.JoinHostPort host (Go.Itoa port)) relative)
      ∧ AgentCheckRegistration.TCP reg = ""
      ∧ AgentCheckRegistration.TTL reg = "")
     ∨ (ServiceCheck.Type_ check = ServiceCheckTCP
        ∧ AgentCheckRegistration.HTTP reg = ""
        ∧ AgentCheckRegistration.TCP reg = Go.JoinHostPort host (Go.Itoa port)
        ∧ AgentCheckRegistration.TTL reg = "")
     ∨ (ServiceCheck.Type_ check = ServiceCheckScript
        ∧ AgentCheckRegistration.HTTP reg = ""
        ∧ AgentCheckRegistration.TCP reg = ""
        ∧ AgentCheckRegistration.TTL reg =
            Go.Duration_String
              (Go.Duration_add (ServiceCheck.Interval check) ttlCheckBuffer))).
Proof.
  unfold createCheckReg.
  destruct (String.eqb_spec (ServiceCheck.Type_ check) ServiceCheckHTTP) as [Hh|Hh].
  { destruct (String.eqb (ServiceCheck.Protocol check) "") eqn:Hp;
      cbn [ServiceCheck.Path ServiceCheck.set_Protocol ServiceCheck.Protocol];
      destruct (url_Parse (ServiceCheck.Path check)) as [rel|e] eqn:Hparse;
      cbn [fst]; intros [= <-]; split_and!; try done;
      left; split_and!; try done; by exists rel. }
  destruct (String.eqb_spec (ServiceCheck.Type_ check) ServiceCheckTCP) as [Ht|Ht].
  { cbn [fst]. intros [= <-]. split_and!; try done. right; left. done. }
  destruct (String.eqb_spec (ServiceCheck.Type_ check) ServiceCheckScript) as [Hs|Hs].
  { cbn [fst]. intros [= <-]. split_and!; try done. right; right. done. }
  done.
Qed.

End TranslatorResults.

Section MergeLaws.
Context `{Externals}.

Implicit Types (c : ServiceClient.t) (ops : operations.t).

(** Two clients are the same when their fields are. *)
Lemma ServiceClient_eq c c' :
  ServiceClient.logger c' = ServiceClient.logger c →
  settings c' = settings c →
  ServiceClient.services c' = ServiceClient.services c →
  ServiceClient.checks c' = ServiceClient.checks c →
  ServiceClient.scripts c' = ServiceClient.scripts c →
  ServiceClient.runningScripts c' = ServiceClient.runningScripts c →
  c' = c.
Proof.
  destruct c, c'. unfold settings. cbn. intros. by simplify_eq.
Qed.

Lemma merge_deregChecks_logger l c :
  ServiceClient.logger (merge_deregChecks l c) = ServiceClient.logger c.
Proof.
  unfold merge_deregChecks. revert c. induction l as [|a l IH]; intros c; [done|].
  cbn [foldl]. rewrite IH. unfold deregCheck.
  by destruct (ServiceClient.runningScripts c !! a).
Qed.

Lemma merge_logger ops c :
  ServiceClient.logger (merge ops c) = ServiceClient.logger c.
Proof.
  unfold merge. rewrite merge_deregChecks_logger, merge_deregServices_eq,
    merge_scripts_eq, merge_regChecks_eq, merge_regServices_eq. done.
Qed.

(** X5: merging a batch a second time changes nothing. *)
Theorem merge_idempotent ops c : merge ops (merge ops c) = merge ops c.
Proof.
  apply ServiceClient_eq.
  - apply merge_logger.
  - apply merge_settings.
  - apply map_eq. intros k. rewrite !merge_services.
    case_decide; [done|]. by destruct (last_reg _ _ _).
  - apply map_eq. intros k. rewrite !merge_checks.
    case_decide; [done|]. by destruct (last_reg _ _ _).
  - apply map_eq. intros k. rewrite !merge_scripts_lookup, !merge_runningScripts.
    destruct (decide (k ∈ operations.deregChecks ops)) as [Hin|Hnin].
    + destruct (ServiceClient.runningScripts c !! k) as [h|] eqn:Hh.
      * rewrite !decide_True; [done|..]; split; try done; by eexists.
      * rewrite !decide_False; [by destruct (last_reg _ _ _)|..];
          intros [_ [? ?]]; done.
    + rewrite !decide_False by naive_solver. by destruct (last_reg _ _ _).
  - apply map_eq. intros k. rewrite !merge_runningScripts.
    case_decide; [|done]. by destruct (ServiceClient.runningScripts c !! k).
Qed.

(** X6: removing what is not there.  A batch that registers nothing and
    deregisters only services and checks the store does not hold, none
    of them with a script handle, leaves the client exactly as it was. *)
Theorem merge_unknown_deregistrations ops c :
  operations.regServices ops = [] →
  operations.regChecks ops = [] →
  operations.scripts ops = [] →
  (∀ id, id ∈ operations.deregServices ops → ServiceClient.services c !! id = None) →
  (∀ id, id ∈ operations.deregChecks ops →
         ServiceClient.checks c !! id = None
         ∧ ServiceClient.runningScripts c !! id = None) →
  merge ops c = c.
Proof.
  intros Hrs Hrc Hsc Hds Hdc. apply ServiceClient_eq.
  - apply merge_logger.
  - apply merge_settings.
  - apply map_eq. intros k. rewrite merge_services, Hrs.
    case_decide as Hin; [by rewrite Hds|done].
  - apply map_eq. intros k. rewrite merge_checks, Hrc.
    case_decide as Hin; [|done]. by destruct (Hdc k Hin) as [-> _].
  - apply map_eq. intros k. rewrite merge_scripts_lookup, Hsc.
    case_decide as Hin; [|done]. destruct Hin as [Hin [h Hh]].
    destruct (Hdc k Hin) as [_ Hnone]. congruence.
  - apply map_eq. intros k. rewrite merge_runningScripts.
    case_decide as Hin; [|done]. by destruct (Hdc k Hin) as [_ ->].
Qed.

End MergeLaws.

(** ** What a pass installs and what it leaves *)

Section RegistryCallEffects.

Implicit Types (r : Registry.t).

(** The effect of each mutating call on the two maps of the registry. *)
Lemma ServiceRegister_effect s r err r' :
  Registry.ServiceRegister s r = (err, r') →
  Registry.checks r' = Registry.checks r
  ∧ Registry.cascade r' = Registry.cascade r
  ∧ match err with
    | None =>
        Registry.services r' =
          <[AgentServiceRegistration.ID s :=
              AgentService.mk (AgentServiceRegistration.ID s)
                (AgentServiceRegistration.Name s) (AgentServiceRegistration.Tags s)
                (AgentServiceRegistration.Port s)
                (AgentServiceRegistration.Address s)]> (Registry.services r)
    | Some _ => Registry.services r' = Registry.services r
    end.
Proof.
  unfold Registry.ServiceRegister, Registry.receive.
  destruct (hd false (Registry.faults r)); by intros [= <- <-].
Qed.

Lemma ServiceDeregister_effect id r err r' :
  Registry.ServiceDeregister id r = (err, r') →
  Registry.cascade r' = Registry.cascade r
  ∧ (∀ k, k ≠ id → Registry.services r' !! k = Registry.services r !! k)
  ∧ (∀ k v, Registry.checks r' !! k = Some v → Registry.checks r !! k = Some v)
  ∧ (∀ k v, Registry.checks r !! k = Some v →
            Registry.cascade r = false ∨ AgentCheck.ServiceID v ≠ id →
            Registry.checks r' !! k = Some v).
Proof.
  unfold Registry.ServiceDeregister, Registry.receive.
  destruct (hd false (Registry.faults r)); [by intros [= <- <-]|].
  cbn. destruct (Registry.cascade r) eqn:Hc; intros [= <- <-]; cbn; rewrite ?Hc.
  - split_and!; [done|..].
    + intros k Hne. by apply lookup_delete_ne.
    + intros k v. rewrite map_lookup_filter_Some. by intros [? _].
    + intros k v Hk [?|Hne]; [done|]. by apply map_lookup_filter_Some.
  - split_and!; try done. intros k Hne. by apply lookup_delete_ne.
Qed.

Lemma CheckRegister_effect ch r err r' :
  Registry.CheckRegister ch r = (err, r') →
  Registry.services r' = Registry.services r
  ∧ Registry.cascade r' = Registry.cascade r
  ∧ match err with
    | None =>
        Registry.checks r' =
          <[AgentCheckRegistration.ID ch :=
              AgentCheck.mk (AgentCheckRegistration.ID ch)
                (AgentCheckRegistration.Name ch) (AgentCheckRegistration.Status ch)
                "" (AgentCheckRegistration.ServiceID ch)]> (Registry.checks r)
    | Some _ => Registry.checks r' = Registry.checks r
    end.
Proof.
  unfold Registry.CheckRegister, Registry.receive.
  destruct (hd false (Registry.faults r)); by intros [= <- <-].
Qed.

Lemma CheckDeregister_effect id r err r' :
  Registry.CheckDeregister id r = (err, r') →
  Registry.services r' = Registry.services r
  ∧ Registry.cascade r' = Registry.cascade r
  ∧ match err with
    | None => Registry.checks r' = delete id (Registry.checks r)
    | Some _ => Registry.checks r' = Registry.checks r
    end.
Proof.
  unfold Registry.CheckDeregister, Registry.receive.
  destruct (hd false (Registry.faults r)); by intros [= <- <-].
Qed.

End RegistryCallEffects.

Section SyncEffects.
Context `{Externals} `{MapRange}.

Implicit Types (r : Registry.t) (c : ServiceClient.t).

(** The stale-service sweep leaves the services the store holds, and
    the checks that do not hang on a service it removes. *)
Lemma sync_deregServices_keeps c l r n err r' n' :
  sync_deregServices c l r n = (err, r', n') →
  Registry.cascade r' = Registry.cascade r
  ∧ (∀ k, is_Some (ServiceClient.services c !! k) →
          Registry.services r' !! k = Registry.services r !! k)
  ∧ (∀ k v, Registry.checks r' !! k = Some v → Registry.checks r !! k = Some v)
  ∧ (∀ k v, Registry.checks r !! k = Some v →
            Registry.cascade r = false
            ∨ is_Some (ServiceClient.services c !! AgentCheck.ServiceID v)
            ∨ isNomadService (AgentCheck.ServiceID v) = false →
            Registry.checks r' !! k = Some v).
Proof.
  revert r n. induction l as [|[id v] l IH]; intros r n Hrun.
  - cbn in Hrun. by injection Hrun as <- <- <-.
  - cbn [sync_deregServices] in Hrun.
    destruct (ServiceClient.services c !! id) as [s|] eqn:Hknown; [by apply IH in Hrun|].
    destruct (isNomadService id) eqn:Hown; cbn [negb] in Hrun; [|by apply IH in Hrun].
    cbn [ServiceDeregister Registry.api] in Hrun.
    destruct (Registry.ServiceDeregister id r) as [e r1] eqn:Hcall.
    apply ServiceDeregister_effect in Hcall as (Hc1 & Hs1 & Hsub1 & Hkeep1).
    assert (∀ k, is_Some (ServiceClient.services c !! k) → k ≠ id) as Hne.
    { intros k [s Hs] ->. congruence. }
    assert (∀ k w, Registry.checks r !! k = Some w →
              Registry.cascade r = false
              ∨ is_Some (ServiceClient.services c !! AgentCheck.ServiceID w)
              ∨ isNomadService (AgentCheck.ServiceID w) = false →
              Registry.checks r1 !! k = Some w) as Hkeep1'.
    { intros k w Hk Hcond. apply Hkeep1; [done|].
      destruct Hcond as [?|[Hin|Hf]];
        [by left|right; by apply Hne|right; intros Heq; congruence]. }
    destruct e as [e|].
    + injection Hrun as <- <- <-. split_and!; auto.
    + apply IH in Hrun as (Hc & Hs & Hsub & Hkeep). split_and!.
      * congruence.
      * intros k Hk. rewrite Hs by done. auto.
      * auto.
      * intros k w Hk Hcond. apply Hkeep; [by apply Hkeep1'|].
        by rewrite Hc1.
Qed.

(** The missing-service install writes the entries it registers and no
    other, and touches no check. *)
Lemma sync_regServices_installs (m : gmap string AgentServiceRegistration.t)
    consulServices l r n err r' n' :
  (∀ id s, (id, s) ∈ l → m !! id = Some s ∧ AgentServiceRegistration.ID s = id) →
  sync_regServices consulServices l r n = (err, r', n') →
  Registry.checks r' = Registry.checks r
  ∧ Registry.cascade r' = Registry.cascade r
  ∧ (∀ k, k ∉ l.*1 → Registry.services r' !! k = Registry.services r !! k)
  ∧ (∀ k, is_Some (consulServices !! k) →
          Registry.services r' !! k = Registry.services r !! k)
  ∧ (err = None →
     ∀ k s, (k, s) ∈ l → consulServices !! k = None →
            Registry.services r' !! k =
              Some (AgentService.mk k (AgentServiceRegistration.Name s)
                      (AgentServiceRegistration.Tags s)
                      (AgentServiceRegistration.Port s)
                      (AgentServiceRegistration.Address s))).
Proof.
  revert r n. induction l as [|[id s0] l IH]; intros r n Hl Hrun.
  - cbn in Hrun. injection Hrun as <- <- <-. split_and!; try done.
    intros _ k s Hin. by apply elem_of_nil in Hin.
  - cbn [sync_regServices] in Hrun.
    assert (∀ id s, (id, s) ∈ l →
              m !! id = Some s ∧ AgentServiceRegistration.ID s = id) as Hl'
      by (intros id' s' Hin; apply Hl; by right).
    destruct (Hl id s0 ltac:(left)) as [Hm0 Hid0].
    assert (∀ k s, (k, s) ∈ (id, s0) :: l →
              (k, s) ∈ l ∨ (k = id ∧ s = s0 ∧ k ∉ l.*1)) as Hcases.
    { intros k s Hin. destruct (decide (k ∈ l.*1)) as [Hk|Hk].
      - left. apply list_elem_of_fmap in Hk as ([k' s'] & Heq & Hin').
        cbn [fst] in Heq. subst k'. destruct (Hl' _ _ Hin') as [Hm' _].
        destruct (Hl _ _ Hin) as [Hm _]. by simplify_eq.
      - apply elem_of_cons in Hin as [[= -> ->]|Hin]; [by right|].
        exfalso. apply Hk. apply list_elem_of_fmap. by exists (k, s). }
    destruct (consulServices !! id) eqn:Hsnap.
    { destruct (IH r n Hl' Hrun) as (Hc & Hca & Hout & Hin & Hnew).
      split_and!; try done.
      - intros k Hk. apply Hout. intros Hk'. apply Hk. cbn. by right.
      - intros -> k s Hks Hnone.
        destruct (Hcases k s Hks) as [Hin'|(-> & -> & Hk)]; [by apply Hnew|].
        congruence. }
    cbn [ServiceRegister Registry.api] in Hrun.
    destruct (Registry.ServiceRegister s0 r) as [e r1] eqn:Hcall.
    apply ServiceRegister_effect in Hcall as (Hc1 & Hca1 & Hs1).
    rewrite Hid0 in Hs1.
    destruct e as [e|].
    + injection Hrun as <- <- <-. split_and!; try done; intros; by rewrite Hs1.
    + destruct (IH r1 _ Hl' Hrun) as (Hc & Hca & Hout & Hin & Hnew).
      split_and!.
      * congruence.
      * congruence.
      * intros k Hk. rewrite Hout, Hs1.
        -- apply lookup_insert_ne. intros ->. apply Hk. cbn. by left.
        -- intros Hk'. apply Hk. cbn. by right.
      * intros k Hk. rewrite Hin, Hs1 by done.
        apply lookup_insert_ne. intros ->. rewrite Hsnap in Hk. by destruct Hk.
      * intros -> k s Hks Hnone.
        destruct (Hcases k s Hks) as [Hin'|(-> & -> & Hk)]; [by apply Hnew|].
        rewrite Hout, Hs1 by done. apply lookup_insert_eq.
Qed.

(** The stale-check sweep touches no service, removes only checks the
    store does not hold, and, when it succeeds, leaves none of the
    checks it was to remove. *)
Lemma sync_deregChecks_effect c l r n err r' n' :
  sync_deregChecks c l r n = (err, r', n') →
  Registry.services r' = Registry.services r
  ∧ (∀ k, is_Some (ServiceClient.checks c !! k) →
          Registry.checks r' !! k = Registry.checks r !! k)
  ∧ (∀ k v, Registry.checks r' !! k = Some v → Registry.checks r !! k = Some v)
  ∧ (err = None →
     ∀ k v, (k, v) ∈ l → ServiceClient.checks c !! k = None →
            isNomadService (AgentCheck.ServiceID v) = true →
            Registry.checks r' !! k = None).
Proof.
  revert r n. induction l as [|[id w] l IH]; intros r n Hrun.
  - cbn in Hrun. injection Hrun as <- <- <-. split_and!; try done.
    intros _ k v Hin. by apply elem_of_nil in Hin.
  - cbn [sync_deregChecks] in Hrun.
    assert (∀ r1 n1,
              Registry.services r1 = Registry.services r →
              (∀ k, is_Some (ServiceClient.checks c !! k) →
                    Registry.checks r1 !! k = Registry.checks r !! k) →
              (∀ k v, Registry.checks r1 !! k = Some v →
                      Registry.checks r !! k = Some v) →
              (ServiceClient.checks c !! id = None →
               isNomadService (AgentCheck.ServiceID w) = true →
               Registry.checks r1 !! id = None) →
              sync_deregChecks c l r1 n1 = (err, r', n') →
              Registry.services r' = Registry.services r
              ∧ (∀ k, is_Some (ServiceClient.checks c !! k) →
                      Registry.checks r' !! k = Registry.checks r !! k)
              ∧ (∀ k v, Registry.checks r' !! k = Some v →
                        Registry.checks r !! k = Some v)
              ∧ (err = None →
                 ∀ k v, (k, v) ∈ (id, w) :: l → ServiceClient.checks c !! k = None →
                        isNomadService (AgentCheck.ServiceID v) = true →
                        Registry.checks r' !! k = None)) as Hrest.
    { intros r1 n1 Hs1 Hk1 Hsub1 Hgone1 Hrun1.
      destruct (IH r1 n1 Hrun1) as (Hs & Hk & Hsub & Hgone).
      split_and!.
      - congruence.
      - intros k Hin. rewrite Hk by done. auto.
      - auto.
      - intros -> k v [[= -> ->]|Hin]%elem_of_cons Hunk Hown; [|by eauto].
        destruct (Registry.checks r' !! id) as [v'|] eqn:Hv'; [|done].
        apply Hsub in Hv'. rewrite Hgone1 in Hv'; done. }
    destruct (ServiceClient.checks c !! id) as [ch|] eqn:Hknown.
    { by apply (Hrest r n). }
    destruct (isNomadService (AgentCheck.ServiceID w)) eqn:Hown;
      cbn [negb] in Hrun; [|by apply (Hrest r n)].
    cbn [CheckDeregister Registry.api] in Hrun.
    destruct (Registry.CheckDeregister id r) as [e r1] eqn:Hcall.
    apply CheckDeregister_effect in Hcall as (Hs1 & _ & Hc1).
    destruct e as [e|].
    + injection Hrun as <- <- <-. rewrite Hc1. split_and!; done.
    + apply (Hrest r1 (Go.int_add n 1)); try done.
      * intros k [ch Hch]. rewrite Hc1. apply lookup_delete_ne. congruence.
      * intros k v. rewrite Hc1. rewrite lookup_delete_Some. by intros [_ ?].
      * intros _ _. rewrite Hc1. apply lookup_delete_eq.
Qed.

(** The missing-check install touches no service, writes the checks it
    registers and no other. *)
Lemma sync_regChecks_installs (m : gmap string AgentCheckRegistration.t)
    consulChecks l c r n err c' r' n' :
  (∀ id ch, (id, ch) ∈ l → m !! id = Some ch ∧ AgentCheckRegistration.ID ch = id) →
  sync_regChecks consulChecks l c r n = (err, c', r', n') →
  Registry.services r' = Registry.services r
  ∧ (∀ k, k ∉ l.*1 → Registry.checks r' !! k = Registry.checks r !! k)
  ∧ (∀ k, is_Some (consulChecks !! k) →
          Registry.checks r' !! k = Registry.checks r !! k)
  ∧ (err = None →
     ∀ k ch, (k, ch) ∈ l → consulChecks !! k = None →
             Registry.checks r' !! k =
               Some (AgentCheck.mk k (AgentCheckRegistration.Name ch)
                       (AgentCheckRegistration.Status ch) ""
                       (AgentCheckRegistration.ServiceID ch))).
Proof.
  revert c r n. induction l as [|[id ch0] l IH]; intros c r n Hl Hrun.
  - cbn in Hrun. injection Hrun as <- <- <- <-. split_and!; try done.
    intros _ k s Hin. by apply elem_of_nil in Hin.
  - cbn [sync_regChecks] in Hrun.
    assert (∀ id ch, (id, ch) ∈ l →
              m !! id = Some ch ∧ AgentCheckRegistration.ID ch = id) as Hl'
      by (intros id' s' Hin; apply Hl; by right).
    destruct (Hl id ch0 ltac:(left)) as [Hm0 Hid0].
    assert (∀ k ch, (k, ch) ∈ (id, ch0) :: l →
              (k, ch) ∈ l ∨ (k = id ∧ ch = ch0 ∧ k ∉ l.*1)) as Hcases.
    { intros k s Hin. destruct (decide (k ∈ l.*1)) as [Hk|Hk].
      - left. apply list_elem_of_fmap in Hk as ([k' s'] & Heq & Hin').
        cbn [fst] in Heq. subst k'. destruct (Hl' _ _ Hin') as [Hm' _].
        destruct (Hl _ _ Hin) as [Hm _]. by simplify_eq.
      - apply elem_of_cons in Hin as [[= -> ->]|Hin]; [by right|].
        exfalso. apply Hk. apply list_elem_of_fmap. by exists (k, s). }
    destruct (consulChecks !! id) eqn:Hsnap.
    { destruct (IH c r n Hl' Hrun) as (Hs & Hout & Hin & Hnew).
      split_and!; try done.
      - intros k Hk. apply Hout. intros Hk'. apply Hk. cbn. by right.
      - intros -> k s Hks Hnone.
        destruct (Hcases k s Hks) as [Hin'|(-> & -> & Hk)]; [by apply Hnew|].
        congruence. }
    cbn [CheckRegister Registry.api] in Hrun.
    destruct (Registry.CheckRegister ch0 r) as [e r1] eqn:Hcall.
    apply CheckRegister_effect in Hcall as (Hs1 & _ & Hc1).
    rewrite Hid0 in Hc1.
    destruct e as [e|].
    + injection Hrun as <- <- <- <-. split_and!; try done; intros; by rewrite Hc1.
    + destruct (IH _ r1 _ Hl' Hrun) as (Hs & Hout & Hin & Hnew).
      split_and!.
      * congruence.
      * intros k Hk. rewrite Hout, Hc1.
        -- apply lookup_insert_ne. intros ->. apply Hk. cbn. by left.
        -- intros Hk'. apply Hk. cbn. by right.
      * intros k Hk. rewrite Hin, Hc1 by done.
        apply lookup_insert_ne. intros ->. rewrite Hsnap in Hk. by destruct Hk.
      * intros -> k s Hks Hnone.
        destruct (Hcases k s Hks) as [Hin'|(-> & -> & Hk)]; [by apply Hnew|].
        rewrite Hout, Hc1 by done. apply lookup_insert_eq.
Qed.

(** The phases of a pass over the in-memory registry, one after the
    other. *)
Lemma sync_phases seed c r :
  ∃ res1 r1 res2 r2,
    Registry.Services r = (res1, r1) ∧ Registry.Checks r1 = (res2, r2)
    ∧ Registry.services r2 = Registry.services r
    ∧ Registry.checks r2 = Registry.checks r
    ∧ Registry.cascade r2 = Registry.cascade r
    ∧ match res1, res2 with
      | inl consulServices, inl consulChecks =>
          consulServices = Registry.services r
          ∧ consulChecks = Registry.checks r
          ∧ ∃ err3 r3 n3,
              sync_deregServices c (range seed (Registry.services r)) r2 0
                = (err3, r3, n3)
              ∧ match err3 with
                | Some e => sync seed c r = (Some e, c, r3)
                | None =>
                  ∃ err4 r4 n4,
                    sync_regServices (Registry.services r)
                      (range (seed + 1) (ServiceClient.services c)) r3 0
                      = (err4, r4, n4)
                    ∧ match err4 with
                      | Some e => sync seed c r = (Some e, c, r4)
                      | None =>
                        ∃ err5 r5 n5,
                          sync_deregChecks c (range (seed + 2) (Registry.checks r)) r4 0
                            = (err5, r5, n5)
                          ∧ match err5 with
                            | Some e => sync seed c r = (Some e, c, r5)
                            | None =>
                              ∃ err6 c6 r6 n6,
                                sync_regChecks (Registry.checks r)
                                  (range (seed + 3) (ServiceClient.checks c)) c r5 0
                                  = (err6, c6, r6, n6)
                                ∧ (sync seed c r).1.1 = err6
                                ∧ (sync seed c r).2 = r6
                                ∧ ServiceClient.runningScripts (sync seed c r).1.2
                                  = ServiceClient.runningScripts c6
                                ∧ ServiceClient.scripts (sync seed c r).1.2
                                  = ServiceClient.scripts c6
                            end
                      end
                end
      | _, _ => (sync seed c r).1.1 ≠ None
      end.
Proof.
  unfold sync. cbn [Services Checks Registry.api].
  destruct (Registry.Services r) as [res1 r1] eqn:H1.
  destruct (Registry.Checks r1) as [res2 r2] eqn:H2.
  exists res1, r1, res2, r2. split; [done|]. split; [done|].
  pose proof H1 as (Hs1 & Hc1 & _ & Hres1)%Services_spec.
  pose proof H2 as (Hs2 & Hc2 & _ & Hres2)%Checks_spec.
  assert (Registry.cascade r2 = Registry.cascade r) as Hca.
  { unfold Registry.Services, Registry.Checks, Registry.receive in H1, H2.
    destruct (hd false (Registry.faults r)), (hd false (Registry.faults r1));
      by simplify_eq. }
  split; [congruence|]. split; [congruence|]. split; [done|].
  destruct res1 as [consulServices|e1]; [|by destruct res2].
  destruct res2 as [consulChecks|e2]; [|done].
  rewrite (Hres1 _ eq_refl), (Hres2 _ eq_refl), Hc1.
  split; [done|]. split; [done|].
  destruct (sync_deregServices _ _ _ _) as [[err3 r3] n3]. eexists _, _, _.
  split; [done|]. destruct err3 as [e|]; [done|].
  destruct (sync_regServices _ _ _ _) as [[err4 r4] n4]. eexists _, _, _.
  split; [done|]. destruct err4 as [e|]; [done|].
  destruct (sync_deregChecks _ _ _ _) as [[err5 r5] n5]. eexists _, _, _.
  split; [done|]. destruct err5 as [e|]; [done|].
  destruct (sync_regChecks _ _ _ _ _) as [[[err6 c6] r6] n6]. eexists _, _, _, _.
  split; [done|]. by destruct err6.
Qed.

Lemma sync_regServices_checks consulServices l r n :
  Registry.checks (sync_regServices consulServices l r n).1.2 = Registry.checks r.
Proof.
  revert r n. induction l as [|[k s] l IH]; intros r n; [done|].
  cbn [sync_regServices]. destruct (consulServices !! k); [apply IH|].
  cbn [ServiceRegister Registry.api].
  destruct (Registry.ServiceRegister s r) as [e r1] eqn:Hcall.
  apply ServiceRegister_effect in Hcall as (Hc1 & _).
  destruct e; [done|]. by rewrite IH.
Qed.

Lemma sync_regChecks_services consulChecks l c r n :
  Registry.services (sync_regChecks consulChecks l c r n).1.2
    = Registry.services r.
Proof.
  revert c r n. induction l as [|[id ch] l IH]; intros c r n; [done|].
  cbn [sync_regChecks]. destruct (consulChecks !! id); [apply IH|].
  cbn [CheckRegister Registry.api].
  destruct (Registry.CheckRegister ch r) as [e r1] eqn:Hcall.
  apply CheckRegister_effect in Hcall as (Hs1 & _).
  destruct e; [done|]. by rewrite IH.
Qed.

(** A pass that succeeds has run its four loops to the end. *)
Lemma sync_ok_phases seed c r :
  (sync seed c r).1.1 = None →
  ∃ r2 r3 n3 r4 n4 r5 n5 c6 n6,
    Registry.services r2 = Registry.services r
    ∧ Registry.checks r2 = Registry.checks r
    ∧ Registry.cascade r2 = Registry.cascade r
    ∧ sync_deregServices c (range seed (Registry.services r)) r2 0 = (None, r3, n3)
    ∧ sync_regServices (Registry.services r)
        (range (seed + 1) (ServiceClient.services c)) r3 0 = (None, r4, n4)
    ∧ sync_deregChecks c (range (seed + 2) (Registry.checks r)) r4 0 = (None, r5, n5)
    ∧ sync_regChecks (Registry.checks r)
        (range (seed + 3) (ServiceClient.checks c)) c r5 0
      = (None, c6, (sync seed c r).2, n6)
    ∧ ServiceClient.runningScripts (sync seed c r).1.2
      = ServiceClient.runningScripts c6
    ∧ ServiceClient.scripts (sync seed c r).1.2 = ServiceClient.scripts c6.
Proof.
  intros Hok.
  destruct (sync_phases seed c r)
    as (res1 & r1 & res2 & r2 & _ & _ & Hs2 & Hc2 & Hca2 & Hrest).
  destruct res1 as [cs|e1]; [|by destruct res2].
  destruct res2 as [cc|e2]; [|done].
  destruct Hrest as (_ & _ & err3 & r3 & n3 & H3 & Hrest).
  destruct err3 as [e|]; [by rewrite Hrest in Hok|].
  destruct Hrest as (err4 & r4 & n4 & H4 & Hrest).
  destruct err4 as [e|]; [by rewrite Hrest in Hok|].
  destruct Hrest as (err5 & r5 & n5 & H5 & Hrest).
  destruct err5 as [e|]; [by rewrite Hrest in Hok|].
  destruct Hrest as (err6 & c6 & r6 & n6 & H6 & Herr & Hr & Hrun & Hscr).
  rewrite Hok in Herr. subst err6 r6.
  by exists r2, r3, n3, r4, n4, r5, n5, c6, n6.
Qed.

(** X7: what a successful pass does for the services of the store.
    With every service of the store filed under its own ID, after a
    pass that returns nil each of them is in the registry: one the
    registry did not list is there with the name, tags, port and
    address of its registration, and one the registry listed already
    is left as the registry had it, whatever the store says about it. *)
Theorem sync_installs_services seed c r id s :
  (∀ id s, ServiceClient.services c !! id = Some s →
           AgentServiceRegistration.ID s = id) →
  (sync seed c r).1.1 = None →
  ServiceClient.services c !! id = Some s →
  Registry.services (sync seed c r).2 !! id =
    match Registry.services r !! id with
    | Some listed => Some listed
    | None =>
        Some (AgentService.mk id (AgentServiceRegistration.Name s)
                (AgentServiceRegistration.Tags s) (AgentServiceRegistration.Port s)
                (AgentServiceRegistration.Address s))
    end.
Proof.
  intros Hfiled Hok Hs.
  destruct (sync_ok_phases seed c r Hok)
    as (r2 & r3 & n3 & r4 & n4 & r5 & n5 & c6 & n6
        & Hs2 & Hc2 & Hca2 & H3 & H4 & H5 & H6 & _).
  apply sync_deregServices_keeps in H3 as (_ & Hkeep3 & _).
  apply (sync_regServices_installs (ServiceClient.services c)) in H4
    as (_ & _ & _ & Hin4 & Hnew4).
  2: { intros id' s' Hin%elem_of_range. split; [done|]. by apply Hfiled. }
  apply sync_deregChecks_effect in H5 as (Hs5 & _).
  pose proof (sync_regChecks_services (Registry.checks r)
                (range (seed + 3) (ServiceClient.checks c)) c r5 0) as Hs6.
  rewrite H6 in Hs6. cbn [fst snd] in Hs6. rewrite Hs6, Hs5.
  destruct (Registry.services r !! id) as [listed|] eqn:Hlisted.
  - rewrite Hin4 by (by eexists). rewrite Hkeep3 by (by eexists). congruence.
  - apply (Hnew4 eq_refl); [by apply elem_of_range|done].
Qed.

(** X8: what a successful pass does for the checks of the store.  With
    every check of the store filed under its own ID, after a pass that
    returns nil a check of the store that the registry did not list is
    in the registry with the name, status and service of its
    registration; one the registry listed is not registered again, and
    is still there unless the registry dropped it together with its
    service: it stays when the registry does not cascade, when the
    store holds its service, or when its service is not the
    reconciler's. *)
Theorem sync_installs_checks seed c r id ch :
  (∀ id ch, ServiceClient.checks c !! id = Some ch →
            AgentCheckRegistration.ID ch = id) →
  (sync seed c r).1.1 = None →
  ServiceClient.checks c !! id = Some ch →
  match Registry.checks r !! id with
  | None =>
      Registry.checks (sync seed c r).2 !! id =
        Some (AgentCheck.mk id (AgentCheckRegistration.Name ch)
                (AgentCheckRegistration.Status ch) ""
                (AgentCheckRegistration.ServiceID ch))
  | Some listed =>
      (Registry.checks (sync seed c r).2 !! id = Some listed
       ∨ Registry.checks (sync seed c r).2 !! id = None)
      ∧ (Registry.cascade r = false
         ∨ is_Some (ServiceClient.services c !! AgentCheck.ServiceID listed)
         ∨ isNomadService (AgentCheck.ServiceID listed) = false →
         Registry.checks (sync seed c r).2 !! id = Some listed)
  end.
Proof.
  intros Hfiled Hok Hch.
  destruct (sync_ok_phases seed c r Hok)
    as (r2 & r3 & n3 & r4 & n4 & r5 & n5 & c6 & n6
        & Hs2 & Hc2 & Hca2 & H3 & H4 & H5 & H6 & _).
  apply sync_deregServices_keeps in H3 as (_ & _ & Hsub3 & Hkeep3).
  pose proof (sync_regServices_checks (Registry.services r)
                (range (seed + 1) (ServiceClient.services c)) r3 0) as Hc4.
  rewrite H4 in Hc4. cbn [fst snd] in Hc4.
  apply sync_deregChecks_effect in H5 as (_ & Hkeep5 & Hsub5 & _).
  apply (sync_regChecks_installs (ServiceClient.checks c)) in H6
    as (_ & _ & Hin6 & Hnew6).
  2: { intros id' ch' Hin%elem_of_range. split; [done|]. by apply Hfiled. }
  destruct (Registry.checks r !! id) as [listed|] eqn:Hlisted.
  - rewrite Hin6 by (by eexists). rewrite Hkeep5 by (by eexists). rewrite Hc4.
    split.
    + destruct (Registry.checks r3 !! id) as [v|] eqn:Hv; [|by right].
      left. apply Hsub3 in Hv. congruence.
    + intros Hcond. apply Hkeep3; [congruence|]. by rewrite Hca2.
  - apply (Hnew6 eq_refl); [by apply elem_of_range|done].
Qed.

(** X9: a successful pass leaves no stale check.  With every check of
    the store filed under its own ID, after a pass that returns nil
    every check in the registry that hangs on a service with the
    prefix is a check of the store. *)
Theorem sync_removes_stale_checks seed c r id listed :
  (∀ id ch, ServiceClient.checks c !! id = Some ch →
            AgentCheckRegistration.ID ch = id) →
  (sync seed c r).1.1 = None →
  Registry.checks (sync seed c r).2 !! id = Some listed →
  isNomadService (AgentCheck.ServiceID listed) = true →
  is_Some (ServiceClient.checks c !! id).
Proof.
  intros Hfiled Hok Hlisted Hown.
  destruct (ServiceClient.checks c !! id) as [ch|] eqn:Hch; [by eexists|].
  exfalso.
  destruct (sync_ok_phases seed c r Hok)
    as (r2 & r3 & n3 & r4 & n4 & r5 & n5 & c6 & n6
        & Hs2 & Hc2 & Hca2 & H3 & H4 & H5 & H6 & _).
  apply sync_deregServices_keeps in H3 as (_ & _ & Hsub3 & _).
  pose proof (sync_regServices_checks (Registry.services r)
                (range (seed + 1) (ServiceClient.services c)) r3 0) as Hc4.
  rewrite H4 in Hc4. cbn [fst snd] in Hc4.
  apply sync_deregChecks_effect in H5 as (_ & _ & Hsub5 & Hgone5).
  apply (sync_regChecks_installs (ServiceClient.checks c)) in H6
    as (_ & Hout6 & _).
  2: { intros id' ch' Hin%elem_of_range. split; [done|]. by apply Hfiled. }
  rewrite Hout6 in Hlisted.
  2: { intros ([k ch'] & Heq & Hin%elem_of_range)%list_elem_of_fmap.
       cbn [fst] in Heq. congruence. }
  pose proof Hlisted as Hin5.
  apply Hsub5 in Hlisted. rewrite Hc4 in Hlisted. apply Hsub3 in Hlisted.
  rewrite Hc2 in Hlisted.
  rewrite (Hgone5 eq_refl id listed) in Hin5; try done.
  by apply elem_of_range.
Qed.

End SyncEffects.

Section SyncQuiet.
Context `{Externals} `{MapRange} {R : Type} `{AgentAPI R}.

Implicit Types (c : ServiceClient.t).

(** Loops that find nothing to do make no call. *)
Lemma sync_deregServices_quiet c l (r : R) n :
  (∀ id v, (id, v) ∈ l →
     is_Some (ServiceClient.services c !! id) ∨ isNomadService id = false) →
  sync_deregServices c l r n = (None, r, n).
Proof.
  induction l as [|[id v] l IH]; intros Hl; [done|].
  cbn [sync_deregServices].
  assert (sync_deregServices c l r n = (None, r, n)) as ->
    by (apply IH; intros id' v' Hin; apply (Hl id' v'); by right).
  destruct (Hl id v ltac:(left)) as [[s ->]| ->]; [done|].
  by destruct (ServiceClient.services c !! id).
Qed.

Lemma sync_regServices_quiet (consulServices : gmap string AgentService.t)
    l (r : R) n :
  (∀ id s, (id, s) ∈ l → is_Some (consulServices !! id)) →
  sync_regServices consulServices l r n = (None, r, n).
Proof.
  induction l as [|[id s] l IH]; intros Hl; [done|].
  cbn [sync_regServices].
  destruct (Hl id s ltac:(left)) as [v ->].
  apply IH. intros id' s' Hin. apply (Hl id' s'). by right.
Qed.

Lemma sync_deregChecks_quiet c l (r : R) n :
  (∀ id v, (id, v) ∈ l →
     is_Some (ServiceClient.checks c !! id)
     ∨ isNomadService (AgentCheck.ServiceID v) = false) →
  sync_deregChecks c l r n = (None, r, n).
Proof.
  induction l as [|[id v] l IH]; intros Hl; [done|].
  cbn [sync_deregChecks].
  assert (sync_deregChecks c l r n = (None, r, n)) as ->
    by (apply IH; intros id' v' Hin; apply (Hl id' v'); by right).
  destruct (Hl id v ltac:(left)) as [[s ->]| ->]; [done|].
  by destruct (ServiceClient.checks c !! id).
Qed.

Lemma sync_regChecks_quiet (consulChecks : gmap string AgentCheck.t)
    l c (r : R) n :
  (∀ id ch, (id, ch) ∈ l → is_Some (consulChecks !! id)) →
  sync_regChecks consulChecks l c r n = (None, c, r, n).
Proof.
  induction l as [|[id ch] l IH]; intros Hl; [done|].
  cbn [sync_regChecks].
  destruct (Hl id ch ltac:(left)) as [v ->].
  apply IH. intros id' s' Hin. apply (Hl id' s'). by right.
Qed.

End SyncQuiet.

Section SyncFixpoint.
Context `{Externals} `{MapRange} {R : Type} `{AgentAPI R}.

(** X10: a pass over a reconciled registry is quiet.  When the two list
    calls succeed, the registry lists every service and check of the
    store, and every service with the prefix and every check of such a
    service that it lists is in the store, the pass makes no other call
    (the registry is left as the second list call left it), starts no
    script, returns nil and logs that it did nothing. *)
Theorem sync_reconciled_is_quiet seed (c : ServiceClient.t) (r r1 r2 : R)
    (consulServices : gmap string AgentService.t)
    (consulChecks : gmap string AgentCheck.t) :
  Services r = (inl consulServices, r1) →
  Checks r1 = (inl consulChecks, r2) →
  (∀ id, is_Some (ServiceClient.services c !! id) →
         is_Some (consulServices !! id)) →
  (∀ id, is_Some (consulServices !! id) → isNomadService id = true →
         is_Some (ServiceClient.services c !! id)) →
  (∀ id, is_Some (ServiceClient.checks c !! id) →
         is_Some (consulChecks !! id)) →
  (∀ id v, consulChecks !! id = Some v →
           isNomadService (AgentCheck.ServiceID v) = true →
           is_Some (ServiceClient.checks c !! id)) →
  sync seed c r =
    (None,
     ServiceClient.log
       (Printf "[DEBUG] consul.sync: registered %d services, %d checks; deregistered %d services, %d checks"
          [OpString "0"; OpString "0"; OpString "0"; OpString "0"]) c,
     r2).
Proof.
  intros Hls Hlc Hs1 Hs2 Hc1 Hc2. unfold sync. rewrite Hls, Hlc.
  rewrite sync_deregServices_quiet.
  2: { intros id v Hin%elem_of_range.
       destruct (isNomadService id) eqn:Hown; [left|by right].
       apply Hs2; [by eexists|done]. }
  rewrite sync_regServices_quiet.
  2: { intros id s Hin%elem_of_range. apply Hs1. by eexists. }
  rewrite sync_deregChecks_quiet.
  2: { intros id v Hin%elem_of_range.
       destruct (isNomadService (AgentCheck.ServiceID v)) eqn:Hown; [left|by right].
       by apply (Hc2 id v). }
  rewrite sync_regChecks_quiet.
  2: { intros id s Hin%elem_of_range. apply Hc1. by eexists. }
  done.
Qed.

End SyncFixpoint.

Section SyncScripts.
Context `{Externals} `{MapRange} {R : Type} `{AgentAPI R}.

Implicit Types (c : ServiceClient.t).

Lemma sync_startScript_at id c k :
  (k = id
   ∧ ServiceClient.runningScripts c !! k = None
   ∧ ServiceClient.runningScripts (sync_startScript id c) !! k
     = Some (scriptHandle.mk false)
   ∧ ∃ s, ServiceClient.scripts c !! k = Some s
          ∧ ServiceClient.scripts (sync_startScript id c) !! k
            = Some (scriptCheck.set_running true s))
  ∨ (ServiceClient.runningScripts (sync_startScript id c) !! k
     = ServiceClient.runningScripts c !! k
     ∧ ServiceClient.scripts (sync_startScript id c) !! k
       = ServiceClient.scripts c !! k
     ∧ (k = id → is_Some (ServiceClient.scripts c !! k) →
        is_Some (ServiceClient.runningScripts c !! k))).
Proof.
  unfold sync_startScript.
  destruct (ServiceClient.scripts c !! id) as [s|] eqn:Hs.
  - destruct (ServiceClient.runningScripts c !! id) as [h|] eqn:Hh.
    + right. split_and!; try done. by intros ->.
    + cbn. destruct (decide (k = id)) as [->|Hne].
      * left. rewrite !lookup_insert_eq. split_and!; try done. by exists s.
      * right. rewrite !lookup_insert_ne by done. done.
  - right. split_and!; try done. intros -> [? ?]. congruence.
Qed.

Lemma sync_regChecks_scripts consulChecks l c (r : R) n k :
  let res := sync_regChecks consulChecks l c r n in
  (started_or_same k c res.1.1.2
   ∧ (ServiceClient.runningScripts res.1.1.2 !! k
        ≠ ServiceClient.runningScripts c !! k →
      k ∈ l.*1 ∧ consulChecks !! k = None))
  ∧ (res.1.1.1 = None → k ∈ l.*1 → consulChecks !! k = None →
     is_Some (ServiceClient.scripts c !! k) →
     is_Some (ServiceClient.runningScripts res.1.1.2 !! k)).
Proof.
  cbn zeta. revert c r n. induction l as [|[id ch] l IH]; intros c r n.
  - cbn. split; [split; [by left|done]|]. intros _ Hin. by apply elem_of_nil in Hin.
  - cbn [sync_regChecks fmap list_fmap fst].
    destruct (consulChecks !! id) eqn:Hsnap.
    { destruct (IH c r n) as [[Hst Hwhere] Hlive]. split; [split; [done|]|].
      - intros Hne. destruct (Hwhere Hne). split; [by right|done].
      - intros Hok [->|Hin]%elem_of_cons Hnone Hscr; [congruence|by apply Hlive]. }
    destruct (CheckRegister ch r) as [[e|] r1].
    { cbn. split; [split; [by left|done]|done]. }
    destruct (IH (sync_startScript id c) r1 (Go.int_add n 1)) as [[Hst Hwhere] Hlive].
    set (res := sync_regChecks consulChecks l (sync_startScript id c) r1
                  (Go.int_add n 1)) in *.
    destruct (sync_startScript_at id c k)
      as [(-> & Hnone & Hrun & s & Hs & Hs')|(Hrun & Hscr & Hstay)].
    + (* the script of [k] is started here *)
      assert (ServiceClient.runningScripts res.1.1.2 !! id
                = Some (scriptHandle.mk false)
              ∧ ServiceClient.scripts res.1.1.2 !! id
                = Some (scriptCheck.set_running true s)) as [Hr' Hs''].
      { destruct Hst as [[-> ->]|(Hcontra & _)]; [done|congruence]. }
      split; [split|].
      * right. split_and!; try done. by exists s.
      * intros _. split; [by left|done].
      * intros _ _ _ _. rewrite Hr'. by eexists.
    + split; [split|].
      * unfold started_or_same in *. by rewrite <- Hrun, <- Hscr.
      * rewrite <- Hrun. intros Hne. destruct (Hwhere Hne). split; [by right|done].
      * intros Hok [->|Hin]%elem_of_cons Hnone Hhas.
        -- destruct (Hstay eq_refl Hhas) as [h Hh].
           destruct Hst as [[-> _]|(Hcontra & _)]; [|congruence].
           rewrite Hrun, Hh. by eexists.
        -- apply Hlive; try done. by rewrite Hscr.
Qed.

(** The same over a whole pass. *)
Lemma sync_scripts_at seed c (r : R) k :
  started_or_same k c (sync seed c r).1.2
  ∧ (ServiceClient.runningScripts (sync seed c r).1.2 !! k
       ≠ ServiceClient.runningScripts c !! k →
     is_Some (ServiceClient.checks c !! k)).
Proof.
  unfold sync.
  assert (started_or_same k c c
          ∧ (ServiceClient.runningScripts c !! k
               ≠ ServiceClient.runningScripts c !! k →
             is_Some (ServiceClient.checks c !! k))) as Hsame
    by (split; [by left|done]).
  destruct (Services r) as [[cs|e] r1]; [|done].
  destruct (Checks r1) as [[cc|e] r2]; [|done].
  destruct (sync_deregServices _ _ _ _) as [[[e|] r3] n3]; [done|].
  destruct (sync_regServices _ _ _ _) as [[[e|] r4] n4]; [done|].
  destruct (sync_deregChecks _ _ _ _) as [[[e|] r5] n5]; [done|].
  destruct (sync_regChecks_scripts cc (range (seed + 3) (ServiceClient.checks c))
              c r5 0 k) as [[Hst Hwhere] _].
  destruct (sync_regChecks _ _ _ _ _) as [[[[e|] c6] r6] n6];
    cbn [fst snd] in *; (split; [exact Hst|]); intros Hne;
    destruct (Hwhere Hne) as [([k' ch] & Heq & Hin%elem_of_range)%list_elem_of_fmap _];
    cbn [fst] in Heq; subst k'; by eexists.
Qed.

(** X11: script handles across a pass.  A pass never cancels, replaces or
    drops a handle.  A handle it adds is live and is that of a check
    of the store with a script definition, which it marks running;
    the store has a script definition for the same IDs after as
    before. *)
Theorem sync_script_handles seed c (r : R) :
  let c' := (sync seed c r).1.2 in
  (∀ id h, ServiceClient.runningScripts c !! id = Some h →
           ServiceClient.runningScripts c' !! id = Some h)
  ∧ (∀ id h, ServiceClient.runningScripts c !! id = None →
             ServiceClient.runningScripts c' !! id = Some h →
             h = scriptHandle.mk false
             ∧ is_Some (ServiceClient.checks c !! id)
             ∧ ∃ s, ServiceClient.scripts c !! id = Some s
                    ∧ ServiceClient.scripts c' !! id
                      = Some (scriptCheck.set_running true s))
  ∧ dom (ServiceClient.scripts c') = dom (ServiceClient.scripts c).
Proof.
  cbn zeta. pose proof (sync_scripts_at seed c r) as Hall.
  split_and!.
  - intros id h Hh. destruct (Hall id) as [[[-> _]|(Hnone & _)] _]; congruence.
  - intros id h Hnone Hh. destruct (Hall id) as [Hst Hchk].
    destruct Hst as [[Hrun _]|(_ & Hrun & s & Hs & Hs')]; [congruence|].
    split_and!.
    + congruence.
    + apply Hchk. congruence.
    + by exists s.
  - apply set_eq. intros k. rewrite !elem_of_dom.
    destruct (Hall k) as [[[_ ->]|(_ & _ & s & -> & ->)] _]; [done|].
    split; by eexists.
Qed.

(** X12: a successful pass starts the scripts it should.  After a pass
    that returns nil, every check of the store that the registry did
    not list and that has a script definition has a handle: the one it
    had before the pass if it had one, a new live one otherwise. *)
Theorem sync_starts_missing_scripts seed c (r : R) r1 r2 consulServices
    consulChecks id :
  Services r = (inl consulServices, r1) →
  Checks r1 = (inl consulChecks, r2) →
  (sync seed c r).1.1 = None →
  is_Some (ServiceClient.checks c !! id) →
  consulChecks !! id = None →
  is_Some (ServiceClient.scripts c !! id) →
  ServiceClient.runningScripts (sync seed c r).1.2 !! id =
    Some (match ServiceClient.runningScripts c !! id with
          | Some h => h
          | None => scriptHandle.mk false
          end).
Proof.
  intros Hs Hc Hok Hch Hnone Hscr.
  assert (is_Some (ServiceClient.runningScripts (sync seed c r).1.2 !! id))
    as [h Hh].
  2: { destruct (sync_scripts_at seed c r id) as [[[Hrun _]|(Hnew & Hrun & _)] _].
       - rewrite Hrun in Hh |- *. by rewrite Hh.
       - by rewrite Hrun, Hnew. }
  revert Hok Hch Hnone Hscr. unfold sync. rewrite Hs, Hc.
  destruct (sync_deregServices _ _ _ _) as [[[e|] r3] n3]; [done|].
  destruct (sync_regServices _ _ _ _) as [[[e|] r4] n4]; [done|].
  destruct (sync_deregChecks _ _ _ _) as [[[e|] r5] n5]; [done|].
  destruct (sync_regChecks_scripts consulChecks
              (range (seed + 3) (ServiceClient.checks c)) c r5 0 id) as [_ Hlive].
  destruct (sync_regChecks _ _ _ _ _) as [[[[e|] c6] r6] n6]; [done|].
  cbn [fst snd] in *. intros _ [ch Hch] Hnone Hscr. apply Hlive; try done.
  apply list_elem_of_fmap. exists (id, ch). split; [done|]. by apply elem_of_range.
Qed.

End SyncScripts.



Section SyncFaults.
Context `{Externals} `{MapRange}.

Implicit Types (r : Registry.t) (c : ServiceClient.t).

Lemma hd_drop_lookup (l : list bool) n : hd false (drop n l) = default false (l !! n).
Proof.
  revert l. induction n as [|n IH]; intros [|b l]; cbn; auto.
Qed.

Lemma tl_drop {A} (l : list A) n : tl (drop n l) = drop (S n) l.
Proof.
  revert l. induction n as [|n IH]; intros [|b l]; cbn; auto.
Qed.

(** One more call after a run without a failed call. *)
Lemma call_fate r0 r r1 call err :
  stopped_at_fault r0 None r →
  Registry.calls r1 = (Registry.calls r ++ [call])%list →
  Registry.faults r1 = tl (Registry.faults r) →
  (err = None ↔ hd false (Registry.faults r) = false) →
  stopped_at_fault r0 err r1.
Proof.
  intros (new & [Hcalls Hfaults] & Hclean) Hc1 Hf1 Herr.
  exists (new ++ [call])%list. split.
  - split.
    + by rewrite Hc1, Hcalls, app_assoc.
    + rewrite Hf1, Hfaults, tl_drop, length_app. cbn. f_equal. lia.
  - rewrite Hfaults, hd_drop_lookup in Herr. rewrite length_app. cbn.
    destruct err as [e|].
    + exists (length new). split; [lia|]. split; [|done].
      destruct (Registry.faults r0 !! length new) as [[]|] eqn:Hl; try done;
        cbn in Herr; destruct Herr as [_ Hback]; specialize (Hback eq_refl);
        discriminate.
    + intros i Hi. destruct (decide (i = length new)) as [->|Hne].
      * destruct Herr as [Herr _]. specialize (Herr eq_refl).
        intros Hl. by rewrite Hl in Herr.
      * apply Hclean. lia.
Qed.

Lemma ServiceDeregister_fate id r :
  let '(err, r1) := Registry.ServiceDeregister id r in
  Registry.calls r1 = (Registry.calls r ++ [Registry.CallServiceDeregister id])%list
  ∧ Registry.faults r1 = tl (Registry.faults r)
  ∧ (err = None ↔ hd false (Registry.faults r) = false).
Proof.
  unfold Registry.ServiceDeregister, Registry.receive.
  destruct (hd false (Registry.faults r)); [done|].
  by destruct (Registry.cascade r).
Qed.

Lemma ServiceRegister_fate s r :
  let '(err, r1) := Registry.ServiceRegister s r in
  Registry.calls r1 = (Registry.calls r ++ [Registry.CallServiceRegister s])%list
  ∧ Registry.faults r1 = tl (Registry.faults r)
  ∧ (err = None ↔ hd false (Registry.faults r) = false).
Proof.
  unfold Registry.ServiceRegister, Registry.receive.
  by destruct (hd false (Registry.faults r)).
Qed.

Lemma CheckDeregister_fate id r :
  let '(err, r1) := Registry.CheckDeregister id r in
  Registry.calls r1 = (Registry.calls r ++ [Registry.CallCheckDeregister id])%list
  ∧ Registry.faults r1 = tl (Registry.faults r)
  ∧ (err = None ↔ hd false (Registry.faults r) = false).
Proof.
  unfold Registry.CheckDeregister, Registry.receive.
  by destruct (hd false (Registry.faults r)).
Qed.

Lemma CheckRegister_fate ch r :
  let '(err, r1) := Registry.CheckRegister ch r in
  Registry.calls r1 = (Registry.calls r ++ [Registry.CallCheckRegister ch])%list
  ∧ Registry.faults r1 = tl (Registry.faults r)
  ∧ (err = None ↔ hd false (Registry.faults r) = false).
Proof.
  unfold Registry.CheckRegister, Registry.receive.
  by destruct (hd false (Registry.faults r)).
Qed.

Lemma sync_deregServices_fate c l r0 r n :
  stopped_at_fault r0 None r →
  stopped_at_fault r0 (sync_deregServices c l r n).1.1
    (sync_deregServices c l r n).1.2.
Proof.
  revert r n. induction l as [|[id v] l IH]; intros r n Hclean; [done|].
  cbn [sync_deregServices].
  destruct (ServiceClient.services c !! id); [by apply IH|].
  destruct (isNomadService id); cbn [negb]; [|by apply IH].
  pose proof (ServiceDeregister_fate id r) as Hfate.
  cbn [ServiceDeregister Registry.api].
  destruct (Registry.ServiceDeregister id r) as [e r1].
  destruct Hfate as (Hc1 & Hf1 & Herr).
  pose proof (call_fate r0 r r1 _ e Hclean Hc1 Hf1 Herr) as Hstep.
  destruct e as [e|]; [done|]. by apply IH.
Qed.

Lemma sync_regServices_fate consulServices l r0 r n :
  stopped_at_fault r0 None r →
  stopped_at_fault r0 (sync_regServices consulServices l r n).1.1
    (sync_regServices consulServices l r n).1.2.
Proof.
  revert r n. induction l as [|[id s] l IH]; intros r n Hclean; [done|].
  cbn [sync_regServices].
  destruct (consulServices !! id); [by apply IH|].
  pose proof (ServiceRegister_fate s r) as Hfate.
  cbn [ServiceRegister Registry.api].
  destruct (Registry.ServiceRegister s r) as [e r1].
  destruct Hfate as (Hc1 & Hf1 & Herr).
  pose proof (call_fate r0 r r1 _ e Hclean Hc1 Hf1 Herr) as Hstep.
  destruct e as [e|]; [done|]. by apply IH.
Qed.

Lemma sync_deregChecks_fate c l r0 r n :
  stopped_at_fault r0 None r →
  stopped_at_fault r0 (sync_deregChecks c l r n).1.1
    (sync_deregChecks c l r n).1.2.
Proof.
  revert r n. induction l as [|[id v] l IH]; intros r n Hclean; [done|].
  cbn [sync_deregChecks].
  destruct (ServiceClient.checks c !! id); [by apply IH|].
  destruct (isNomadService _); cbn [negb]; [|by apply IH].
  pose proof (CheckDeregister_fate id r) as Hfate.
  cbn [CheckDeregister Registry.api].
  destruct (Registry.CheckDeregister id r) as [e r1].
  destruct Hfate as (Hc1 & Hf1 & Herr).
  pose proof (call_fate r0 r r1 _ e Hclean Hc1 Hf1 Herr) as Hstep.
  destruct e as [e|]; [done|]. by apply IH.
Qed.

Lemma sync_regChecks_fate consulChecks l c r0 r n :
  stopped_at_fault r0 None r →
  stopped_at_fault r0 (sync_regChecks consulChecks l c r n).1.1.1
    (sync_regChecks consulChecks l c r n).1.2.
Proof.
  revert c r n. induction l as [|[id ch] l IH]; intros c r n Hclean; [done|].
  cbn [sync_regChecks].
  destruct (consulChecks !! id); [by apply IH|].
  pose proof (CheckRegister_fate ch r) as Hfate.
  cbn [CheckRegister Registry.api].
  destruct (Registry.CheckRegister ch r) as [e r1].
  destruct Hfate as (Hc1 & Hf1 & Herr).
  pose proof (call_fate r0 r r1 _ e Hclean Hc1 Hf1 Herr) as Hstep.
  destruct e as [e|]; [done|]. by apply IH.
Qed.

(** X13: a pass stops at the first call that fails.  Against a registry
    whose calls fail as [faults] says, a pass returns nil exactly when
    none of the calls it made failed; when it returns an error, the
    call that failed is the last one it made, and no call before it
    failed.  Every call, the two list calls included, counts. *)
Theorem sync_stops_at_first_fault seed c r :
  ∃ new,
    Registry.calls (sync seed c r).2 = (Registry.calls r ++ new)%list
    ∧ Registry.faults (sync seed c r).2 = drop (length new) (Registry.faults r)
    ∧ match (sync seed c r).1.1 with
      | None =>
          ∀ i, (i < length new)%nat → Registry.faults r !! i ≠ Some true
      | Some _ =>
          ∃ j, length new = S j
               ∧ Registry.faults r !! j = Some true
               ∧ ∀ i, (i < j)%nat → Registry.faults r !! i ≠ Some true
      end.
Proof.
  assert (∀ res, sync seed c r = res → stopped_at_fault r res.1.1 res.2) as Hstop.
  2: { destruct (Hstop _ eq_refl) as (new & [Hc Hf] & Hend). by exists new. }
  intros res Hres.
  assert (stopped_at_fault r None r) as Hstart.
  { exists []. split; [split; [by rewrite app_nil_r|done]|]. intros i Hi. cbn in Hi. lia. }
  assert (∀ r1 call, stopped_at_fault r None r1 →
            stopped_at_fault r
              (if hd false (Registry.faults r1) then Some Registry.unavailable else None)
              (Registry.receive call r1).2) as Hlist.
  { intros r1 call Hclean. eapply call_fate; [done|done|done|].
    by destruct (hd false (Registry.faults r1)). }
  unfold sync in Hres. cbn [Services Checks Registry.api] in Hres.
  pose proof (Hlist r Registry.CallServices Hstart) as H1.
  unfold Registry.Services in Hres.
  destruct (Registry.receive Registry.CallServices r) as [b1 r1] eqn:Hr1.
  assert (b1 = hd false (Registry.faults r)) as -> by (by injection Hr1 as <- _).
  cbn [snd] in H1.
  destruct (hd false (Registry.faults r)); [by subst res|].
  pose proof (Hlist r1 Registry.CallChecks H1) as H2.
  unfold Registry.Checks in Hres.
  destruct (Registry.receive Registry.CallChecks r1) as [b2 r2] eqn:Hr2.
  assert (b2 = hd false (Registry.faults r1)) as -> by (by injection Hr2 as <- _).
  cbn [snd] in H2.
  destruct (hd false (Registry.faults r1)); [by subst res|].
  pose proof (sync_deregServices_fate c (range seed (Registry.services r1)) r r2 0 H2)
    as H3.
  destruct (sync_deregServices _ _ _ _) as [[[e|] r3] n3]; [by subst res|].
  pose proof (sync_regServices_fate (Registry.services r1)
                (range (seed + 1) (ServiceClient.services c)) r r3 0 H3) as H4.
  destruct (sync_regServices _ _ _ _) as [[[e|] r4] n4]; [by subst res|].
  pose proof (sync_deregChecks_fate c (range (seed + 2) (Registry.checks r2)) r r4 0 H4)
    as H5.
  destruct (sync_deregChecks _ _ _ _) as [[[e|] r5] n5]; [by subst res|].
  pose proof (sync_regChecks_fate (Registry.checks r2)
                (range (seed + 3) (ServiceClient.checks c)) c r r5 0 H5) as H6.
  destruct (sync_regChecks _ _ _ _ _) as [[[[e|] c6] r6] n6]; by subst res.
Qed.

End SyncFaults.

Section RunExit.
Context `{Externals} `{MapRange} {R : Type} `{AgentAPI R}.

Implicit Types (c : ServiceClient.t) (st : RunState.t R).

(** What [merge] makes of the services and the checks depends on the
    services and the checks alone. *)
Lemma merge_maps_ext ops c1 c2 :
  ServiceClient.services c1 = ServiceClient.services c2 →
  ServiceClient.checks c1 = ServiceClient.checks c2 →
  ServiceClient.services (merge ops c1) = ServiceClient.services (merge ops c2)
  ∧ ServiceClient.checks (merge ops c1) = ServiceClient.checks (merge ops c2).
Proof.
  intros Hs Hc. split; apply map_eq; intros k.
  - by rewrite !merge_services, Hs.
  - by rewrite !merge_checks, Hc.
Qed.

Lemma drain_maps_ext l c1 c2 :
  ServiceClient.services c1 = ServiceClient.services c2 →
  ServiceClient.checks c1 = ServiceClient.checks c2 →
  ServiceClient.services (foldl (λ c ops, merge ops c) c1 l)
    = ServiceClient.services (foldl (λ c ops, merge ops c) c2 l)
  ∧ ServiceClient.checks (foldl (λ c ops, merge ops c) c1 l)
    = ServiceClient.checks (foldl (λ c ops, merge ops c) c2 l).
Proof.
  revert c1 c2. induction l as [|ops l IH]; intros c1 c2 Hs Hc; [done|].
  cbn [foldl]. destruct (merge_maps_ext ops c1 c2 Hs Hc). by apply IH.
Qed.

Lemma drain_settings l c :
  settings (foldl (λ c ops, merge ops c) c l) = settings c.
Proof.
  revert c. induction l as [|ops l IH]; intros c; [done|].
  cbn [foldl]. by rewrite IH, merge_settings.
Qed.

(** The body of the loop once shutdown has been signalled, whatever
    case its [select] takes: the pass and the retry bookkeeping leave
    the settings, the services and the checks as the [select] left
    them. *)
Lemma Run_body_stopping w st st1 :
  ServiceClient.shutdownCh (RunState.client st) = true →
  Run_body w st = Some st1 →
  ∃ c0 timer,
    Run_wake w (RunState.client st) (RunState.retryTimer st) = Some (c0, timer)
    ∧ RunState.pc st1 = AtShutdownCheck
    ∧ settings (RunState.client st1) = settings c0
    ∧ ServiceClient.services (RunState.client st1) = ServiceClient.services c0
    ∧ ServiceClient.checks (RunState.client st1) = ServiceClient.checks c0.
Proof.
  intros Hsh. unfold Run_body.
  destruct (RunState.pc st); [|done..].
  destruct (Run_wake w _ _) as [[c0 timer]|]; [|done].
  pose proof (sync_frame (RunState.ranges st) c0 (RunState.remote st))
    as (Hset & Hsv & Hch).
  destruct (sync _ _ _) as [[err c1] r1]. cbn [fst snd] in *.
  unfold Run_after_sync.
  destruct err as [e|].
  - destruct (RunState.failures st =? 0); intros [= <-];
      exists c0, timer; done.
  - destruct (0 <? RunState.failures st); intros [= <-];
      exists c0, timer; done.
Qed.

(** What the [select] of the body leaves of the queue, the services and
    the checks. *)
Lemma Run_wake_queue w c timer c0 timer0 :
  Run_wake w c timer = Some (c0, timer0) →
  ServiceClient.shutdownCh c0 = ServiceClient.shutdownCh c
  ∧ ServiceClient.opCh c0
    = match w with
      | WakeOp => tail (ServiceClient.opCh c)
      | _ => ServiceClient.opCh c
      end
  ∧ ServiceClient.services
      (foldl (λ c ops, merge ops c) c0 (ServiceClient.opCh c0))
    = ServiceClient.services
        (foldl (λ c ops, merge ops c) c (ServiceClient.opCh c))
  ∧ ServiceClient.checks
      (foldl (λ c ops, merge ops c) c0 (ServiceClient.opCh c0))
    = ServiceClient.checks
        (foldl (λ c ops, merge ops c) c (ServiceClient.opCh c)).
Proof.
  destruct w; cbn [Run_wake].
  - destruct timer; intros Heq; simplify_eq; repeat split; reflexivity.
  - destruct (ServiceClient.shutdownCh c) eqn:Hs; intros Heq; simplify_eq;
      repeat split; try reflexivity; done.
  - destruct (ServiceClient.opCh c) as [|ops rest] eqn:Hq; intros Heq;
      [done|]. injection Heq as <- <-.
    pose proof (merge_settings ops (ServiceClient.set_opCh rest c)) as Hset.
    unfold settings in Hset. cbn in Hset.
    assert (ServiceClient.opCh (merge ops (ServiceClient.set_opCh rest c)) = rest)
      as Hq0 by (by simplify_eq).
    split; [by simplify_eq|]. split; [done|].
    rewrite Hq0. cbn [foldl].
    apply drain_maps_ext; by apply merge_maps_ext.
Qed.

(** The shutdown check once shutdown has been signalled: with the
    queue empty the loop returns, otherwise it merges the whole queue
    and goes round again. *)
Lemma Run_shutdownCheck_stopping st1 :
  RunState.pc st1 = AtShutdownCheck →
  ServiceClient.shutdownCh (RunState.client st1) = true →
  ∃ st2,
    Run_shutdownCheck st1 = Some st2
    ∧ ServiceClient.shutdownCh (RunState.client st2) = true
    ∧ ServiceClient.opCh (RunState.client st2) = []
    ∧ ServiceClient.services (RunState.client st2)
      = ServiceClient.services
          (foldl (λ c ops, merge ops c) (RunState.client st1)
             (ServiceClient.opCh (RunState.client st1)))
    ∧ ServiceClient.checks (RunState.client st2)
      = ServiceClient.checks
          (foldl (λ c ops, merge ops c) (RunState.client st1)
             (ServiceClient.opCh (RunState.client st1)))
    ∧ match ServiceClient.opCh (RunState.client st1) with
      | [] =>
          RunState.pc st2 = Exited
          ∧ ServiceClient.exitCh (RunState.client st2) = true
      | _ :: _ =>
          RunState.pc st2 = AtSelect
          ∧ ServiceClient.exitCh (RunState.client st2)
            = ServiceClient.exitCh (RunState.client st1)
      end.
Proof.
  intros Hpc Hsh. unfold Run_shutdownCheck. rewrite Hpc, Hsh.
  destruct (ServiceClient.opCh (RunState.client st1)) as [|ops rest] eqn:Hq.
  - eexists. split; [reflexivity|]. cbn. by rewrite Hq.
  - set (c2 := foldl (λ c ops, merge ops c)
                 (ServiceClient.set_opCh [] (RunState.client st1)) (ops :: rest)).
    assert (settings c2 = settings (ServiceClient.set_opCh [] (RunState.client st1)))
      as Hset by apply drain_settings.
    assert (ServiceClient.services c2
            = ServiceClient.services
                (foldl (λ c ops, merge ops c) (RunState.client st1) (ops :: rest))
            ∧ ServiceClient.checks c2
              = ServiceClient.checks
                  (foldl (λ c ops, merge ops c) (RunState.client st1) (ops :: rest)))
      as [Hsv Hch] by (by apply drain_maps_ext).
    clearbody c2. eexists. split; [reflexivity|].
    cbn [RunState.client RunState.pc].
    unfold settings in Hset. cbn in Hset.
    split_and!; try done; simplify_eq; congruence.
Qed.

(** X14: the loop comes to an end once shutdown is signalled, whatever
    its [select] takes.  From the top of its body with the shutdown
    channel closed and no caller in between, the shutdown case is
    ready; whichever ready case the [select] takes, and whether the
    pass succeeds or fails, the shutdown check that follows finds the
    signal.  When the [select] has left the queue empty (it was empty,
    or held one batch and the [select] took it) the loop returns after
    this turn; otherwise it merges the rest of the queue and returns
    after the next turn, whatever that turn's [select] takes.  It does
    not wait for a retry.  At the return the exit channel is closed,
    the queue is empty, and the services and checks of the store are
    those that merging every queued batch in queue order gives. *)
Theorem Run_exits_after_shutdown st w1 st1 :
  RunState.pc st = AtSelect →
  ServiceClient.shutdownCh (RunState.client st) = true →
  Run_body w1 st = Some st1 →
  let merged :=
    foldl (λ c ops, merge ops c) (RunState.client st)
      (ServiceClient.opCh (RunState.client st)) in
  let final st' :=
    RunState.pc st' = Exited
    ∧ ServiceClient.exitCh (RunState.client st') = true
    ∧ ServiceClient.opCh (RunState.client st') = []
    ∧ ServiceClient.services (RunState.client st') = ServiceClient.services merged
    ∧ ServiceClient.checks (RunState.client st') = ServiceClient.checks merged in
  is_Some (Run_body WakeShutdown st)
  ∧ ∃ st2,
      Run_shutdownCheck st1 = Some st2
      ∧ match (match w1 with
               | WakeOp => tail (ServiceClient.opCh (RunState.client st))
               | _ => ServiceClient.opCh (RunState.client st)
               end) with
        | [] => final st2
        | _ :: _ =>
            RunState.pc st2 = AtSelect
            ∧ is_Some (Run_body WakeShutdown st2)
            ∧ ∀ w2 st3,
                Run_body w2 st2 = Some st3 →
                ∃ st4, Run_shutdownCheck st3 = Some st4 ∧ final st4
        end.
Proof.
  intros Hpc Hsh Hbody. cbn zeta.
  assert (∀ st0, RunState.pc st0 = AtSelect →
            ServiceClient.shutdownCh (RunState.client st0) = true →
            is_Some (Run_body WakeShutdown st0)) as Hready.
  { intros st0 Hpc0 Hsh0. unfold Run_body. rewrite Hpc0. cbn [Run_wake].
    rewrite Hsh0.
    destruct (sync _ _ _) as [[err c1] r1].
    destruct (Run_after_sync _ _ _ _) as [[c2 t2] f2]. by eexists. }
  split; [by apply Hready|].
  destruct (Run_body_stopping w1 st st1 Hsh Hbody)
    as (c0 & timer & Hwake & Hpc1 & Hset1 & Hsv1 & Hch1).
  destruct (Run_wake_queue _ _ _ _ _ Hwake) as (Hsh0 & Hq0 & Hsv0 & Hch0).
  assert (ServiceClient.shutdownCh (RunState.client st1) = true
          ∧ ServiceClient.opCh (RunState.client st1) = ServiceClient.opCh c0)
    as [Hsh1 Hq1].
  { unfold settings in Hset1. simplify_eq. split; congruence. }
  destruct (Run_shutdownCheck_stopping st1 Hpc1 Hsh1)
    as (st2 & Hcheck & Hsh2 & Hq2 & Hsv2 & Hch2 & Hend).
  exists st2. split; [exact Hcheck|].
  rewrite Hq1 in Hsv2, Hch2, Hend.
  assert (ServiceClient.services (RunState.client st2)
          = ServiceClient.services
              (foldl (λ c ops, merge ops c) (RunState.client st)
                 (ServiceClient.opCh (RunState.client st)))) as Hsv.
  { rewrite Hsv2, <- Hsv0. by apply drain_maps_ext. }
  assert (ServiceClient.checks (RunState.client st2)
          = ServiceClient.checks
              (foldl (λ c ops, merge ops c) (RunState.client st)
                 (ServiceClient.opCh (RunState.client st)))) as Hch.
  { rewrite Hch2, <- Hch0. by apply drain_maps_ext. }
  rewrite <- Hq0.
  destruct (ServiceClient.opCh c0) as [|ops rest].
  - destruct Hend as [Hpc2 Hex2]. by split_and!.
  - destruct Hend as [Hpc2 _]. split; [exact Hpc2|].
    split; [by apply Hready|].
    intros w2 st3 Hbody3.
    destruct (Run_body_stopping w2 st2 st3 Hsh2 Hbody3)
      as (c3 & timer3 & Hwake3 & Hpc3 & Hset3 & Hsv3 & Hch3).
    destruct (Run_wake_queue _ _ _ _ _ Hwake3) as (Hsh3' & Hq3' & Hsv3' & Hch3').
    assert (ServiceClient.opCh c3 = []) as Hq3.
    { rewrite Hq3', Hq2. by destruct w2. }
    rewrite Hq3, Hq2 in Hsv3', Hch3'. cbn [foldl] in Hsv3', Hch3'.
    assert (ServiceClient.shutdownCh (RunState.client st3) = true
            ∧ ServiceClient.opCh (RunState.client st3) = []) as [Hsh3 Hq3''].
    { unfold settings in Hset3. simplify_eq. split; congruence. }
    destruct (Run_shutdownCheck_stopping st3 Hpc3 Hsh3)
      as (st4 & Hcheck4 & _ & Hq4 & Hsv4 & Hch4 & Hend4).
    rewrite Hq3'' in Hsv4, Hch4, Hend4. cbn [foldl] in Hsv4, Hch4.
    destruct Hend4 as [Hpc4 Hex4].
    exists st4. split; [exact Hcheck4|]. split_and!; try done.
    + by rewrite Hsv4, Hsv3, Hsv3'.
    + by rewrite Hch4, Hch3, Hch3'.
Qed.

End RunExit.



Section CallerFrames.
Context `{Externals} `{MapRange} {R : Type} `{AgentAPI R}.

Implicit Types (c : ServiceClient.t) (st : RunState.t R).

Lemma commit_fields pick ops c b c' :
  commit pick ops c = Some (b, c') →
  reconciler_fields c' = reconciler_fields c
  ∧ ServiceClient.shutdownCh c' = ServiceClient.shutdownCh c.
Proof.
  unfold commit.
  destruct (bool_decide _), (ServiceClient.shutdownCh c) eqn:Hsh, pick;
    intros [= <- <-]; done.
Qed.

Lemma record_agentServices_fields {A} (f : A → string) l c :
  let c' := foldl (λ c a, ServiceClient.set_agentServices
                            (<[f a := ()]> (ServiceClient.agentServices c)) c) c l in
  reconciler_fields c' = reconciler_fields c
  ∧ ServiceClient.shutdownCh c' = ServiceClient.shutdownCh c.
Proof.
  cbn zeta. revert c. induction l as [|a l IH]; intros c; [done|].
  cbn [foldl]. destruct (IH (ServiceClient.set_agentServices
    (<[f a := ()]> (ServiceClient.agentServices c)) c)) as [-> ->]. done.
Qed.

Lemma record_agentChecks_fields {A} (f : A → string) l c :
  let c' := foldl (λ c a, ServiceClient.set_agentChecks
                            (<[f a := ()]> (ServiceClient.agentChecks c)) c) c l in
  reconciler_fields c' = reconciler_fields c
  ∧ ServiceClient.shutdownCh c' = ServiceClient.shutdownCh c.
Proof.
  cbn zeta. revert c. induction l as [|a l IH]; intros c; [done|].
  cbn [foldl]. destruct (IH (ServiceClient.set_agentChecks
    (<[f a := ()]> (ServiceClient.agentChecks c)) c)) as [-> ->]. done.
Qed.

(** A caller leaves the loop where it is and writes none of the
    reconciler's fields; the shutdown channel, once closed, stays so. *)
Lemma caller_frame ev st st' :
  is_caller ev = true →
  Run_event ev st = Some st' →
  RunState.pc st' = RunState.pc st
  ∧ RunState.remote st' = RunState.remote st
  ∧ RunState.retryTimer st' = RunState.retryTimer st
  ∧ RunState.failures st' = RunState.failures st
  ∧ reconciler_fields (RunState.client st') = reconciler_fields (RunState.client st)
  ∧ (ServiceClient.shutdownCh (RunState.client st) = true →
     ServiceClient.shutdownCh (RunState.client st') = true).
Proof.
  intros Hcaller Hstep.
  destruct ev as [pick role services|pick allocID task exec
                 |seed pick allocID existing newTask exec
                 |pick allocID task|seed pick|w|]; try done; cbn in Hstep.
  - unfold RegisterAgent in Hstep.
    destruct (RegisterAgent_services _ _ _) as [[[e|] ops] services1].
    { by injection Hstep as <-. }
    destruct (commit pick ops _) as [[[] c1]|] eqn:Hcommit; [..|done];
      injection Hstep as <-; apply commit_fields in Hcommit as [Hf Hsh];
      cbn [RunState.pc RunState.remote RunState.retryTimer RunState.failures
           RunState.client with_client fst snd]; split_and!; try done.
    + match goal with |- reconciler_fields (foldl ?g (foldl ?g' c1 ?l') ?l) = _ =>
        pose proof (record_agentChecks_fields AgentCheckRegistration.ID l
                      (foldl g' c1 l')) as [-> _];
        pose proof (record_agentServices_fields AgentServiceRegistration.ID l' c1)
          as [-> _] end. done.
    + match goal with |- _ → ServiceClient.shutdownCh (foldl ?g (foldl ?g' c1 ?l') ?l) = _ =>
        pose proof (record_agentChecks_fields AgentCheckRegistration.ID l
                      (foldl g' c1 l')) as [_ ->];
        pose proof (record_agentServices_fields AgentServiceRegistration.ID l' c1)
          as [_ ->] end. congruence.
    + congruence.
  - unfold RegisterTask in Hstep.
    destruct (RegisterTask_services _ _ _ _ _ _) as [[[e|] ops] services1].
    { by injection Hstep as <-. }
    destruct (commit pick ops _) as [[b c1]|] eqn:Hcommit; [|done].
    injection Hstep as <-. apply commit_fields in Hcommit as [Hf Hsh].
    cbn. split_and!; try done. congruence.
  - unfold UpdateTask in Hstep.
    destruct (UpdateTask_existing _ _ _ _ _ _ _) as [[[[e|] ops1] newIDs1] news1].
    { by injection Hstep as <-. }
    destruct (UpdateTask_remaining _ _ _ _ _ _ _) as [[[e2|] ops2] news2].
    { by injection Hstep as <-. }
    destruct (commit pick ops2 _) as [[b c1]|] eqn:Hcommit; [|done].
    injection Hstep as <-. apply commit_fields in Hcommit as [Hf Hsh].
    cbn. split_and!; try done. congruence.
  - unfold RemoveTask in Hstep.
    destruct (commit pick _ _) as [[b c1]|] eqn:Hcommit; [|done].
    injection Hstep as <-. apply commit_fields in Hcommit as [Hf Hsh].
    cbn. split_and!; try done. congruence.
  - unfold Shutdown_signal in Hstep.
    destruct (ServiceClient.shutdownCh (RunState.client st)) eqn:Hsh0.
    { injection Hstep as <-. cbn. by split_and!. }
    destruct (commit pick _ _) as [[b c1]|] eqn:Hcommit; [|done].
    injection Hstep as <-. apply commit_fields in Hcommit as [Hf Hsh].
    cbn. split_and!; try done.
Qed.


End CallerFrames.

Section RunInvariant.
Context `{Externals} `{MapRange} {R : Type} `{AgentAPI R}.

Implicit Types (c : ServiceClient.t) (st : RunState.t R).

Lemma reconciler_fields_settings c c' :
  reconciler_fields c' = reconciler_fields c →
  ServiceClient.exitCh c' = ServiceClient.exitCh c
  ∧ ServiceClient.retryInterval c' = ServiceClient.retryInterval c
  ∧ ServiceClient.maxRetryInterval c' = ServiceClient.maxRetryInterval c
  ∧ ServiceClient.shutdownWait c' = ServiceClient.shutdownWait c.
Proof. unfold reconciler_fields. intros. simplify_eq. by split_and!. Qed.

Lemma Run_body_settings w st st' :
  Run_body w st = Some st' →
  RunState.pc st = AtSelect ∧ RunState.pc st' = AtShutdownCheck
  ∧ ServiceClient.exitCh (RunState.client st') = ServiceClient.exitCh (RunState.client st)
  ∧ ServiceClient.shutdownCh (RunState.client st')
    = ServiceClient.shutdownCh (RunState.client st)
  ∧ ServiceClient.retryInterval (RunState.client st')
    = ServiceClient.retryInterval (RunState.client st)
  ∧ ServiceClient.maxRetryInterval (RunState.client st')
    = ServiceClient.maxRetryInterval (RunState.client st)
  ∧ ServiceClient.shutdownWait (RunState.client st')
    = ServiceClient.shutdownWait (RunState.client st).
Proof.
  unfold Run_body. destruct (RunState.pc st); try done.
  destruct (Run_wake w _ _) as [[c tm]|] eqn:Hwake; [|done].
  assert (ServiceClient.exitCh c = ServiceClient.exitCh (RunState.client st)
          ∧ ServiceClient.shutdownCh c = ServiceClient.shutdownCh (RunState.client st)
          ∧ ServiceClient.retryInterval c
            = ServiceClient.retryInterval (RunState.client st)
          ∧ ServiceClient.maxRetryInterval c
            = ServiceClient.maxRetryInterval (RunState.client st)
          ∧ ServiceClient.shutdownWait c
            = ServiceClient.shutdownWait (RunState.client st))
    as (He & Hs & Hr & Hm & Hw).
  { destruct w; cbn in Hwake.
    - destruct (RunState.retryTimer st); [|done]. injection Hwake as <- <-.
      by split_and!.
    - destruct (ServiceClient.shutdownCh _) eqn:Hsh; [|done].
      injection Hwake as <- <-. by split_and!.
    - destruct (ServiceClient.opCh (RunState.client st)) as [|ops rest]; [done|].
      injection Hwake as <- <-.
      pose proof (merge_settings ops (ServiceClient.set_opCh rest (RunState.client st)))
        as Hset. unfold settings in Hset. cbn in Hset. simplify_eq.
      by split_and!. }
  pose proof (sync_frame (RunState.ranges st) c (RunState.remote st)) as (Hset & _).
  destruct (sync _ c _) as [[err c1] r1]. cbn [fst snd] in Hset.
  unfold settings in Hset.
  assert (ServiceClient.exitCh c1 = ServiceClient.exitCh c
          ∧ ServiceClient.shutdownCh c1 = ServiceClient.shutdownCh c
          ∧ ServiceClient.retryInterval c1 = ServiceClient.retryInterval c
          ∧ ServiceClient.maxRetryInterval c1 = ServiceClient.maxRetryInterval c
          ∧ ServiceClient.shutdownWait c1 = ServiceClient.shutdownWait c)
    as (He1 & Hs1 & Hr1 & Hm1 & Hw1) by (simplify_eq; by split_and!).
  unfold Run_after_sync. intros Hst'.
  destruct err as [e|].
  - destruct (RunState.failures st =? 0); injection Hst' as <-; cbn;
      split_and!; congruence.
  - destruct (0 <? RunState.failures st); injection Hst' as <-; cbn;
      split_and!; congruence.
Qed.

Lemma Run_shutdownCheck_settings st st' :
  Run_shutdownCheck st = Some st' →
  RunState.pc st = AtShutdownCheck
  ∧ ServiceClient.shutdownCh (RunState.client st')
    = ServiceClient.shutdownCh (RunState.client st)
  ∧ ServiceClient.retryInterval (RunState.client st')
    = ServiceClient.retryInterval (RunState.client st)
  ∧ ServiceClient.maxRetryInterval (RunState.client st')
    = ServiceClient.maxRetryInterval (RunState.client st)
  ∧ ServiceClient.shutdownWait (RunState.client st')
    = ServiceClient.shutdownWait (RunState.client st)
  ∧ ((RunState.pc st' = Exited
      ∧ ServiceClient.exitCh (RunState.client st') = true
      ∧ ServiceClient.shutdownCh (RunState.client st) = true
      ∧ ServiceClient.opCh (RunState.client st) = [])
     ∨ (RunState.pc st' = AtSelect
        ∧ ServiceClient.exitCh (RunState.client st')
          = ServiceClient.exitCh (RunState.client st))).
Proof.
  unfold Run_shutdownCheck. destruct (RunState.pc st); try done.
  destruct (ServiceClient.shutdownCh (RunState.client st)) eqn:Hsh.
  - destruct (ServiceClient.opCh (RunState.client st)) as [|ops rest] eqn:Hq.
    + intros [= <-]. cbn. split_and!; try done. left. done.
    + intros [= <-]. cbn [RunState.client RunState.pc].
      pose proof (drain_settings (ops :: rest)
                    (ServiceClient.set_opCh [] (RunState.client st))) as Hset.
      unfold settings in Hset. cbn [foldl] in Hset |- *.
      cbn [ServiceClient.set_opCh ServiceClient.retryInterval
           ServiceClient.maxRetryInterval ServiceClient.exitCh
           ServiceClient.shutdownCh ServiceClient.shutdownWait ServiceClient.opCh
           ServiceClient.agentServices ServiceClient.agentChecks] in Hset.
      simplify_eq. split_and!; try congruence. right. split; congruence.
  - intros [= <-]. cbn. split_and!; try done. right. done.
Qed.

(** X16: the exit channel tells the truth.  Along every run of a new
    client, however the loop interleaves with its callers, the exit
    channel is closed exactly when the loop has returned; the loop
    returns only after the shutdown channel has been closed; and the
    retry interval, its cap and the shutdown wait keep their defaults
    of one second, thirty seconds and one minute. *)
Theorem Run_exit_needs_shutdown evs (r : R) st' :
  Run_events evs (Run_start NewServiceClient r) = Some st' →
  (RunState.pc st' = Exited ↔ ServiceClient.exitCh (RunState.client st') = true)
  ∧ (RunState.pc st' = Exited →
     ServiceClient.shutdownCh (RunState.client st') = true)
  ∧ ServiceClient.retryInterval (RunState.client st') = Go.Second
  ∧ ServiceClient.maxRetryInterval (RunState.client st') = 30 * Go.Second
  ∧ ServiceClient.shutdownWait (RunState.client st') = Go.Minute.
Proof.
  assert (∀ st,
            ((RunState.pc st = Exited ↔ ServiceClient.exitCh (RunState.client st) = true)
             ∧ (RunState.pc st = Exited →
                ServiceClient.shutdownCh (RunState.client st) = true)
             ∧ ServiceClient.retryInterval (RunState.client st) = Go.Second
             ∧ ServiceClient.maxRetryInterval (RunState.client st) = 30 * Go.Second
             ∧ ServiceClient.shutdownWait (RunState.client st) = Go.Minute) →
            Run_events evs st = Some st' →
            (RunState.pc st' = Exited
               ↔ ServiceClient.exitCh (RunState.client st') = true)
            ∧ (RunState.pc st' = Exited →
               ServiceClient.shutdownCh (RunState.client st') = true)
            ∧ ServiceClient.retryInterval (RunState.client st') = Go.Second
            ∧ ServiceClient.maxRetryInterval (RunState.client st') = 30 * Go.Second
            ∧ ServiceClient.shutdownWait (RunState.client st') = Go.Minute) as Hinv.
  2: { apply Hinv. cbn. split_and!; try done. }
  induction evs as [|ev evs IH]; intros st Hst Hrun.
  - by injection Hrun as <-.
  - cbn [Run_events] in Hrun.
    destruct (Run_event ev st) as [st1|] eqn:Hstep; [|done].
    apply (IH st1); [|done]. clear IH Hrun.
    destruct Hst as (Hexit & Hshut & Hri & Hmi & Hsw).
    destruct (is_caller ev) eqn:Hcaller.
    + destruct (caller_frame ev st st1 Hcaller Hstep)
        as (Hpc1 & _ & _ & _ & Hfields & Hmono).
      apply reconciler_fields_settings in Hfields as (He & Hr & Hm & Hw).
      rewrite Hpc1, He, Hr, Hm, Hw. split_and!; auto.
    + destruct ev; try done; cbn in Hstep.
      * apply Run_body_settings in Hstep as (Hpc & Hpc1 & He & Hs & Hr & Hm & Hw).
        rewrite Hpc1. split_and!; try congruence. split; [done|].
        rewrite He. intros Hx. apply Hexit in Hx. congruence.
      * apply Run_shutdownCheck_settings in Hstep
          as (Hpc & Hs & Hr & Hm & Hw & [(Hpc1 & He & Hsh & _)|(Hpc1 & He)]).
        -- rewrite Hpc1. split_and!; try congruence. done.
        -- rewrite Hpc1. split_and!; try congruence. split; [done|].
           rewrite He. intros Hx. apply Hexit in Hx. congruence.
Qed.

End RunInvariant.



Section TaskBatches.
Context `{Externals} `{MapRange}.

Implicit Types (c : ServiceClient.t) (ops : operations.t).

Lemma serviceRegs_check_ok id serviceReg exec resources ops check ops' check' :
  serviceRegs_check id serviceReg exec resources ops check = (None, ops', check') →
  check' = with_default_protocol check
  ∧ operations.regServices ops' = operations.regServices ops
  ∧ operations.deregServices ops' = operations.deregServices ops
  ∧ operations.deregChecks ops' = operations.deregChecks ops
  ∧ (∃ reg, operations.regChecks ops' = (operations.regChecks ops ++ [reg])%list
            ∧ AgentCheckRegistration.ID reg = createCheckID id check
            ∧ AgentCheckRegistration.ServiceID reg = id)
  ∧ operations.scripts ops' =
      (operations.scripts ops
       ++ (if String.eqb (ServiceCheck.Type_ check) ServiceCheckScript
           then match exec with
                | Some exec => [newScriptCheck (createCheckID id check) check exec]
                | None => []
                end
           else []))%list.
Proof.
  unfold serviceRegs_check.
  assert (∀ ops0 l,
            operations.regServices ops0 = operations.regServices ops →
            operations.deregServices ops0 = operations.deregServices ops →
            operations.deregChecks ops0 = operations.deregChecks ops →
            operations.regChecks ops0 = operations.regChecks ops →
            operations.scripts ops0 = (operations.scripts ops ++ l)%list →
            (let '(host, port) :=
               if negb (String.eqb (ServiceCheck.PortLabel check) "")
               then FindHostAndPortFor resources (ServiceCheck.PortLabel check)
               else (AgentServiceRegistration.Address serviceReg,
                     AgentServiceRegistration.Port serviceReg) in
             match createCheckReg id (createCheckID id check) check host port with
             | (inr err, check) =>
                 (Some (ErrorfWrap "failed to add check %q: %v"
                          [ServiceCheck.Name check] err), ops0, check)
             | (inl checkReg, check) =>
                 (None, operations.add_regCheck checkReg ops0, check)
             end) = (None, ops', check') →
            check' = with_default_protocol check
            ∧ operations.regServices ops' = operations.regServices ops
            ∧ operations.deregServices ops' = operations.deregServices ops
            ∧ operations.deregChecks ops' = operations.deregChecks ops
            ∧ (∃ reg, operations.regChecks ops' = (operations.regChecks ops ++ [reg])%list
                      ∧ AgentCheckRegistration.ID reg = createCheckID id check
                      ∧ AgentCheckRegistration.ServiceID reg = id)
            ∧ operations.scripts ops' = (operations.scripts ops ++ l)%list) as Hrest.
  { intros ops0 l Hrs Hds Hdc Hrc Hsc.
    destruct (if negb _ then _ else _) as [host port].
    pose proof (createCheckReg_check id (createCheckID id check) check host port)
      as Hchk.
    destruct (createCheckReg _ _ _ _ _) as [[reg|err] check1] eqn:Hreg; [|done].
    intros [= <- <-]. apply createCheckReg_ids in Hreg as [Hid Hsid].
    cbn [snd] in Hchk. cbn. rewrite Hrc. split_and!; try done. by exists reg. }
  destruct (String.eqb (ServiceCheck.Type_ check) ServiceCheckScript).
  - destruct exec as [exec|]; [|done]. by apply Hrest.
  - apply Hrest; try done. by rewrite app_nil_r.
Qed.

Lemma script_checks_cons id exec check rest :
  script_checks id exec (check :: rest) =
    ((if String.eqb (ServiceCheck.Type_ check) ServiceCheckScript
      then match exec with
           | Some exec => [newScriptCheck (createCheckID id check) check exec]
           | None => []
           end
      else []) ++ script_checks id exec rest)%list.
Proof.
  unfold script_checks. destruct exec as [exec|]; [|by destruct (String.eqb _ _)].
  cbn [List.filter]. by destruct (String.eqb _ _).
Qed.

Lemma serviceRegs_checks_ok id serviceReg exec resources ops checks ops' checks' :
  serviceRegs_checks id serviceReg exec resources ops checks = (None, ops', checks') →
  checks' = with_default_protocol <$> checks
  ∧ operations.regServices ops' = operations.regServices ops
  ∧ operations.deregServices ops' = operations.deregServices ops
  ∧ operations.deregChecks ops' = operations.deregChecks ops
  ∧ (∃ regs, operations.regChecks ops' = (operations.regChecks ops ++ regs)%list
             ∧ AgentCheckRegistration.ID <$> regs = createCheckID id <$> checks
             ∧ Forall (λ reg, AgentCheckRegistration.ServiceID reg = id) regs)
  ∧ operations.scripts ops' =
      (operations.scripts ops ++ script_checks id exec checks)%list.
Proof.
  revert ops ops' checks'.
  induction checks as [|check rest IH]; intros ops ops' checks' Hrun.
  - cbn in Hrun. injection Hrun as <- <-. split_and!; try done.
    + exists []. by rewrite app_nil_r.
    + unfold script_checks. destruct exec; by rewrite app_nil_r.
  - cbn [serviceRegs_checks] in Hrun.
    destruct (serviceRegs_check _ _ _ _ _ _) as [[[e|] ops1] check1] eqn:Hone; [done|].
    apply serviceRegs_check_ok in Hone
      as (-> & Hrs1 & Hds1 & Hdc1 & (reg & Hrc1 & Hid & Hsid) & Hsc1).
    destruct (serviceRegs_checks _ _ _ _ _ _) as [[e ops2] rest2] eqn:Hrest.
    injection Hrun as -> <- <-.
    apply IH in Hrest as (-> & Hrs2 & Hds2 & Hdc2 & (regs & Hrc2 & Hids & Hsids) & Hsc2).
    split_and!; try congruence; [done|..].
    + exists (reg :: regs). split_and!.
      * by rewrite Hrc2, Hrc1, <- app_assoc.
      * cbn. by rewrite Hid, Hids.
      * by constructor.
    + by rewrite Hsc2, Hsc1, script_checks_cons, <- app_assoc.
Qed.

Lemma serviceRegs_ok ops allocID service exec taskName resources ops' service' :
  serviceRegs ops allocID service exec taskName resources = (None, ops', service') →
  service' = with_default_protocols service
  ∧ operations.regServices ops' =
      (operations.regServices ops
       ++ [task_service_reg allocID taskName resources service])%list
  ∧ operations.deregServices ops' = operations.deregServices ops
  ∧ operations.deregChecks ops' = operations.deregChecks ops
  ∧ (∃ regs, operations.regChecks ops' = (operations.regChecks ops ++ regs)%list
             ∧ AgentCheckRegistration.ID <$> regs
               = task_check_ids allocID taskName service
             ∧ Forall (λ reg, AgentCheckRegistration.ServiceID reg
                              = makeTaskServiceID allocID taskName service) regs)
  ∧ operations.scripts ops' =
      (operations.scripts ops
       ++ script_checks (makeTaskServiceID allocID taskName service) exec
            (Service.Checks service))%list.
Proof.
  unfold serviceRegs, task_service_reg.
  destruct (FindHostAndPortFor _ _) as [host port].
  destruct (serviceRegs_checks _ _ _ _ _ _) as [[e ops1] checks1] eqn:Hchecks.
  intros [= -> <- <-].
  apply serviceRegs_checks_ok in Hchecks as (-> & Hrs & Hds & Hdc & Hrc & Hsc).
  split_and!; try done.
Qed.

Lemma RegisterTask_services_ok ops allocID exec taskName resources services
    ops' services' :
  RegisterTask_services ops allocID exec taskName resources services
    = (None, ops', services') →
  services' = with_default_protocols <$> services
  ∧ operations.regServices ops' =
      (operations.regServices ops
       ++ (task_service_reg allocID taskName resources <$> services))%list
  ∧ operations.deregServices ops' = operations.deregServices ops
  ∧ operations.deregChecks ops' = operations.deregChecks ops
  ∧ (∃ regs, operations.regChecks ops' = (operations.regChecks ops ++ regs)%list
             ∧ AgentCheckRegistration.ID <$> regs
               = services ≫= task_check_ids allocID taskName)
  ∧ operations.scripts ops' =
      (operations.scripts ops
       ++ (services ≫= λ service,
             script_checks (makeTaskServiceID allocID taskName service) exec
               (Service.Checks service)))%list.
Proof.
  revert ops ops' services'.
  induction services as [|service rest IH]; intros ops ops' services' Hrun.
  - cbn in Hrun. injection Hrun as <- <-. split_and!; try done;
      rewrite ?app_nil_r; try done. exists []. by rewrite app_nil_r.
  - cbn [RegisterTask_services] in Hrun.
    destruct (serviceRegs _ _ _ _ _ _) as [[[e|] ops1] service1] eqn:Hone; [done|].
    apply serviceRegs_ok in Hone
      as (-> & Hrs1 & Hds1 & Hdc1 & (regs1 & Hrc1 & Hids1 & _) & Hsc1).
    destruct (RegisterTask_services _ _ _ _ _ _) as [[e ops2] rest2] eqn:Hrest.
    injection Hrun as -> <- <-.
    apply IH in Hrest as (-> & Hrs2 & Hds2 & Hdc2 & (regs2 & Hrc2 & Hids2) & Hsc2).
    split_and!; try congruence; [done|..].
    + by rewrite Hrs2, Hrs1, <- app_assoc.
    + exists (regs1 ++ regs2)%list. split.
      * by rewrite Hrc2, Hrc1, <- app_assoc.
      * by rewrite fmap_app, Hids1, Hids2.
    + by rewrite Hsc2, Hsc1, <- app_assoc.
Qed.

(** The batch of [RemoveTask]: nothing but deregistrations, of every
    service and every check of the task. *)
Lemma RemoveTask_ops_shape allocID task :
  operations.regServices (RemoveTask_ops allocID task) = []
  ∧ operations.regChecks (RemoveTask_ops allocID task) = []
  ∧ operations.scripts (RemoveTask_ops allocID task) = []
  ∧ operations.deregServices (RemoveTask_ops allocID task)
    = makeTaskServiceID allocID (Task.Name task) <$> Task.Services task
  ∧ operations.deregChecks (RemoveTask_ops allocID task)
    = Task.Services task ≫= task_check_ids allocID (Task.Name task).
Proof.
  unfold RemoveTask_ops.
  set (step := λ ops service, foldl _ _ _).
  assert (∀ services ops,
            let ops' := foldl step ops services in
            operations.regServices ops' = operations.regServices ops
            ∧ operations.regChecks ops' = operations.regChecks ops
            ∧ operations.scripts ops' = operations.scripts ops
            ∧ operations.deregServices ops'
              = (operations.deregServices ops
                 ++ (makeTaskServiceID allocID (Task.Name task) <$> services))%list
            ∧ operations.deregChecks ops'
              = (operations.deregChecks ops
                 ++ (services ≫= task_check_ids allocID (Task.Name task)))%list)
    as Hfold.
  { induction services as [|service rest IH]; intros ops; cbn zeta.
    - cbn. rewrite !app_nil_r. done.
    - cbn [foldl]. destruct (IH (step ops service)) as (-> & -> & -> & -> & ->).
      assert (∀ checks ops1,
                let ops' := foldl (λ ops check,
                  operations.add_deregCheck
                    (createCheckID (makeTaskServiceID allocID (Task.Name task) service)
                       check) ops) ops1 checks in
                operations.regServices ops' = operations.regServices ops1
                ∧ operations.regChecks ops' = operations.regChecks ops1
                ∧ operations.scripts ops' = operations.scripts ops1
                ∧ operations.deregServices ops' = operations.deregServices ops1
                ∧ operations.deregChecks ops'
                  = (operations.deregChecks ops1
                     ++ (createCheckID
                           (makeTaskServiceID allocID (Task.Name task) service)
                           <$> checks))%list) as Hinner.
      { induction checks as [|check checks IHc]; intros ops1; cbn zeta.
        - cbn. by rewrite app_nil_r.
        - cbn [foldl]. destruct (IHc (operations.add_deregCheck
            (createCheckID (makeTaskServiceID allocID (Task.Name task) service) check)
            ops1)) as (-> & -> & -> & -> & ->).
          cbn. by rewrite <- app_assoc. }
      unfold step at 1 2 3 4 5.
      destruct (Hinner (Service.Checks service)
                  (operations.add_deregService
                     (makeTaskServiceID allocID (Task.Name task) service) ops))
        as (-> & -> & -> & -> & ->).
      cbn. rewrite <- !app_assoc. done. }
  destruct (Hfold (Task.Services task) operations.empty) as (-> & -> & -> & -> & ->).
  done.
Qed.

(** X17: the batch of a registration.  When [RegisterTask]'s translation
    of a task succeeds, the batch holds one service registration for
    every service of the task, in order, under the task service ID,
    with the service's name and tags and the address and port that its
    port label resolves to; one check registration for every check,
    in order, under the check's ID; one script check for every check
    of type script, with the same ID and the executor; and no
    deregistration. *)
Theorem RegisterTask_batch allocID exec taskName resources services ops services' :
  RegisterTask_services operations.empty allocID exec taskName resources services
    = (None, ops, services') →
  operations.regServices ops
    = task_service_reg allocID taskName resources <$> services
  ∧ AgentCheckRegistration.ID <$> operations.regChecks ops
    = services ≫= task_check_ids allocID taskName
  ∧ operations.scripts ops
    = services ≫= (λ service,
        script_checks (makeTaskServiceID allocID taskName service) exec
          (Service.Checks service))
  ∧ operations.deregServices ops = []
  ∧ operations.deregChecks ops = [].
Proof.
  intros Hrun.
  apply RegisterTask_services_ok in Hrun
    as (_ & Hrs & Hds & Hdc & (regs & Hrc & Hids) & Hsc).
  cbn in *. by subst.
Qed.

(** X18: what a registration writes into the task.  [RegisterTask] that
    returns nil leaves the task as it was, except that every HTTP
    check that had no protocol now has the protocol http. *)
Theorem RegisterTask_writes_default_protocol pick allocID task exec c c' task' :
  RegisterTask pick allocID task exec c = Some (None, c', task') →
  task' = Task.set_Services (with_default_protocols <$> Task.Services task) task.
Proof.
  unfold RegisterTask.
  destruct (RegisterTask_services _ _ _ _ _ _) as [[[e|] ops] services1] eqn:Hrun;
    [done|].
  apply RegisterTask_services_ok in Hrun as (-> & _).
  destruct (commit pick ops c) as [[b c1]|]; [|done]. by intros [= <- <-].
Qed.

(** The IDs depend on the name and the tags of a service only, and the
    translator writes neither. *)
Lemma RemoveTask_ops_registered allocID (task : Task.t) :
  let task' :=
    Task.set_Services (with_default_protocols <$> Task.Services task) task in
  operations.deregServices (RemoveTask_ops allocID task')
    = makeTaskServiceID allocID (Task.Name task) <$> Task.Services task
  ∧ operations.deregChecks (RemoveTask_ops allocID task')
    = Task.Services task ≫= (λ service,
        (λ check,
           createCheckID (makeTaskServiceID allocID (Task.Name task) service)
             (with_default_protocol check)) <$> Service.Checks service).
Proof.
  cbn zeta.
  destruct (RemoveTask_ops_shape allocID
              (Task.set_Services (with_default_protocols <$> Task.Services task)
                 task)) as (_ & _ & _ & -> & ->).
  cbn [Task.set_Services Task.Name Task.Services].
  generalize (Task.Name task). intros taskName.
  induction (Task.Services task) as [|service rest [IHs IHc]]; [done|].
  split.
  - cbn [fmap list_fmap] in *. by rewrite IHs.
  - cbn [fmap list_fmap mbind list_bind] in *. rewrite IHc. f_equal.
    unfold task_check_ids, with_default_protocols.
    cbn [Service.set_Checks Service.Checks].
    by rewrite <- list_fmap_compose.
Qed.

(** X19: removal undoes registration, when the check IDs allow it.  Take
    the task as a successful [RegisterTask] leaves it to its caller.
    The batch of [RemoveTask] for it registers nothing and deregisters
    exactly the service IDs that the batch of the registration
    registers, in the same order; merged after the registration into a
    store that held none of these IDs, it leaves the services of the
    store as they were before both.  The check IDs it deregisters are
    those of the checks as the registration left them, with the
    default protocol written in.  They are the check IDs that were
    registered when writing the default protocol into a check does not
    change its ID; then the checks of the store are back as they were
    as well. *)
Theorem RemoveTask_undoes_RegisterTask allocID exec (task : Task.t) ops services' c :
  RegisterTask_services operations.empty allocID exec (Task.Name task)
    (Task.Resources_ task) (Task.Services task) = (None, ops, services') →
  let removal := RemoveTask_ops allocID (Task.set_Services services' task) in
  operations.regServices removal = []
  ∧ operations.regChecks removal = []
  ∧ operations.deregServices removal
    = AgentServiceRegistration.ID <$> operations.regServices ops
  ∧ ((∀ reg, reg ∈ operations.regServices ops →
        ServiceClient.services c !! AgentServiceRegistration.ID reg = None) →
     ServiceClient.services (merge removal (merge ops c))
       = ServiceClient.services c)
  ∧ operations.deregChecks removal
    = Task.Services task ≫= (λ service,
        (λ check,
           createCheckID (makeTaskServiceID allocID (Task.Name task) service)
             (with_default_protocol check)) <$> Service.Checks service)
  ∧ ((∀ service check,
        service ∈ Task.Services task → check ∈ Service.Checks service →
        createCheckID (makeTaskServiceID allocID (Task.Name task) service)
          (with_default_protocol check)
        = createCheckID (makeTaskServiceID allocID (Task.Name task) service) check) →
     operations.deregChecks removal
       = AgentCheckRegistration.ID <$> operations.regChecks ops
     ∧ ((∀ reg, reg ∈ operations.regChecks ops →
           ServiceClient.checks c !! AgentCheckRegistration.ID reg = None) →
        ServiceClient.checks (merge removal (merge ops c))
          = ServiceClient.checks c)).
Proof.
  intros Hrun. cbn zeta.
  apply RegisterTask_services_ok in Hrun
    as (-> & Hrs & Hds & Hdc & (regs & Hrc & Hids) & Hsc).
  cbn in Hrs, Hds, Hdc, Hrc, Hsc. subst regs.
  set (task' := Task.set_Services (with_default_protocols <$> Task.Services task)
                  task).
  destruct (RemoveTask_ops_shape allocID task') as (Hrs' & Hrc' & Hsc' & _ & _).
  destruct (RemoveTask_ops_registered allocID task) as [Hds' Hdc'].
  fold task' in Hds', Hdc'.
  assert (operations.deregServices (RemoveTask_ops allocID task')
          = AgentServiceRegistration.ID <$> operations.regServices ops) as Hsame.
  { rewrite Hds', Hrs, <- list_fmap_compose. done. }
  split_and!; try done.
  - intros Hfresh. apply map_eq. intros k.
    rewrite merge_services, Hrs', Hsame.
    destruct (decide (k ∈ AgentServiceRegistration.ID <$> operations.regServices ops))
      as [Hin|Hnin].
    + apply list_elem_of_fmap in Hin as (reg & -> & Hreg). by rewrite Hfresh.
    + cbn. rewrite merge_services, Hds, decide_False by set_solver.
      destruct (last_reg _ _ _) as [s|] eqn:Hlast; [|done].
      apply last_reg_Some in Hlast as [Hin <-]. exfalso. apply Hnin.
      apply list_elem_of_fmap. by exists s.
  - intros Hstable.
    assert (operations.deregChecks (RemoveTask_ops allocID task')
            = AgentCheckRegistration.ID <$> operations.regChecks ops) as Hsamec.
    { rewrite Hdc', Hids. clear -Hstable.
      induction (Task.Services task) as [|service rest IH]; [done|].
      cbn [mbind list_bind]. f_equal.
      - unfold task_check_ids. apply list_fmap_ext. intros i check Hi.
        apply Hstable; [left|]. by eapply list_elem_of_lookup_2.
      - apply IH. intros service' check Hs Hc. apply Hstable; [by right|done]. }
    split; [done|].
    intros Hfresh. apply map_eq. intros k.
    rewrite merge_checks, Hrc', Hsamec.
    destruct (decide (k ∈ AgentCheckRegistration.ID <$> operations.regChecks ops))
      as [Hin|Hnin].
    + apply list_elem_of_fmap in Hin as (reg & -> & Hreg). by rewrite Hfresh.
    + cbn. rewrite merge_checks, Hdc, decide_False by set_solver.
      destruct (last_reg _ _ _) as [s|] eqn:Hlast; [|done].
      apply last_reg_Some in Hlast as [Hin <-]. exfalso. apply Hnin.
      apply list_elem_of_fmap. by exists s.
Qed.

End TaskBatches.

Section ScriptErrors.
Context `{Externals} `{MapRange}.

Implicit Types (c : ServiceClient.t) (ops : operations.t).

Lemma serviceRegs_check_error id serviceReg exec resources ops check err ops' check' :
  serviceRegs_check id serviceReg exec resources ops check = (Some err, ops', check') →
  task_error err.
Proof.
  unfold serviceRegs_check.
  assert (∀ ops0,
            (let '(host, port) :=
               if negb (String.eqb (ServiceCheck.PortLabel check) "")
               then FindHostAndPortFor resources (ServiceCheck.PortLabel check)
               else (AgentServiceRegistration.Address serviceReg,
                     AgentServiceRegistration.Port serviceReg) in
             match createCheckReg id (createCheckID id check) check host port with
             | (inr err, check) =>
                 (Some (ErrorfWrap "failed to add check %q: %v"
                          [ServiceCheck.Name check] err), ops0, check)
             | (inl checkReg, check) =>
                 (None, operations.add_regCheck checkReg ops0, check)
             end) = (Some err, ops', check') → task_error err) as Hrest.
  { intros ops0. destruct (if negb _ then _ else _) as [host port].
    destruct (createCheckReg _ _ _ _ _) as [[reg|e] check1]; [done|].
    intros [= <- <- <-]. right. by eexists _, _. }
  destruct (String.eqb (ServiceCheck.Type_ check) ServiceCheckScript).
  - destruct exec as [exec|]; [by apply Hrest|]. intros [= <- <- <-]. by left.
  - by apply Hrest.
Qed.

Lemma serviceRegs_checks_script id serviceReg resources ops checks check :
  check ∈ checks →
  ServiceCheck.Type_ check = ServiceCheckScript →
  ∃ err, (serviceRegs_checks id serviceReg None resources ops checks).1.1 = Some err
         ∧ task_error err.
Proof.
  intros Hin Htype. revert ops.
  induction checks as [|check0 rest IH]; intros ops; [by apply elem_of_nil in Hin|].
  cbn [serviceRegs_checks].
  destruct (serviceRegs_check _ _ _ _ _ check0) as [[[e|] ops1] check1] eqn:Hone.
  - exists e. split; [done|]. by eapply serviceRegs_check_error.
  - apply elem_of_cons in Hin as [->|Hin].
    + unfold serviceRegs_check in Hone. rewrite Htype in Hone. done.
    + destruct (IH Hin ops1) as (err & Herr & Hshape).
      destruct (serviceRegs_checks _ _ _ _ _ rest) as [[e ops2] rest2].
      cbn in *. by exists err.
Qed.

Lemma serviceRegs_error ops allocID service exec taskName resources err ops' service' :
  serviceRegs ops allocID service exec taskName resources = (Some err, ops', service') →
  task_error err.
Proof.
  unfold serviceRegs. destruct (FindHostAndPortFor _ _) as [host port].
  match goal with |- context [serviceRegs_checks ?id ?reg ?e ?res ?o ?cs] =>
    generalize cs; generalize o end.
  intros ops0 checks. revert ops0.
  assert (∀ ops0 e ops1 checks1,
            serviceRegs_checks (makeTaskServiceID allocID taskName service)
              (AgentServiceRegistration.mk (makeTaskServiceID allocID taskName service)
                 (Service.Name service) (Service.Tags service) host port)
              exec resources ops0 checks = (Some e, ops1, checks1) →
            task_error e) as Hchecks.
  { induction checks as [|check rest IH]; intros ops0 e ops1 checks1; [done|].
    cbn [serviceRegs_checks].
    destruct (serviceRegs_check _ _ _ _ _ _) as [[[e0|] ops2] check2] eqn:Hone.
    - intros [= <- <- <-]. by eapply serviceRegs_check_error.
    - destruct (serviceRegs_checks _ _ _ _ _ rest) as [[e1 ops3] rest3] eqn:Hrest.
      intros [= -> <- <-]. by eapply IH. }
  intros ops0.
  destruct (serviceRegs_checks _ _ _ _ _ _) as [[e ops1] checks1] eqn:Hrun.
  intros [= -> <- <-]. by eapply Hchecks.
Qed.

Lemma RegisterTask_services_script ops allocID taskName resources services
    service check :
  service ∈ services →
  check ∈ Service.Checks service →
  ServiceCheck.Type_ check = ServiceCheckScript →
  ∃ err, (RegisterTask_services ops allocID None taskName resources services).1.1
           = Some err
         ∧ task_error err.
Proof.
  intros Hin Hcheck Htype. revert ops.
  induction services as [|service0 rest IH]; intros ops; [by apply elem_of_nil in Hin|].
  cbn [RegisterTask_services].
  destruct (serviceRegs _ _ service0 _ _ _) as [[[e|] ops1] service1] eqn:Hone.
  - exists e. split; [done|]. by eapply serviceRegs_error.
  - apply elem_of_cons in Hin as [->|Hin].
    + exfalso. unfold serviceRegs in Hone.
      destruct (FindHostAndPortFor _ _) as [host port].
      match type of Hone with context [serviceRegs_checks ?id ?reg ?e ?res ?o ?cs] =>
        destruct (serviceRegs_checks_script id reg res o cs check Hcheck Htype)
          as (err & Herr & _);
        destruct (serviceRegs_checks id reg e res o cs) as [[e1 ops2] checks2] end.
      cbn in Herr. by simplify_eq.
    + destruct (IH Hin ops1) as (err & Herr & Hshape).
      destruct (RegisterTask_services _ _ _ _ _ rest) as [[e ops2] rest2].
      cbn in *. by exists err.
Qed.

(** X20: a script check needs an executor.  [RegisterTask] of a task that
    has a check of type script, called without an executor, returns an
    error, whatever else the task holds and whatever the state of the
    queue: it does not block, nothing is enqueued and the client is as
    before.  The error is that the driver does not support script
    checks, unless an earlier check of the task failed to translate. *)
Theorem RegisterTask_needs_executor pick allocID (task : Task.t) c service check :
  service ∈ Task.Services task →
  check ∈ Service.Checks service →
  ServiceCheck.Type_ check = ServiceCheckScript →
  ∃ err task',
    RegisterTask pick allocID task None c = Some (Some err, c, task')
    ∧ (err = Errorf "driver doesn't support script checks" []
       ∨ ∃ name cause, err = ErrorfWrap "failed to add check %q: %v" [name] cause).
Proof.
  intros Hin Hcheck Htype. unfold RegisterTask.
  destruct (RegisterTask_services_script operations.empty allocID (Task.Name task)
              (Task.Resources_ task) (Task.Services task) service check
              Hin Hcheck Htype) as (err & Herr & Hshape).
  destruct (RegisterTask_services _ _ _ _ _ _) as [[e ops] services1].
  cbn in Herr. subst e. by eexists _, _.
Qed.

End ScriptErrors.

Section AgentBatches.
Context `{Externals} `{MapRange}.

Implicit Types (c : ServiceClient.t) (ops : operations.t).

Lemma RegisterAgent_checks_script id serviceReg service ops checks check :
  check ∈ checks →
  ServiceCheck.Type_ check = ServiceCheckScript →
  is_Some (RegisterAgent_checks id serviceReg service ops checks).1.1.
Proof.
  intros Hin Htype. revert ops.
  induction checks as [|check0 rest IH]; intros ops; [by apply elem_of_nil in Hin|].
  cbn [RegisterAgent_checks].
  destruct (RegisterAgent_check _ _ _ _ check0) as [[[e|] ops1] check1] eqn:Hone.
  - by eexists.
  - apply elem_of_cons in Hin as [->|Hin].
    + unfold RegisterAgent_check in Hone. rewrite Htype in Hone. done.
    + specialize (IH Hin ops1).
      by destruct (RegisterAgent_checks _ _ _ _ rest) as [[e ops2] rest2].
Qed.

Lemma RegisterAgent_services_script role ops services service check :
  service ∈ services →
  check ∈ Service.Checks service →
  ServiceCheck.Type_ check = ServiceCheckScript →
  is_Some (RegisterAgent_services role ops services).1.1.
Proof.
  intros Hin Hcheck Htype. revert ops.
  induction services as [|service0 rest IH]; intros ops; [by apply elem_of_nil in Hin|].
  cbn [RegisterAgent_services].
  destruct (RegisterAgent_service _ _ service0) as [[[e|] ops1] service1] eqn:Hone.
  - by eexists.
  - apply elem_of_cons in Hin as [->|Hin].
    + exfalso. unfold RegisterAgent_service in Hone.
      destruct (net_SplitHostPort _) as [[host rawport]|e]; [|done].
      destruct (strconv_Atoi rawport) as [port|e]; [|done].
      match type of Hone with context [RegisterAgent_checks ?id ?reg ?sv ?o ?cs] =>
        pose proof (RegisterAgent_checks_script id reg sv o cs check Hcheck Htype)
          as [err Herr];
        destruct (RegisterAgent_checks id reg sv o cs) as [[e1 ops2] checks2] end.
      cbn in Herr. by simplify_eq.
    + specialize (IH Hin ops1).
      by destruct (RegisterAgent_services _ _ rest) as [[e ops2] rest2].
Qed.

(** X21: agents have no script checks.  [RegisterAgent] with a service
    that has a check of type script returns an error, whatever the
    state of the queue: it does not block, nothing is enqueued, no ID
    is recorded for shutdown and the client is as before. *)
Theorem RegisterAgent_rejects_scripts pick role services c service check :
  service ∈ services →
  check ∈ Service.Checks service →
  ServiceCheck.Type_ check = ServiceCheckScript →
  ∃ err services', RegisterAgent pick role services c = Some (Some err, c, services').
Proof.
  intros Hin Hcheck Htype. unfold RegisterAgent.
  destruct (RegisterAgent_services_script role operations.empty services service check
              Hin Hcheck Htype) as [err Herr].
  destruct (RegisterAgent_services _ _ _) as [[e ops] services1].
  cbn in Herr. subst e. by eexists _, _.
Qed.

(** The IDs of the registrations of a successful translation. *)
Lemma RegisterAgent_check_ok id serviceReg service ops check ops' check' :
  RegisterAgent_check id serviceReg service ops check = (None, ops', check') →
  operations.regServices ops' = operations.regServices ops
  ∧ ∃ reg, operations.regChecks ops' = (operations.regChecks ops ++ [reg])%list
           ∧ AgentCheckRegistration.ID reg = createCheckID id check.
Proof.
  unfold RegisterAgent_check.
  destruct (String.eqb (ServiceCheck.Type_ check) ServiceCheckScript); [done|].
  match goal with |- context [match ?a with inl _ => _ | inr _ => _ end] =>
    destruct a as [[checkHost checkPort]|err] end; [|done].
  destruct (createCheckReg _ _ _ _ _) as [[reg|err] check1] eqn:Hreg; [|done].
  intros [= <- <-]. apply createCheckReg_ids in Hreg as [Hid _].
  split; [done|]. by exists reg.
Qed.

Lemma RegisterAgent_checks_ok id serviceReg service ops checks ops' checks' :
  RegisterAgent_checks id serviceReg service ops checks = (None, ops', checks') →
  operations.regServices ops' = operations.regServices ops
  ∧ ∃ regs, operations.regChecks ops' = (operations.regChecks ops ++ regs)%list
            ∧ AgentCheckRegistration.ID <$> regs = createCheckID id <$> checks.
Proof.
  revert ops ops' checks'.
  induction checks as [|check rest IH]; intros ops ops' checks' Hrun.
  - cbn in Hrun. injection Hrun as <- <-. split; [done|].
    exists []. by rewrite app_nil_r.
  - cbn [RegisterAgent_checks] in Hrun.
    destruct (RegisterAgent_check _ _ _ _ _) as [[[e|] ops1] check1] eqn:Hone; [done|].
    apply RegisterAgent_check_ok in Hone as (Hrs1 & reg & Hrc1 & Hid).
    destruct (RegisterAgent_checks _ _ _ _ _) as [[e ops2] rest2] eqn:Hrest.
    injection Hrun as -> <- <-.
    apply IH in Hrest as (Hrs2 & regs & Hrc2 & Hids).
    split; [congruence|]. exists (reg :: regs). split.
    + by rewrite Hrc2, Hrc1, <- app_assoc.
    + cbn. by rewrite Hid, Hids.
Qed.

Lemma RegisterAgent_services_ok role ops services ops' services' :
  RegisterAgent_services role ops services = (None, ops', services') →
  (∃ regs, operations.regServices ops' = (operations.regServices ops ++ regs)%list
           ∧ AgentServiceRegistration.ID <$> regs
             = makeAgentServiceID role <$> services)
  ∧ ∃ regs, operations.regChecks ops' = (operations.regChecks ops ++ regs)%list
            ∧ AgentCheckRegistration.ID <$> regs
              = services ≫= (λ service,
                  createCheckID (makeAgentServiceID role service)
                    <$> Service.Checks service).
Proof.
  revert ops ops' services'.
  induction services as [|service rest IH]; intros ops ops' services' Hrun.
  - cbn in Hrun. injection Hrun as <- <-.
    split; exists []; by rewrite app_nil_r.
  - cbn [RegisterAgent_services] in Hrun.
    destruct (RegisterAgent_service _ _ _) as [[[e|] ops1] service1] eqn:Hone; [done|].
    destruct (RegisterAgent_services _ _ _) as [[e ops2] rest2] eqn:Hrest.
    injection Hrun as -> <- <-.
    apply IH in Hrest as ((regs2 & Hrs2 & Hids2) & (cregs2 & Hrc2 & Hcids2)).
    unfold RegisterAgent_service in Hone.
    destruct (net_SplitHostPort _) as [[host rawport]|e]; [|done].
    destruct (strconv_Atoi rawport) as [port|e]; [|done].
    destruct (RegisterAgent_checks _ _ _ _ _) as [[e ops3] checks3] eqn:Hchecks.
    injection Hone as -> <- <-.
    apply RegisterAgent_checks_ok in Hchecks as (Hrs1 & cregs1 & Hrc1 & Hcids1).
    cbn in Hrs1, Hrc1. split.
    + eexists (_ :: regs2). split.
      * rewrite Hrs2, Hrs1, <- app_assoc. reflexivity.
      * cbn. by rewrite Hids2.
    + exists (cregs1 ++ cregs2)%list. split.
      * by rewrite Hrc2, Hrc1, <- app_assoc.
      * by rewrite fmap_app, Hcids1, Hcids2.
Qed.

Lemma record_agentServices_lookup {A} (f : A → string) l c k :
  ServiceClient.agentServices
    (foldl (λ c a, ServiceClient.set_agentServices
                     (<[f a := ()]> (ServiceClient.agentServices c)) c) c l) !! k
  = if decide (k ∈ f <$> l) then Some () else ServiceClient.agentServices c !! k.
Proof.
  revert c. induction l as [|a l IH]; intros c.
  - by rewrite decide_False by set_solver.
  - cbn [foldl]. rewrite IH. cbn. destruct (decide (k ∈ f <$> l)).
    + by rewrite decide_True by set_solver.
    + destruct (decide (k = f a)) as [->|Hne].
      * rewrite decide_True by set_solver. by rewrite lookup_insert_eq.
      * rewrite decide_False by set_solver. by rewrite lookup_insert_ne.
Qed.

Lemma record_agentChecks_lookup {A} (f : A → string) l c k :
  ServiceClient.agentChecks
    (foldl (λ c a, ServiceClient.set_agentChecks
                     (<[f a := ()]> (ServiceClient.agentChecks c)) c) c l) !! k
  = if decide (k ∈ f <$> l) then Some () else ServiceClient.agentChecks c !! k.
Proof.
  revert c. induction l as [|a l IH]; intros c.
  - by rewrite decide_False by set_solver.
  - cbn [foldl]. rewrite IH. cbn. destruct (decide (k ∈ f <$> l)).
    + by rewrite decide_True by set_solver.
    + destruct (decide (k = f a)) as [->|Hne].
      * rewrite decide_True by set_solver. by rewrite lookup_insert_eq.
      * rewrite decide_False by set_solver. by rewrite lookup_insert_ne.
Qed.

Lemma record_agentServices_agentChecks {A} (f : A → string) l c :
  ServiceClient.agentChecks
    (foldl (λ c a, ServiceClient.set_agentServices
                     (<[f a := ()]> (ServiceClient.agentServices c)) c) c l)
  = ServiceClient.agentChecks c
  ∧ ServiceClient.opCh
      (foldl (λ c a, ServiceClient.set_agentServices
                       (<[f a := ()]> (ServiceClient.agentServices c)) c) c l)
    = ServiceClient.opCh c.
Proof. revert c. induction l as [|a l IH]; intros c; [done|]. cbn [foldl]. by rewrite !(proj1 (IH _)), !(proj2 (IH _)). Qed.

Lemma record_agentChecks_agentServices {A} (f : A → string) l c :
  ServiceClient.agentServices
    (foldl (λ c a, ServiceClient.set_agentChecks
                     (<[f a := ()]> (ServiceClient.agentChecks c)) c) c l)
  = ServiceClient.agentServices c
  ∧ ServiceClient.opCh
      (foldl (λ c a, ServiceClient.set_agentChecks
                       (<[f a := ()]> (ServiceClient.agentChecks c)) c) c l)
    = ServiceClient.opCh c.
Proof. revert c. induction l as [|a l IH]; intros c; [done|]. cbn [foldl]. by rewrite !(proj1 (IH _)), !(proj2 (IH _)). Qed.

(** The batch of [Shutdown]. *)
Lemma Shutdown_ops_shape seed c :
  let ops :=
    foldl (λ ops '(id, _), operations.add_deregCheck id ops)
      (foldl (λ ops '(id, _), operations.add_deregService id ops)
             operations.empty (range seed (ServiceClient.agentServices c)))
      (range (S seed) (ServiceClient.agentChecks c)) in
  operations.regServices ops = [] ∧ operations.regChecks ops = []
  ∧ operations.scripts ops = []
  ∧ operations.deregServices ops = (range seed (ServiceClient.agentServices c)).*1
  ∧ operations.deregChecks ops = (range (S seed) (ServiceClient.agentChecks c)).*1.
Proof.
  cbn zeta.
  assert (∀ (l : list (string * ())) ops,
            let ops' := foldl (λ ops '(id, _), operations.add_deregService id ops) ops l in
            operations.regServices ops' = operations.regServices ops
            ∧ operations.regChecks ops' = operations.regChecks ops
            ∧ operations.scripts ops' = operations.scripts ops
            ∧ operations.deregServices ops' = (operations.deregServices ops ++ l.*1)%list
            ∧ operations.deregChecks ops' = operations.deregChecks ops) as Hs.
  { induction l as [|[id []] l IH]; intros ops; cbn zeta.
    - cbn. by rewrite app_nil_r.
    - cbn [foldl]. destruct (IH (operations.add_deregService id ops))
        as (-> & -> & -> & -> & ->). cbn. by rewrite <- app_assoc. }
  assert (∀ (l : list (string * ())) ops,
            let ops' := foldl (λ ops '(id, _), operations.add_deregCheck id ops) ops l in
            operations.regServices ops' = operations.regServices ops
            ∧ operations.regChecks ops' = operations.regChecks ops
            ∧ operations.scripts ops' = operations.scripts ops
            ∧ operations.deregServices ops' = operations.deregServices ops
            ∧ operations.deregChecks ops' = (operations.deregChecks ops ++ l.*1)%list) as Hc.
  { induction l as [|[id []] l IH]; intros ops; cbn zeta.
    - cbn. by rewrite app_nil_r.
    - cbn [foldl]. destruct (IH (operations.add_deregCheck id ops))
        as (-> & -> & -> & -> & ->). cbn. by rewrite <- app_assoc. }
  match goal with |- context [foldl ?g (foldl ?g' ?o ?l') ?l] =>
    destruct (Hc l (foldl g' o l')) as (-> & -> & -> & -> & ->);
    destruct (Hs l' o) as (-> & -> & -> & -> & ->) end.
  done.
Qed.

(** X22: what [Shutdown] enqueues.  Called before shutdown has been
    signalled, [Shutdown] (when it does not block on a full queue)
    puts one batch at the end of the queue and closes the shutdown
    channel; the batch deregisters exactly the IDs recorded as the
    agent's own services and checks, each once, and registers
    nothing.  Called again, it returns at once and changes nothing. *)
Theorem Shutdown_deregisters_agent seed pick c c' :
  ServiceClient.shutdownCh c = false →
  Shutdown_signal seed pick c = Some c' →
  (∃ ops,
     c' = ServiceClient.set_shutdownCh true
            (ServiceClient.set_opCh (ServiceClient.opCh c ++ [ops]) c)
     ∧ operations.regServices ops = [] ∧ operations.regChecks ops = []
     ∧ operations.scripts ops = []
     ∧ operations.deregServices ops ≡ₚ (map_to_list (ServiceClient.agentServices c)).*1
     ∧ operations.deregChecks ops ≡ₚ (map_to_list (ServiceClient.agentChecks c)).*1)
  ∧ ∀ seed' pick', Shutdown_signal seed' pick' c' = Some c'.
Proof.
  intros Hsh. unfold Shutdown_signal at 1. rewrite Hsh.
  pose proof (Shutdown_ops_shape seed c) as Hshape. cbn zeta in Hshape.
  match type of Hshape with context [operations.regServices ?o] => set (ops := o) in * end.
  destruct Hshape as (Hrs & Hrc & Hsc & Hds & Hdc).
  unfold commit. rewrite Hsh. case_bool_decide; [|done].
  intros [= <-]. split.
  - exists ops. split_and!; try done.
    + by rewrite Hds, range_perm.
    + by rewrite Hdc, range_perm.
  - intros seed' pick'. unfold Shutdown_signal. done.
Qed.

(** X23: [Shutdown] undoes [RegisterAgent].  After a [RegisterAgent]
    that returned nil before shutdown was signalled, [Shutdown] (when
    it does not block) leaves two batches at the end of the queue: the
    agent's registrations, one service for every service given, under
    its agent service ID, and then a batch that deregisters the ID of
    every service and every check the first one registers. *)
Theorem Shutdown_undoes_RegisterAgent pick role services c c1 services'
    seed pick' c2 :
  ServiceClient.shutdownCh c = false →
  RegisterAgent pick role services c = Some (None, c1, services') →
  Shutdown_signal seed pick' c1 = Some c2 →
  ∃ registration removal,
    ServiceClient.opCh c2 = (ServiceClient.opCh c ++ [registration; removal])%list
    ∧ ServiceClient.shutdownCh c2 = true
    ∧ AgentServiceRegistration.ID <$> operations.regServices registration
      = makeAgentServiceID role <$> services
    ∧ (∀ reg, reg ∈ operations.regServices registration →
              AgentServiceRegistration.ID reg ∈ operations.deregServices removal)
    ∧ (∀ reg, reg ∈ operations.regChecks registration →
              AgentCheckRegistration.ID reg ∈ operations.deregChecks removal)
    ∧ operations.regServices removal = []
    ∧ operations.regChecks removal = [].
Proof.
  intros Hsh Hreg Hdown. unfold RegisterAgent in Hreg.
  destruct (RegisterAgent_services _ _ _) as [[[e|] ops] services1] eqn:Hrun; [done|].
  apply RegisterAgent_services_ok in Hrun as ((regs & Hrs & Hids) & _).
  cbn in Hrs. subst regs.
  unfold commit in Hreg. rewrite Hsh in Hreg.
  case_bool_decide; [|done].
  injection Hreg as <- <-.
  set (c0 := ServiceClient.set_opCh (ServiceClient.opCh c ++ [ops]) c) in *.
  set (cs := foldl _ c0 (operations.regServices ops)) in *.
  set (cc := foldl _ cs (operations.regChecks ops)) in *.
  assert (ServiceClient.shutdownCh cc = false) as Hshc.
  { pose proof (record_agentChecks_fields AgentCheckRegistration.ID
                  (operations.regChecks ops) cs) as [_ Hfc].
    pose proof (record_agentServices_fields AgentServiceRegistration.ID
                  (operations.regServices ops) c0) as [_ Hfs].
    cbn zeta in Hfc, Hfs. fold cs in Hfs. fold cc in Hfc. rewrite Hfc, Hfs. done. }
  assert (ServiceClient.opCh cc = (ServiceClient.opCh c ++ [ops])%list) as Hq.
  { unfold cc, cs. rewrite (proj2 (record_agentChecks_agentServices _ _ _)),
      (proj2 (record_agentServices_agentChecks _ _ _)). done. }
  unfold Shutdown_signal in Hdown. rewrite Hshc in Hdown.
  pose proof (Shutdown_ops_shape seed cc) as Hshape. cbn zeta in Hshape.
  match type of Hshape with context [operations.regServices ?o] => set (down := o) in * end.
  destruct Hshape as (Hrs' & Hrc' & _ & Hds' & Hdc').
  unfold commit in Hdown. rewrite Hshc in Hdown.
  case_bool_decide; [|done]. injection Hdown as <-.
  exists ops, down. split_and!; try done.
  - cbn. by rewrite Hq, <- app_assoc.
  - intros reg Hin. rewrite Hds'.
    assert (ServiceClient.agentServices cc !! AgentServiceRegistration.ID reg = Some ())
      as Hrec.
    { unfold cc. rewrite (proj1 (record_agentChecks_agentServices _ _ _)).
      unfold cs. rewrite record_agentServices_lookup, decide_True; [done|].
      apply list_elem_of_fmap. by exists reg. }
    apply list_elem_of_fmap. exists (AgentServiceRegistration.ID reg, ()).
    split; [done|]. by apply elem_of_range.
  - intros reg Hin. rewrite Hdc'.
    assert (ServiceClient.agentChecks cc !! AgentCheckRegistration.ID reg = Some ())
      as Hrec.
    { unfold cc. rewrite record_agentChecks_lookup, decide_True; [done|].
      apply list_elem_of_fmap. by exists reg. }
    apply list_elem_of_fmap. exists (AgentCheckRegistration.ID reg, ()).
    split; [done|]. by apply elem_of_range.
Qed.

End AgentBatches.

Section Blocking.
Context `{Externals} `{MapRange}.

Lemma commit_blocks pick (ops : operations.t) (c : ServiceClient.t) :
  commit pick ops c = None
  ↔ ServiceClient.shutdownCh c = false
    ∧ (opChCap ≤ length (ServiceClient.opCh c))%nat.
Proof.
  unfold commit. case_bool_decide as Hroom;
    destruct (ServiceClient.shutdownCh c), pick; split; try done;
    try (intros [_ ?]; lia); try (intros [? _]; done).
  all: intros _; split; [done|lia].
Qed.

(** X24: when a caller blocks.  The queue holds eight batches.  A call
    of [RemoveTask] or [Shutdown], or of [RegisterTask] with a task
    that translates, blocks exactly when the queue is full and
    shutdown has not been signalled; in every other state it returns. *)
Theorem callers_block_on_full_queue pick seed allocID (task : Task.t) exec
    (c : ServiceClient.t) :
  opChCap = 8%nat
  ∧ (RemoveTask pick allocID task c = None
     ↔ ServiceClient.shutdownCh c = false
       ∧ (8 ≤ length (ServiceClient.opCh c))%nat)
  ∧ (Shutdown_signal seed pick c = None
     ↔ ServiceClient.shutdownCh c = false
       ∧ (8 ≤ length (ServiceClient.opCh c))%nat)
  ∧ (RegisterTask pick allocID task exec c = None
     ↔ (RegisterTask_services operations.empty allocID exec (Task.Name task)
          (Task.Resources_ task) (Task.Services task)).1.1 = None
       ∧ ServiceClient.shutdownCh c = false
       ∧ (8 ≤ length (ServiceClient.opCh c))%nat).
Proof.
  split; [done|]. split_and!.
  - unfold RemoveTask. rewrite <- (commit_blocks pick (RemoveTask_ops allocID task) c).
    by destruct (commit _ _ _) as [[b c1]|].
  - unfold Shutdown_signal.
    destruct (ServiceClient.shutdownCh c) eqn:Hsh; [split; [done|by intros [? _]]|].
    match goal with |- context [commit pick ?o c] =>
      pose proof (commit_blocks pick o c) as Hb;
      destruct (commit pick o c) as [[b c1]|] end.
    + split; [done|]. intros Hfull. rewrite Hsh in Hb. by apply Hb in Hfull.
    + split; [|done]. intros _. rewrite Hsh in Hb. by apply Hb.
  - unfold RegisterTask.
    destruct (RegisterTask_services _ _ _ _ _ _) as [[[e|] ops] services1]; cbn [fst].
    + split; [done|]. by intros [? _].
    + pose proof (commit_blocks pick ops c) as Hb.
      destruct (commit pick ops c) as [[b c1]|].
      * split; [done|]. intros [_ Hfull]. by apply Hb in Hfull.
      * split; [|done]. intros _. split; [done|]. by apply Hb.
Qed.

End Blocking.

Section WorkerLaws.
Context `{Externals} {R : Type} `{AgentAPI R}.
Import Worker.

(** The first [select] takes the cancellation case only when the
    context is cancelled. *)
Lemma select_ctx_done e w :
  select e w = CaseCtxDone → ctx_done w || sleep_cancel e = true.
Proof.
  intros Hsel. destruct (ctx_done w) eqn:Hc; [done|].
  destruct (sleep_cancel e) eqn:Hs; [done|].
  by destruct (select_live e w Hc Hs).
Qed.

(** X25: a cancelled worker stops without a heartbeat.  A worker whose
    context has been cancelled by the time its [select] returns
    executes the script at most once more (with the cancelled context),
    sends no heartbeat, leaves the registry as it was, and returns. *)
Theorem worker_cancel_stops (e : Env) (w : t) (r : R) :
  done w = false →
  ctx_done w || sleep_cancel e = true →
  done (iteration e w r).1 = true
  ∧ heartbeats (since w (iteration e w r).1) = 0%nat
  ∧ (probes (since w (iteration e w r).1) ≤ 1)%nat
  ∧ (iteration e w r).2 = r.
Proof.
  intros Hlive Hcancel.
  pose proof (iteration_trace e w r Hlive) as Hit. cbn zeta in Hit.
  rewrite Hcancel in Hit. cbn [orb] in Hit.
  assert ((iteration e w r).2 = r) as Hr.
  { unfold iteration. destruct (select e w); [done|..];
      match goal with |- context [execute e ?w0 r] =>
        pose proof (execute_trace e w0 r Hlive) as Hex end;
      cbn zeta in Hex; cbn [flags emit ctx_done script] in Hex;
      rewrite Hcancel in Hex; cbn [orb] in Hex; destruct Hex as (_ & _ & Hex);
      exact Hex. }
  destruct (select e w); destruct Hit as [-> ->]; cbn; split_and!; try done; lia.
Qed.

(** X26: when the worker returns.  A live worker returns at the end of a
    turn exactly when its context has been cancelled or the shutdown
    channel closed by then, at whatever point of the turn; no exit
    code, executor error, timeout or failed heartbeat ends it. *)
Theorem worker_returns_when_told (e : Env) (w : t) (r : R) :
  done w = false →
  done (iteration e w r).1 =
    (ctx_done w || sleep_cancel e
     || match exec_ctx e with
        | CtxCanceled => true
        | CtxDeadlineExceeded cancelled_later => cancelled_later
        | CtxLive => false
        end
     || ttl_cancel e)
    || (shutdownCh w || sleep_shutdown e || exec_shutdown e || ttl_shutdown e).
Proof.
  intros Hlive.
  pose proof (iteration_trace e w r Hlive) as Hit. cbn zeta in Hit.
  pose proof (select_ctx_done e w) as Hsel.
  destruct (select e w).
  - destruct Hit as [_ ->]. by rewrite Hsel.
  - destruct (ctx_done w || sleep_cancel e) eqn:Hc; cbn [orb] in Hit |- *.
    + by destruct Hit as [_ ->].
    + destruct (exec_ctx e) as [| |later]; cbn [orb] in Hit |- *;
        destruct Hit as [_ ->]; cbn [orb]; by rewrite ?orb_assoc.
  - destruct (ctx_done w || sleep_cancel e) eqn:Hc; cbn [orb] in Hit |- *.
    + by destruct Hit as [_ ->].
    + destruct (exec_ctx e) as [| |later]; cbn [orb] in Hit |- *;
        destruct Hit as [_ ->]; cbn [orb]; by rewrite ?orb_assoc.
Qed.

(** X27: one turn, one execution.  In a turn of its loop a live worker
    executes the script at most once and sends at most one heartbeat,
    and none without having executed the script.  The registry
    receives the heartbeat, or, when none is sent, nothing. *)
Theorem worker_turn_shape (e : Env) (w : t) (r : R) :
  done w = false →
  let tr := since w (iteration e w r).1 in
  (heartbeats tr ≤ probes tr ≤ 1)%nat
  ∧ (iteration e w r).2 =
      if decide (heartbeats tr = 1%nat)
      then (UpdateTTL (scriptCheck.id (script w))
              (output_of (exec_output e) (exec_err e))
              (status_of (exec_code e) (exec_err e)) r).2
      else r.
Proof.
  intros Hlive. cbn zeta.
  pose proof (iteration_trace e w r Hlive) as Hit. cbn zeta in Hit.
  assert ((iteration e w r).2 =
            if ctx_done w || sleep_cancel e
               || match exec_ctx e with CtxCanceled => true | _ => false end
            then r
            else match select e w with
                 | CaseCtxDone => r
                 | _ => (UpdateTTL (scriptCheck.id (script w))
                           (output_of (exec_output e) (exec_err e))
                           (status_of (exec_code e) (exec_err e)) r).2
                 end) as Hr.
  { unfold iteration. destruct (select e w).
    - by destruct (_ || _).
    - match goal with |- context [execute e ?w0 r] =>
        pose proof (execute_trace e w0 r Hlive) as Hex end.
      cbn zeta in Hex. cbn [flags emit ctx_done script] in Hex.
      destruct (ctx_done w || sleep_cancel e || _); destruct Hex as (_ & _ & Hex);
        exact Hex.
    - match goal with |- context [execute e ?w0 r] =>
        pose proof (execute_trace e w0 r Hlive) as Hex end.
      cbn zeta in Hex. cbn [flags emit ctx_done script] in Hex.
      destruct (ctx_done w || sleep_cancel e || _); destruct Hex as (_ & _ & Hex);
        exact Hex. }
  rewrite Hr. clear Hr.
  pose proof (select_ctx_done e w) as Hsel.
  destruct (select e w).
  - destruct Hit as [-> _]. rewrite Hsel by done. cbn. split; [lia|done].
  - destruct (ctx_done w || sleep_cancel e || _); destruct Hit as [-> _].
    + cbn. split; [lia|done].
    + destruct (done (iteration e w r).1); cbn; (split; [lia|done]).
  - destruct (ctx_done w || sleep_cancel e || _); destruct Hit as [-> _].
    + cbn. split; [lia|done].
    + destruct (done (iteration e w r).1); cbn; (split; [lia|done]).
Qed.

End WorkerLaws.

Section WorkerLog.
Context `{Externals} {R : Type} `{AgentAPI R}.
Import Worker.

(** X28: what the worker logs about its heartbeats.  In a turn that is
    neither cancelled nor timed out, [lastCheckOk] ends up saying
    whether the heartbeat got through, and the log grows by one line
    only when that changes or the heartbeat fails: a warning for the
    first failure after a success, a debug line for every further
    failure, an info line for the first success after a failure, and
    nothing for a success after a success. *)
Theorem worker_logs_transitions (e : Env) (w : t) (r : R) :
  done w = false →
  ctx_done w = false →
  sleep_cancel e = false →
  exec_ctx e = CtxLive →
  ttl_cancel e = false →
  let name := ServiceCheck.Name (scriptCheck.check (script w)) in
  let err := (UpdateTTL (scriptCheck.id (script w))
                (output_of (exec_output e) (exec_err e))
                (status_of (exec_code e) (exec_err e)) r).1 in
  let w' := (iteration e w r).1 in
  scriptCheck.lastCheckOk (script w')
    = match err with None => true | Some _ => false end
  ∧ logger w' =
      (logger w
       ++ match err, scriptCheck.lastCheckOk (script w) with
          | Some err, true =>
              [Printf "[WARN] consul.checks: update for check %q failed: %v"
                 [OpString name; OpError err]]
          | Some err, false =>
              [Printf "[DEBUG] consul.checks: update for check %q still failing: %v"
                 [OpString name; OpError err]]
          | None, false =>
              [Printf "[INFO] consul.checks: update for check %q succeeded"
                 [OpString name]]
          | None, true => []
          end)%list.
Proof.
  intros Hlive Hc Hs Hctx Ht. cbn zeta.
  pose proof (select_live e w Hc Hs) as Hsel.
  unfold iteration.
  destruct (select e w); [done|..];
    unfold execute; cbn [emit flags ctx_done script]; rewrite Hc, Hs, Hctx;
    cbn [orb]; unfold heartbeat; cbn [emit flags ctx_done script shutdownCh];
    destruct (UpdateTTL _ _ _ r) as [err r'];
    rewrite Hc, Ht; cbn [orb fst];
    destruct w as [s cd sh lg tr dn]; cbn in *;
    subst cd dn;
    destruct err, (scriptCheck.lastCheckOk s) eqn:Hok,
      sh, (sleep_shutdown e), (exec_shutdown e), (ttl_shutdown e);
    cbn; rewrite ?app_nil_r, ?Hok; done.
Qed.

End WorkerLog.


Section UpdateDiff.
Context `{Externals} `{MapRange}.

Implicit Types (ops : operations.t).

Lemma same_identity_id allocID taskName s' s :
  same_identity s' s →
  makeTaskServiceID allocID taskName s' = makeTaskServiceID allocID taskName s.
Proof. intros [Hn Ht]. unfold makeTaskServiceID. by rewrite Hn, Ht. Qed.

Lemma same_identity_trans l1 l2 l3 :
  Forall2 same_identity l1 l2 → Forall2 same_identity l2 l3 →
  Forall2 same_identity l1 l3.
Proof.
  intros H12. revert l3.
  induction H12 as [|s1 s2 l1 l2 [Hn Ht] _ IH]; intros l3 H23;
    inversion H23 as [|? s3 ? l3' [Hn' Ht'] H23']; subst; constructor.
  - split; congruence.
  - by apply IH.
Qed.

Lemma same_identity_refl l : Forall2 same_identity l l.
Proof. induction l; by constructor. Qed.

Lemma foldl_insert_with {A B} (key : A → string) (val : A → B) (l : list A)
    (m : gmap string B) (k : string) :
  foldl (λ m a, <[key a := val a]> m) m l !! k =
    match last_reg key l k with Some a => Some (val a) | None => m !! k end.
Proof.
  unfold last_reg. revert m. induction l as [|a l IH] using rev_ind; intros m.
  - reflexivity.
  - rewrite foldl_app, List.filter_app. cbn [foldl List.filter].
    destruct (String.eqb_spec (key a) k) as [->|Hne].
    + rewrite last_snoc. apply lookup_insert_eq.
    + rewrite app_nil_r, lookup_insert_ne by done. apply IH.
Qed.

Lemma last_reg_is_Some {A} (key : A → string) (l : list A) k :
  is_Some (last_reg key l k) ↔ ∃ a, a ∈ l ∧ key a = k.
Proof.
  split.
  - intros [a Ha]. exists a. by apply last_reg_Some.
  - intros (a & Hin & Hk). unfold last_reg.
    destruct (last (List.filter _ l)) as [b|] eqn:Hlast; [by eexists|].
    apply last_None in Hlast.
    assert (In a (List.filter (λ a, String.eqb (key a) k) l)) as Hf.
    { apply List.filter_In. split; [by apply list_elem_of_In|by apply String.eqb_eq]. }
    rewrite Hlast in Hf. done.
Qed.

(** The two maps [UpdateTask] builds. *)
Lemma UpdateTask_existingIDs_lookup allocID (existing : Task.t) id :
  is_Some (UpdateTask_existingIDs allocID existing !! id)
  ↔ ∃ s, s ∈ Task.Services existing
         ∧ makeTaskServiceID allocID (Task.Name existing) s = id.
Proof.
  unfold UpdateTask_existingIDs.
  rewrite (foldl_insert_lookup (makeTaskServiceID allocID (Task.Name existing))).
  rewrite <- last_reg_is_Some.
  destruct (last_reg _ _ _); [|by rewrite lookup_empty]. split; by eexists.
Qed.

Lemma elem_of_zip_seq {A} (l : list A) i a :
  (i, a) ∈ zip (seq 0 (length l)) l ↔ l !! i = Some a.
Proof.
  rewrite list_elem_of_lookup. split.
  - intros [j Hj]. apply lookup_zip_with_Some in Hj as (x & y & [= <- <-] & Hx & Hy).
    apply lookup_seq in Hx as [-> _]. done.
  - intros Hi. exists i. apply lookup_zip_with_Some. exists i, a. split_and!; try done.
    apply lookup_seq. split; [done|]. by eapply lookup_lt_Some.
Qed.

Lemma UpdateTask_newIDs_lookup allocID (newTask : Task.t) id :
  match UpdateTask_newIDs allocID newTask !! id with
  | Some i =>
      ∃ s, Task.Services newTask !! i = Some s
           ∧ makeTaskServiceID allocID (Task.Name newTask) s = id
  | None =>
      ∀ s, s ∈ Task.Services newTask →
           makeTaskServiceID allocID (Task.Name newTask) s ≠ id
  end.
Proof.
  unfold UpdateTask_newIDs.
  set (l := zip _ _).
  assert (∀ m : gmap string nat,
            foldl (λ m '(i, s), <[makeTaskServiceID allocID (Task.Name newTask) s := i]> m)
                  m l
            = foldl (λ m (a : nat * Service.t),
                       <[makeTaskServiceID allocID (Task.Name newTask) a.2 := a.1]> m)
                    m l) as ->.
  { induction l as [|[i s] l IH]; intros m; [done|]. cbn [foldl]. apply IH. }
  rewrite (foldl_insert_with
             (λ a : nat * Service.t,
                makeTaskServiceID allocID (Task.Name newTask) a.2) fst).
  destruct (last_reg _ l id) as [[i s]|] eqn:Hlast.
  - apply last_reg_Some in Hlast as [Hin Hid]. cbn in *.
    exists s. split; [|done]. by apply elem_of_zip_seq.
  - rewrite lookup_empty. intros s Hs Hid.
    apply list_elem_of_lookup in Hs as [i Hi].
    assert (is_Some (last_reg (λ a : nat * Service.t,
              makeTaskServiceID allocID (Task.Name newTask) a.2) l id)) as [? ?].
    { apply last_reg_is_Some. exists (i, s). split; [|done]. by apply elem_of_zip_seq. }
    congruence.
Qed.

(** The loop over the checks of a common service writes neither list
    of services. *)
Lemma UpdateTask_checks_services existingID existingSvc exec resources ops
    existingChecks checks :
  let ops' := (UpdateTask_checks existingID existingSvc exec resources ops
                 existingChecks checks).1.1.2 in
  operations.regServices ops' = operations.regServices ops
  ∧ operations.deregServices ops' = operations.deregServices ops.
Proof.
  cbn zeta. revert ops existingChecks.
  induction checks as [|check rest IH]; intros ops existingChecks; [done|].
  cbn [UpdateTask_checks].
  destruct (existingChecks !! _).
  { specialize (IH ops (delete (createCheckID existingID check) existingChecks)).
    by destruct (UpdateTask_checks _ _ _ _ _ _ _) as [[[err ops1] ec1] rest1]. }
  assert (∀ ops0,
            operations.regServices ops0 = operations.regServices ops →
            operations.deregServices ops0 = operations.deregServices ops →
            let res :=
              (let '(host, port) :=
                 if negb (String.eqb (ServiceCheck.PortLabel check) "")
                 then FindHostAndPortFor resources (ServiceCheck.PortLabel check)
                 else FindHostAndPortFor resources (Service.PortLabel existingSvc) in
               match createCheckReg existingID (createCheckID existingID check)
                       check host port with
               | (inr err, check) =>
                   (Some err, ops0, existingChecks, check :: rest)
               | (inl checkReg, check) =>
                   let '(err, ops, existingChecks, rest) :=
                     UpdateTask_checks existingID existingSvc exec resources
                       (operations.add_regCheck checkReg ops0) existingChecks rest in
                   (err, ops, existingChecks, check :: rest)
               end) in
            operations.regServices res.1.1.2 = operations.regServices ops
            ∧ operations.deregServices res.1.1.2 = operations.deregServices ops)
    as Hrest.
  { intros ops0 Hr Hd. cbn zeta.
    destruct (if negb _ then _ else _) as [host port].
    destruct (createCheckReg _ _ _ _ _) as [[reg|err] check1]; [|done].
    specialize (IH (operations.add_regCheck reg ops0) existingChecks).
    destruct (UpdateTask_checks _ _ _ _ _ _ _) as [[[err ops1] ec1] rest1].
    cbn in *. destruct IH as [-> ->]. done. }
  destruct (String.eqb (ServiceCheck.Type_ check) ServiceCheckScript).
  - destruct exec as [exec|]; [|done]. by apply Hrest.
  - by apply Hrest.
Qed.

Lemma add_deregChecks_services {A} (f : A → string) l ops :
  let ops' := foldl (λ ops a, operations.add_deregCheck (f a) ops) ops l in
  operations.regServices ops' = operations.regServices ops
  ∧ operations.deregServices ops' = operations.deregServices ops.
Proof.
  cbn zeta. revert ops. induction l as [|a l IH]; intros ops; [done|].
  cbn [foldl]. by destruct (IH (operations.add_deregCheck (f a) ops)) as [-> ->].
Qed.

Lemma add_deregChecks_pairs (l : list (string * ())) ops :
  foldl (λ ops '(cid, _), operations.add_deregCheck cid ops) ops l
  = foldl (λ ops a, operations.add_deregCheck a.1 ops) ops l.
Proof.
  revert ops. induction l as [|[cid []] l IH]; intros ops; [done|].
  cbn [foldl]. apply IH.
Qed.

(** The loop over the existing services. *)
Lemma UpdateTask_existing_spec seed exec resources l ops newIDs news
    err ops' newIDs' news' :
  NoDup l.*1 →
  (∀ k i, newIDs !! k = Some i → is_Some (news !! i)) →
  UpdateTask_existing seed exec resources l ops newIDs news
    = (err, ops', newIDs', news') →
  Forall2 same_identity news' news
  ∧ operations.regServices ops' = operations.regServices ops
  ∧ (err = None →
     (∀ k, newIDs' !! k = if decide (k ∈ l.*1) then None else newIDs !! k)
     ∧ (∀ k, k ∈ operations.deregServices ops'
             ↔ k ∈ operations.deregServices ops
               ∨ (k ∈ l.*1 ∧ newIDs !! k = None))).
Proof.
  revert seed ops newIDs news.
  induction l as [|[existingID existingSvc] l IH];
    intros seed ops newIDs news Hnd Hvalid Hrun.
  - cbn in Hrun. injection Hrun as <- <- <- <-. split_and!; try done.
    + apply same_identity_refl.
    + intros _. split; intros k.
      * by rewrite decide_False by set_solver.
      * split; [by left|]. intros [?|[Hin _]]; [done|]. by apply elem_of_nil in Hin.
  - cbn [fmap list_fmap fst] in Hnd. apply NoDup_cons in Hnd as [Hfresh Hnd].
    cbn [UpdateTask_existing] in Hrun.
    destruct (newIDs !! existingID) as [i|] eqn:Hnew; cbn [mbind option_bind] in Hrun.
    + destruct (Hvalid _ _ Hnew) as [newSvc HnewSvc].
      rewrite HnewSvc in Hrun. cbn [fmap option_fmap option_map] in Hrun.
      pose proof (UpdateTask_checks_services existingID existingSvc exec resources ops
                    (foldl (λ m check, <[createCheckID existingID check := ()]> m)
                           ∅ (Service.Checks existingSvc))
                    (Service.Checks newSvc)) as Hchecks.
      destruct (UpdateTask_checks _ _ _ _ _ _ _) as [[[e ops1] ec1] checks1].
      cbn [fst snd] in Hchecks. destruct Hchecks as [Hrs1 Hds1].
      assert (Forall2 same_identity
                (<[i := Service.set_Checks checks1 newSvc]> news) news) as Hnews1.
      { apply Forall2_same_length_lookup_2; [by rewrite length_insert|].
        intros j s' s Hs' Hs. destruct (decide (j = i)) as [->|Hne].
        - rewrite list_lookup_insert_eq in Hs' by (by eapply lookup_lt_Some).
          by simplify_eq.
        - rewrite list_lookup_insert_ne in Hs' by done. by simplify_eq. }
      destruct e as [e|].
      * injection Hrun as <- <- <- <-. split_and!; done.
      * rewrite add_deregChecks_pairs in Hrun.
        pose proof (add_deregChecks_services fst (range seed ec1) ops1) as Hadd.
        cbn zeta in Hadd. destruct Hadd as [Hrs2 Hds2].
        apply IH in Hrun as (Hnews & Hrs & Hok); [|done|].
        2: { intros k j Hk. apply lookup_delete_Some in Hk as [_ Hk].
             destruct (Hvalid _ _ Hk) as [s Hs].
             apply lookup_lt_is_Some. rewrite length_insert.
             by eapply lookup_lt_Some. }
        split_and!.
        -- by eapply same_identity_trans.
        -- congruence.
        -- intros ->. destruct (Hok eq_refl) as [Hids Hder]. split; intros k.
           ++ rewrite Hids. cbn [fmap list_fmap fst].
              destruct (decide (k ∈ l.*1)).
              ** by rewrite decide_True by set_solver.
              ** destruct (decide (k = existingID)) as [->|Hne].
                 --- rewrite decide_True by set_solver. apply lookup_delete_eq.
                 --- rewrite decide_False by set_solver. by apply lookup_delete_ne.
           ++ rewrite Hder, Hds2, Hds1. cbn [fmap list_fmap fst].
              split.
              ** intros [?|[Hin Hk]]; [by left|]. right. split; [set_solver|].
                 apply lookup_delete_None in Hk as [->|Hk]; [done|done].
              ** intros [?|[Hin Hk]]; [by left|]. right.
                 apply elem_of_cons in Hin as [->|Hin]; [congruence|].
                 split; [done|]. apply lookup_delete_None. by right.
    + match type of Hrun with context [foldl ?g ?o0 ?l0] =>
        pose proof (add_deregChecks_services (createCheckID existingID) l0 o0) as Hadd
      end.
      cbn zeta in Hadd. destruct Hadd as [Hrs2 Hds2].
      apply IH in Hrun as (Hnews & Hrs & Hok); [|done|done].
      split_and!; try done.
      * by rewrite Hrs, Hrs2.
      * intros ->. destruct (Hok eq_refl) as [Hids Hder]. split; intros k.
        -- rewrite Hids. cbn [fmap list_fmap fst].
           destruct (decide (k ∈ l.*1)).
           ++ by rewrite decide_True by set_solver.
           ++ destruct (decide (k = existingID)) as [->|Hne].
              ** by rewrite decide_True by set_solver.
              ** by rewrite decide_False by set_solver.
        -- rewrite Hder, Hds2. cbn [operations.add_deregService operations.deregServices
                                      fmap list_fmap fst].
           rewrite elem_of_app, list_elem_of_singleton. split.
           ++ intros [[?| ->]|[Hin Hk]]; [by left|right|right]; split; set_solver.
           ++ intros [?|[Hin Hk]]; [by left; left|].
              apply elem_of_cons in Hin as [->|Hin]; [left; by right|right; done].
Qed.

(** The loop over the services that are left in [newIDs]. *)
Lemma UpdateTask_remaining_spec allocID exec taskName resources l ops news
    ops' news' :
  (∀ k i, (k, i) ∈ l →
     ∃ s, news !! i = Some s ∧ makeTaskServiceID allocID taskName s = k) →
  UpdateTask_remaining allocID exec taskName resources l ops news
    = (None, ops', news') →
  operations.deregServices ops' = operations.deregServices ops
  ∧ AgentServiceRegistration.ID <$> operations.regServices ops'
    = ((AgentServiceRegistration.ID <$> operations.regServices ops) ++ l.*1)%list.
Proof.
  revert ops news. induction l as [|[k i] l IH]; intros ops news Hl Hrun.
  - cbn in Hrun. injection Hrun as <- <-. by rewrite app_nil_r.
  - cbn [UpdateTask_remaining] in Hrun.
    destruct (Hl k i ltac:(left)) as (s & Hs & Hid). rewrite Hs in Hrun.
    destruct (serviceRegs _ _ _ _ _ _) as [[[e|] ops1] s1] eqn:Hone; [done|].
    apply serviceRegs_ok in Hone as (-> & Hrs1 & Hds1 & _).
    apply IH in Hrun as [Hds Hrs].
    + split; [congruence|]. rewrite Hrs, Hrs1, fmap_app. cbn [fmap list_fmap fst].
      unfold task_service_reg. cbn [AgentServiceRegistration.ID].
      by rewrite Hid, <- app_assoc.
    + intros k' i' Hin. destruct (Hl k' i' ltac:(by right)) as (s' & Hs' & Hid').
      destruct (decide (i' = i)) as [->|Hne].
      * rewrite list_lookup_insert_eq by (by eapply lookup_lt_Some).
        eexists. split; [done|]. simplify_eq. done.
      * rewrite list_lookup_insert_ne by done. by exists s'.
Qed.

(** X29: [UpdateTask] and the services.  The batch that a successful
    [UpdateTask] enqueues deregisters exactly the service IDs that the
    existing task has and the new task has not, and registers exactly
    the service IDs that the new task has and the existing task has
    not.  A service whose ID both tasks have is neither deregistered
    nor registered again, whatever has changed in its checks. *)
Theorem UpdateTask_service_diff seed pick allocID (existing newTask : Task.t)
    exec (c c' : ServiceClient.t) task' :
  ServiceClient.shutdownCh c = false →
  UpdateTask seed pick allocID existing newTask exec c = Some (None, c', task') →
  ∃ ops,
    ServiceClient.opCh c' = (ServiceClient.opCh c ++ [ops])%list
    ∧ (∀ id, id ∈ operations.deregServices ops
             ↔ (∃ s, s ∈ Task.Services existing
                     ∧ makeTaskServiceID allocID (Task.Name existing) s = id)
               ∧ ¬ (∃ s, s ∈ Task.Services newTask
                         ∧ makeTaskServiceID allocID (Task.Name newTask) s = id))
    ∧ (∀ id, id ∈ AgentServiceRegistration.ID <$> operations.regServices ops
             ↔ (∃ s, s ∈ Task.Services newTask
                     ∧ makeTaskServiceID allocID (Task.Name newTask) s = id)
               ∧ ¬ (∃ s, s ∈ Task.Services existing
                         ∧ makeTaskServiceID allocID (Task.Name existing) s = id)).
Proof.
  intros Hsh. unfold UpdateTask.
  set (existingIDs := UpdateTask_existingIDs allocID existing).
  set (newIDs := UpdateTask_newIDs allocID newTask).
  assert (∀ id, is_Some (existingIDs !! id)
                ↔ ∃ s, s ∈ Task.Services existing
                       ∧ makeTaskServiceID allocID (Task.Name existing) s = id)
    as Hwas by apply UpdateTask_existingIDs_lookup.
  assert (∀ id, is_Some (newIDs !! id)
                ↔ ∃ s, s ∈ Task.Services newTask
                       ∧ makeTaskServiceID allocID (Task.Name newTask) s = id)
    as His.
  { intros id. pose proof (UpdateTask_newIDs_lookup allocID newTask id) as Hl.
    fold newIDs in Hl. destruct (newIDs !! id) as [i|].
    - destruct Hl as (s & Hs & Hid). split; [|by eexists]. intros _.
      exists s. split; [|done]. by eapply list_elem_of_lookup_2.
    - split; [by intros [? ?]|]. intros (s & Hs & Hid). by destruct (Hl s Hs). }
  assert (∀ k i, newIDs !! k = Some i →
            ∃ s, Task.Services newTask !! i = Some s
                 ∧ makeTaskServiceID allocID (Task.Name newTask) s = k) as Hvalid.
  { intros k i Hk. pose proof (UpdateTask_newIDs_lookup allocID newTask k) as Hl.
    fold newIDs in Hl. by rewrite Hk in Hl. }
  destruct (UpdateTask_existing _ _ _ _ _ _ _) as [[[[e|] ops1] newIDs1] news1]
    eqn:Hloop1; [done|].
  apply UpdateTask_existing_spec in Hloop1 as (Hnews1 & Hrs1 & Hok1).
  2: { rewrite range_perm. apply NoDup_fst_map_to_list. }
  2: { intros k i Hk. destruct (Hvalid k i Hk) as (s & Hs & _). by eexists. }
  destruct (Hok1 eq_refl) as [Hids1 Hder1]. clear Hok1.
  destruct (UpdateTask_remaining _ _ _ _ _ _ _) as [[[e|] ops2] news2]
    eqn:Hloop2; [done|].
  apply UpdateTask_remaining_spec in Hloop2 as [Hds2 Hrs2].
  2: { intros k i Hin%elem_of_range. rewrite Hids1 in Hin.
       case_decide; [done|]. destruct (Hvalid k i Hin) as (s & Hs & Hid).
       destruct (Forall2_lookup_r _ _ _ _ _ Hnews1 Hs) as (s1 & Hs1 & Hsame).
       exists s1. split; [done|]. rewrite <- Hid. by apply same_identity_id. }
  unfold commit. rewrite Hsh. case_bool_decide; [|done].
  intros [= <- <-]. exists ops2. split; [done|].
  assert (∀ k, k ∈ (range seed existingIDs).*1 ↔ is_Some (existingIDs !! k)) as Hkeys.
  { intros k. rewrite list_elem_of_fmap. split.
    - intros ([k' s] & -> & Hin%elem_of_range). by eexists.
    - intros [s Hs]. exists (k, s). split; [done|]. by apply elem_of_range. }
  split.
  - intros id. rewrite Hds2, Hder1, Hkeys, Hwas, <- His. cbn.
    rewrite elem_of_nil, eq_None_not_Some. naive_solver.
  - intros id. rewrite Hrs2, Hrs1. cbn [operations.regServices operations.empty
                                        fmap list_fmap app].
    rewrite <- His, <- Hwas, <- Hkeys. rewrite list_elem_of_fmap. split.
    + intros ([k i] & -> & Hin%elem_of_range). cbn [fst].
      rewrite Hids1 in Hin. case_decide; [done|]. split; [by eexists|done].
    + intros [[i Hi] Hnot]. exists (id, i). split; [done|].
      apply elem_of_range. rewrite Hids1. by rewrite decide_False.
Qed.

End UpdateDiff.

Section UpdateSame.
Context `{Externals} `{MapRange}.

Implicit Types (ops : operations.t).

Lemma range_empty seed {V} : range seed (∅ : gmap string V) = [].
Proof.
  apply Permutation_nil_r. rewrite range_perm. by rewrite map_to_list_empty.
Qed.

(** The loop over the checks of a service when every check is known:
    nothing is registered, every check is struck from the set. *)
Lemma UpdateTask_checks_known existingID existingSvc exec resources ops
    (existingChecks : gmap string ()) checks :
  NoDup (createCheckID existingID <$> checks) →
  (∀ check, check ∈ checks →
     is_Some (existingChecks !! createCheckID existingID check)) →
  UpdateTask_checks existingID existingSvc exec resources ops existingChecks checks
  = (None, ops,
     foldl (λ m check, delete (createCheckID existingID check) m) existingChecks checks,
     checks).
Proof.
  revert existingChecks. induction checks as [|check rest IH];
    intros existingChecks Hnd Hall; [done|].
  cbn [fmap list_fmap] in Hnd. apply NoDup_cons in Hnd as [Hfresh Hnd].
  cbn [UpdateTask_checks foldl].
  destruct (Hall check ltac:(left)) as [[] ->].
  rewrite IH; [done|done|].
  intros check' Hin. rewrite lookup_delete_ne.
  - apply Hall. by right.
  - intros Heq. apply Hfresh. rewrite Heq. apply list_elem_of_fmap. by exists check'.
Qed.

Lemma set_Checks_same (s : Service.t) : Service.set_Checks (Service.Checks s) s = s.
Proof. by destruct s. Qed.

Lemma struck_all (id : string) (checks : list ServiceCheck.t) :
  foldl (λ m check, delete (createCheckID id check) m)
    (foldl (λ m check, <[createCheckID id check := ()]> m) (∅ : gmap string ()) checks)
    checks = ∅.
Proof.
  apply map_empty. intros k.
  assert (∀ (m : gmap string ()) l,
            foldl (λ m check, delete (createCheckID id check) m) m l !! k
            = if decide (k ∈ createCheckID id <$> l) then None else m !! k) as Hdel.
  { intros m l. revert m. induction l as [|a l IH]; intros m; cbn [foldl].
    - by rewrite decide_False by set_solver.
    - rewrite IH. cbn [fmap list_fmap]. destruct (decide (k ∈ createCheckID id <$> l)).
      + by rewrite decide_True by set_solver.
      + destruct (decide (k = createCheckID id a)) as [->|Hne].
        * rewrite decide_True by set_solver. apply lookup_delete_eq.
        * rewrite decide_False by set_solver. by apply lookup_delete_ne. }
  rewrite Hdel. case_decide as Hin; [done|].
  rewrite (foldl_insert_with (createCheckID id) (λ _, ())).
  destruct (last_reg _ _ _) as [a|] eqn:Hlast; [|by rewrite lookup_empty].
  apply last_reg_Some in Hlast as [Ha <-]. exfalso. apply Hin.
  apply list_elem_of_fmap. by exists a.
Qed.

(** The loop over the existing services when each of them is in the
    new task as it is. *)
Lemma UpdateTask_existing_same seed exec resources l ops (newIDs : gmap string nat)
    news :
  NoDup l.*1 →
  (∀ id svc, (id, svc) ∈ l →
     (∃ i, newIDs !! id = Some i ∧ news !! i = Some svc)
     ∧ NoDup (createCheckID id <$> Service.Checks svc)) →
  UpdateTask_existing seed exec resources l ops newIDs news
  = (None, ops, foldl (λ m id, delete id m) newIDs l.*1, news).
Proof.
  revert seed newIDs. induction l as [|[id svc] l IH]; intros seed newIDs Hnd Hl; [done|].
  cbn [fmap list_fmap fst] in Hnd. apply NoDup_cons in Hnd as [Hfresh Hnd].
  cbn [UpdateTask_existing fmap list_fmap fst foldl].
  destruct (Hl id svc ltac:(left)) as [(i & Hi & Hsvc) Hchecks].
  rewrite Hi. cbn [mbind option_bind]. rewrite Hsvc. cbn [fmap option_fmap option_map].
  rewrite UpdateTask_checks_known; [|done|].
  2: { intros check Hin.
       rewrite (foldl_insert_with (createCheckID id) (λ _, ())).
       assert (is_Some (last_reg (createCheckID id) (Service.Checks svc)
                          (createCheckID id check))) as [a ->]; [|by eexists].
       apply last_reg_is_Some. by exists check. }
  rewrite struck_all, range_empty. cbn [foldl].
  rewrite set_Checks_same, list_insert_id by done.
  apply IH; [done|].
  intros id' svc' Hin. destruct (Hl id' svc' ltac:(by right)) as [(i' & Hi' & Hsvc') Hc'].
  split; [|done]. exists i'. split; [|done].
  rewrite lookup_delete_ne; [done|]. intros ->. apply Hfresh.
  apply list_elem_of_fmap. by exists (id', svc').
Qed.

(** For one and the same list of services, the map of the new task
    holds the position of the service that the map of the existing
    task holds. *)
Lemma UpdateTask_maps_same allocID name resources (services : list Service.t) id :
  UpdateTask_existingIDs allocID (Task.mk _ name services resources) !! id
  = UpdateTask_newIDs allocID (Task.mk _ name services resources) !! id
      ≫= (λ i, services !! i).
Proof.
  unfold UpdateTask_existingIDs, UpdateTask_newIDs. cbn [Task.Services Task.Name].
  induction services as [|a services IH] using rev_ind.
  - cbn. by rewrite !lookup_empty.
  - rewrite length_app. cbn [length]. rewrite Nat.add_1_r, seq_S.
    rewrite zip_with_app by (by rewrite length_seq).
    rewrite !foldl_app. cbn [zip_with foldl plus].
    destruct (decide (makeTaskServiceID allocID name a = id)) as [<-|Hne].
    + rewrite !lookup_insert_eq. cbn. by rewrite lookup_app_r, Nat.sub_diag.
    + rewrite !lookup_insert_ne by done. rewrite IH.
      pose proof (UpdateTask_newIDs_lookup allocID
                    (Task.mk _ name services resources) id) as Hvalid.
      unfold UpdateTask_newIDs in Hvalid. cbn [Task.Services Task.Name] in Hvalid.
      destruct (foldl _ ∅ (zip _ services) !! id) as [i|]; [|done].
      destruct Hvalid as (s & Hs & _). cbn.
      rewrite lookup_app_l; [done|]. by eapply lookup_lt_Some.
Qed.

(** X30: an update that changes nothing.  [UpdateTask] with the same
    task as existing and as new, when no service of the task has two
    checks with the same ID, enqueues an empty batch: nothing is
    registered, nothing deregistered, no script check created, and the
    task is left as it was. *)
Theorem UpdateTask_same_task seed pick allocID (task : Task.t) exec
    (c : ServiceClient.t) :
  (∀ s, s ∈ Task.Services task →
     NoDup (createCheckID (makeTaskServiceID allocID (Task.Name task) s)
              <$> Service.Checks s)) →
  UpdateTask seed pick allocID task task exec c
  = match commit pick operations.empty c with
    | Some (_, c') => Some (None, c', task)
    | None => None
    end.
Proof.
  intros Hnd. unfold UpdateTask.
  set (existingIDs := UpdateTask_existingIDs allocID task).
  set (newIDs := UpdateTask_newIDs allocID task).
  assert (∀ id, existingIDs !! id = newIDs !! id ≫= (λ i, Task.Services task !! i))
    as Hmaps.
  { intros id. unfold existingIDs, newIDs. destruct task as [name services resources].
    apply UpdateTask_maps_same. }
  rewrite UpdateTask_existing_same.
  2: { rewrite range_perm. apply NoDup_fst_map_to_list. }
  2: { intros id svc Hin%elem_of_range. rewrite Hmaps in Hin.
       destruct (newIDs !! id) as [i|] eqn:Hi; [|done]. cbn in Hin.
       split; [by exists i|].
       pose proof (UpdateTask_newIDs_lookup allocID task id) as Hl.
       fold newIDs in Hl. rewrite Hi in Hl. destruct Hl as (s & Hs & <-).
       simplify_eq. apply Hnd. by eapply list_elem_of_lookup_2. }
  assert (foldl (λ m id, delete id m) newIDs (range seed existingIDs).*1 = ∅) as ->.
  { apply map_empty. intros k. rewrite foldl_delete_lookup.
    case_decide as Hin; [done|].
    destruct (newIDs !! k) as [i|] eqn:Hi; [|done]. exfalso. apply Hin.
    pose proof (UpdateTask_newIDs_lookup allocID task k) as Hl.
    fold newIDs in Hl. rewrite Hi in Hl. destruct Hl as (s & Hs & _).
    apply list_elem_of_fmap. exists (k, s). split; [done|].
    apply elem_of_range. by rewrite Hmaps, Hi. }
  rewrite range_empty. cbn [UpdateTask_remaining].
  assert (Task.set_Services (Task.Services task) task = task) as ->
    by (by destruct task).
  by destruct (commit pick operations.empty c) as [[b c1]|].
Qed.

End UpdateSame.

(** ** The properties at work *)

Section Witnesses.
#[local] Existing Instance Sample.externals.
#[local] Existing Instance Sample.order.

Lemma Fleet_desired_services :
  ServiceClient.services Fleet.desired
  = {[Fleet.serviceID :=
        AgentServiceRegistration.mk Fleet.serviceID "web" ["v1"] "10.0.0.1" 8080]}.
Proof. vm_compute. reflexivity. Qed.

Lemma Fleet_desired_checks :
  ServiceClient.checks Fleet.desired
  = {[Lifecycle.checkID :=
        AgentCheckRegistration.mk Lifecycle.checkID "alive" Fleet.serviceID
          "" "2s" "10s" "" "" "41s"]}.
Proof. vm_compute. reflexivity. Qed.

Lemma Fleet_desired_services_filed id s :
  ServiceClient.services Fleet.desired !! id = Some s →
  AgentServiceRegistration.ID s = id.
Proof.
  rewrite Fleet_desired_services. by intros [<- <-]%lookup_singleton_Some.
Qed.

Lemma Fleet_desired_checks_filed id ch :
  ServiceClient.checks Fleet.desired !! id = Some ch →
  AgentCheckRegistration.ID ch = id.
Proof.
  rewrite Fleet_desired_checks. by intros [<- <-]%lookup_singleton_Some.
Qed.

Lemma createCheckReg_one_kind_witness :
  AgentCheckRegistration.TCP
    (AgentCheckRegistration.mk "c1" "alive" "s1" "" "2s" "10s" "" "10.0.0.1:8080" "")
  = "10.0.0.1:8080".
Proof.
  destruct (createCheckReg_one_kind "s1" "c1" (Sample.check "tcp" (10 * Go.Second))
              "10.0.0.1" 8080
              (AgentCheckRegistration.mk "c1" "alive" "s1" "" "2s" "10s" ""
                 "10.0.0.1:8080" "") eq_refl)
    as (_ & _ & _ & _ & _ & _ & [(Hty & _)|[(_ & _ & Htcp & _)|(Hty & _)]]);
    [discriminate Hty|exact Htcp|discriminate Hty].
Defined.

Lemma merge_unknown_deregistrations_witness :
  merge Lifecycle.removal NewServiceClient = NewServiceClient.
Proof.
  apply merge_unknown_deregistrations; [reflexivity..| |].
  - intros id _. apply lookup_empty.
  - intros id _. split; apply lookup_empty.
Defined.

Lemma sync_installs_services_witness :
  Registry.services Fleet.remote !! Fleet.serviceID
  = Some (AgentService.mk Fleet.serviceID "web" ["v1"] 8080 "10.0.0.1").
Proof.
  apply (sync_installs_services 0 Fleet.desired Lifecycle.registry Fleet.serviceID
           (AgentServiceRegistration.mk Fleet.serviceID "web" ["v1"] "10.0.0.1" 8080)).
  - apply Fleet_desired_services_filed.
  - vm_compute. reflexivity.
  - vm_compute. reflexivity.
Defined.

Lemma sync_installs_checks_witness :
  Registry.checks Fleet.remote !! Lifecycle.checkID
  = Some (AgentCheck.mk Lifecycle.checkID "alive" "" "" Fleet.serviceID).
Proof.
  apply (sync_installs_checks 0 Fleet.desired Lifecycle.registry Lifecycle.checkID
           (AgentCheckRegistration.mk Lifecycle.checkID "alive" Fleet.serviceID
              "" "2s" "10s" "" "" "41s")).
  - apply Fleet_desired_checks_filed.
  - vm_compute. reflexivity.
  - vm_compute. reflexivity.
Defined.

Lemma sync_removes_stale_checks_witness :
  is_Some (ServiceClient.checks Fleet.desired !! Lifecycle.checkID).
Proof.
  apply (sync_removes_stale_checks 0 Fleet.desired Lifecycle.registry
           Lifecycle.checkID
           (AgentCheck.mk Lifecycle.checkID "alive" "" "" Fleet.serviceID)).
  - apply Fleet_desired_checks_filed.
  - vm_compute. reflexivity.
  - vm_compute. reflexivity.
  - reflexivity.
Defined.

Lemma sync_reconciled_is_quiet_witness :
  (sync 1 Fleet.synced Fleet.remote).1.1 = None
  ∧ Registry.calls (sync 1 Fleet.synced Fleet.remote).2
    = (Registry.calls Fleet.remote
       ++ [Registry.CallServices; Registry.CallChecks])%list.
Proof.
  assert (ServiceClient.services Fleet.synced
          = ServiceClient.services Fleet.desired) as Hs
    by (vm_compute; reflexivity).
  assert (ServiceClient.checks Fleet.synced
          = ServiceClient.checks Fleet.desired) as Hc
    by (vm_compute; reflexivity).
  assert (Registry.services Fleet.remote
          = {[Fleet.serviceID :=
                AgentService.mk Fleet.serviceID "web" ["v1"] 8080 "10.0.0.1"]})
    as Hrs by (vm_compute; reflexivity).
  assert (Registry.checks Fleet.remote
          = {[Lifecycle.checkID :=
                AgentCheck.mk Lifecycle.checkID "alive" "" "" Fleet.serviceID]})
    as Hrc by (vm_compute; reflexivity).
  rewrite (sync_reconciled_is_quiet 1 Fleet.synced Fleet.remote
             (Registry.receive Registry.CallServices Fleet.remote).2
             (Registry.receive Registry.CallChecks
                (Registry.receive Registry.CallServices Fleet.remote).2).2
             (Registry.services Fleet.remote) (Registry.checks Fleet.remote)).
  - split; [reflexivity|]. vm_compute. reflexivity.
  - vm_compute. reflexivity.
  - vm_compute. reflexivity.
  - intros id. rewrite Hs, Fleet_desired_services, Hrs.
    intros [s [<- _]%lookup_singleton_Some]. by rewrite lookup_singleton_eq.
  - intros id. rewrite Hs, Fleet_desired_services, Hrs.
    intros [s [<- _]%lookup_singleton_Some] _. by rewrite lookup_singleton_eq.
  - intros id. rewrite Hc, Fleet_desired_checks, Hrc.
    intros [s [<- _]%lookup_singleton_Some]. by rewrite lookup_singleton_eq.
  - intros id v. rewrite Hc, Fleet_desired_checks, Hrc.
    intros [<- _]%lookup_singleton_Some _. by rewrite lookup_singleton_eq.
Defined.

Lemma sync_starts_missing_scripts_witness :
  ServiceClient.runningScripts Fleet.synced !! Lifecycle.checkID
  = Some (scriptHandle.mk false).
Proof.
  apply (sync_starts_missing_scripts 0 Fleet.desired Lifecycle.registry
           (Registry.receive Registry.CallServices Lifecycle.registry).2
           (Registry.receive Registry.CallChecks
              (Registry.receive Registry.CallServices Lifecycle.registry).2).2
           ∅ ∅ Lifecycle.checkID).
  - vm_compute. reflexivity.
  - vm_compute. reflexivity.
  - vm_compute. reflexivity.
  - rewrite Fleet_desired_checks, lookup_singleton_eq. by eexists.
  - apply lookup_empty.
  - vm_compute. by eexists.
Defined.

Lemma Fleet_drained : Run_body WakeOp Fleet.draining = Some Fleet.drained.
Proof. vm_compute. reflexivity. Qed.

Lemma Run_exits_after_shutdown_witness :
  ∃ st2,
    Run_shutdownCheck Fleet.drained = Some st2
    ∧ RunState.pc st2 = Exited
    ∧ ServiceClient.exitCh (RunState.client st2) = true
    ∧ ServiceClient.opCh (RunState.client st2) = [].
Proof.
  destruct (Run_exits_after_shutdown Fleet.draining WakeOp Fleet.drained
              eq_refl eq_refl Fleet_drained)
    as (_ & st2 & Hcheck & Hpc & Hex & Hq & _).
  exists st2. split; [exact Hcheck|]. split; [exact Hpc|].
  split; [exact Hex|exact Hq].
Defined.


Lemma Run_exit_needs_shutdown_witness :
  (RunState.pc Fleet.exited = Exited
   ↔ ServiceClient.exitCh (RunState.client Fleet.exited) = true)
  ∧ (RunState.pc Fleet.exited = Exited →
     ServiceClient.shutdownCh (RunState.client Fleet.exited) = true)
  ∧ ServiceClient.retryInterval (RunState.client Fleet.exited) = Go.Second
  ∧ ServiceClient.maxRetryInterval (RunState.client Fleet.exited) = 30 * Go.Second
  ∧ ServiceClient.shutdownWait (RunState.client Fleet.exited) = Go.Minute.
Proof.
  apply (Run_exit_needs_shutdown Fleet.shutdown Lifecycle.registry Fleet.exited).
  vm_compute. reflexivity.
Defined.

Lemma Fleet_registration :
  RegisterTask_services operations.empty "a1" (Some tt) "web" tt [Lifecycle.web]
  = (None, Fleet.registration, [Lifecycle.web]).
Proof. vm_compute. reflexivity. Qed.

Lemma RegisterTask_batch_witness :
  AgentServiceRegistration.ID <$> operations.regServices Fleet.registration
  = [Fleet.serviceID]
  ∧ AgentCheckRegistration.ID <$> operations.regChecks Fleet.registration
    = [Lifecycle.checkID].
Proof.
  destruct (RegisterTask_batch (H := Sample.externals) "a1" (Some tt) "web" tt
              [Lifecycle.web] Fleet.registration [Lifecycle.web]
              Fleet_registration)
    as (Hs & Hc & _).
  split.
  - rewrite Hs. vm_compute. reflexivity.
  - rewrite Hc. vm_compute. reflexivity.
Defined.

End Witnesses.

Section MoreWitnesses.
#[local] Existing Instance Sample.externals.
#[local] Existing Instance Sample.order.

Lemma Fleet_next_registered :
  RegisterTask PickSend "a1" Fleet.next None NewServiceClient
  = Some (None,
          ServiceClient.set_opCh
            [(RegisterTask_services operations.empty "a1" None "web" tt
                [Fleet.api]).1.2] NewServiceClient,
          Task.set_Services [with_default_protocols Fleet.api] Fleet.next).
Proof. vm_compute. reflexivity. Qed.

Lemma RegisterTask_writes_default_protocol_witness :
  Task.set_Services [with_default_protocols Fleet.api] Fleet.next
  = Task.set_Services (with_default_protocols <$> Task.Services Fleet.next)
      Fleet.next.
Proof.
  exact (RegisterTask_writes_default_protocol (H := Sample.externals)
           PickSend "a1" Fleet.next None
           NewServiceClient _ _ Fleet_next_registered).
Defined.

Lemma Fleet_renewal :
  RegisterTask_services operations.empty "a1" None "web" tt [Fleet.api]
  = (None, Fleet.renewal, [with_default_protocols Fleet.api]).
Proof. vm_compute. reflexivity. Qed.

Lemma RemoveTask_undoes_RegisterTask_witness :
  operations.deregChecks
    (RemoveTask_ops "a1"
       (Task.set_Services [with_default_protocols Fleet.api] Fleet.next))
  = AgentCheckRegistration.ID <$> operations.regChecks Fleet.renewal
  ∧ ServiceClient.checks
      (merge
         (RemoveTask_ops "a1"
            (Task.set_Services [with_default_protocols Fleet.api] Fleet.next))
         (merge Fleet.renewal NewServiceClient))
    = ServiceClient.checks NewServiceClient.
Proof.
  destruct (RemoveTask_undoes_RegisterTask (H := Sample.externals) "a1" None
              Fleet.next Fleet.renewal [with_default_protocols Fleet.api]
              NewServiceClient Fleet_renewal)
    as (_ & _ & _ & _ & _ & Hchecks).
  destruct Hchecks as [Hids Hback].
  - intros service check _ _. unfold with_default_protocol.
    by destruct (_ && _).
  - split; [exact Hids|]. apply Hback. intros reg _. apply lookup_empty.
Defined.

Lemma RegisterTask_needs_executor_witness :
  ∃ err task',
    RegisterTask PickSend "a1" Lifecycle.task None NewServiceClient
    = Some (Some err, NewServiceClient, task').
Proof.
  destruct (RegisterTask_needs_executor (H := Sample.externals) PickSend "a1"
              Lifecycle.task NewServiceClient Lifecycle.web
              (Sample.check "script" (10 * Go.Second)))
    as (err & task' & Hreg & _).
  - apply list_elem_of_here.
  - apply list_elem_of_here.
  - reflexivity.
  - by exists err, task'.
Defined.

Lemma RegisterAgent_rejects_scripts_witness :
  ∃ err services',
    RegisterAgent PickSend "client" [Fleet.serf; Lifecycle.web] NewServiceClient
    = Some (Some err, NewServiceClient, services').
Proof.
  apply (RegisterAgent_rejects_scripts (H := Sample.externals) PickSend "client"
           [Fleet.serf; Lifecycle.web] NewServiceClient Lifecycle.web
           (Sample.check "script" (10 * Go.Second))).
  - apply list_elem_of_further, list_elem_of_here.
  - apply list_elem_of_here.
  - reflexivity.
Defined.

Lemma Fleet_shutdown_signal :
  Shutdown_signal 0 PickSend NewServiceClient
  = Some (ServiceClient.set_shutdownCh true
            (ServiceClient.set_opCh [operations.empty] NewServiceClient)).
Proof. vm_compute. reflexivity. Qed.

Lemma Shutdown_deregisters_agent_witness :
  Shutdown_signal 1 PickShutdown
    (ServiceClient.set_shutdownCh true
       (ServiceClient.set_opCh [operations.empty] NewServiceClient))
  = Some (ServiceClient.set_shutdownCh true
            (ServiceClient.set_opCh [operations.empty] NewServiceClient)).
Proof.
  exact (proj2 (Shutdown_deregisters_agent (H := Sample.externals) 0 PickSend
                  NewServiceClient _ eq_refl Fleet_shutdown_signal)
           1%nat PickShutdown).
Defined.

Lemma Fleet_agent_registered :
  RegisterAgent PickSend "server" [Fleet.serf] NewServiceClient
  = Some (None, Fleet.serving, [Fleet.serf]).
Proof. vm_compute. reflexivity. Qed.

Lemma Fleet_agent_shutdown :
  Shutdown_signal 0 PickSend Fleet.serving = Some Fleet.served.
Proof. vm_compute. reflexivity. Qed.

Lemma Shutdown_undoes_RegisterAgent_witness :
  ∃ registration removal,
    ServiceClient.opCh Fleet.served
    = (ServiceClient.opCh NewServiceClient ++ [registration; removal])%list
    ∧ (∀ reg, reg ∈ operations.regServices registration →
              AgentServiceRegistration.ID reg ∈ operations.deregServices removal)
    ∧ operations.regServices removal = [].
Proof.
  destruct (Shutdown_undoes_RegisterAgent (H := Sample.externals)
              (H0 := Sample.order) PickSend "server" [Fleet.serf]
              NewServiceClient Fleet.serving [Fleet.serf] 0 PickSend Fleet.served
              eq_refl Fleet_agent_registered Fleet_agent_shutdown)
    as (registration & removal & Hq & _ & _ & Hs & _ & Hr & _).
  exists registration, removal.
  split; [exact Hq|]. split; [exact Hs|exact Hr].
Defined.

Lemma worker_cancel_stops_witness :
  Worker.done (Worker.iteration Fleet.cancelled Probe.asleep Probe.registry).1 = true
  ∧ (Worker.iteration Fleet.cancelled Probe.asleep Probe.registry).2
    = Probe.registry.
Proof.
  destruct (worker_cancel_stops (H := Sample.externals) Fleet.cancelled
              Probe.asleep Probe.registry eq_refl eq_refl)
    as (Hd & _ & _ & Hr).
  split; [exact Hd|exact Hr].
Defined.

Lemma worker_returns_when_told_witness :
  Worker.done (Worker.iteration Probe.shutdown Probe.asleep Probe.registry).1
  = true.
Proof.
  exact (worker_returns_when_told (H := Sample.externals) Probe.shutdown
           Probe.asleep Probe.registry eq_refl).
Defined.

Lemma worker_turn_shape_witness :
  (Worker.heartbeats
     (Worker.since Probe.worker
        (Worker.iteration (Probe.tick 0 None) Probe.worker Probe.registry).1)
   ≤ Worker.probes
       (Worker.since Probe.worker
          (Worker.iteration (Probe.tick 0 None) Probe.worker Probe.registry).1)
   ≤ 1)%nat.
Proof.
  exact (proj1 (worker_turn_shape (H := Sample.externals)
                  (Probe.tick 0 None) Probe.worker Probe.registry eq_refl)).
Defined.

Lemma worker_logs_transitions_witness :
  scriptCheck.lastCheckOk
    (Worker.script
       (Worker.iteration (Probe.tick 0 None) Probe.worker Lifecycle.registry).1)
  = false.
Proof.
  exact (proj1 (worker_logs_transitions (H := Sample.externals)
                  (Probe.tick 0 None) Probe.worker Lifecycle.registry
                  eq_refl eq_refl eq_refl eq_refl eq_refl)).
Defined.

Lemma Fleet_updated :
  UpdateTask 0 PickSend "a1" Lifecycle.task Fleet.next None NewServiceClient
  = Some (None, Fleet.updated,
          Task.set_Services [with_default_protocols Fleet.api] Fleet.next).
Proof. vm_compute. reflexivity. Qed.

Lemma UpdateTask_service_diff_witness :
  ∃ ops,
    ServiceClient.opCh Fleet.updated = [ops]
    ∧ Fleet.serviceID ∈ operations.deregServices ops.
Proof.
  destruct (UpdateTask_service_diff (H := Sample.externals) (H0 := Sample.order)
              0 PickSend "a1" Lifecycle.task Fleet.next None NewServiceClient
              Fleet.updated _ eq_refl Fleet_updated)
    as (ops & Hq & Hd & _).
  exists ops. split; [exact Hq|]. apply Hd. split.
  - exists Lifecycle.web. split; [apply list_elem_of_here|reflexivity].
  - intros (s & Hs & Hid). apply list_elem_of_singleton in Hs. subst s.
    vm_compute in Hid. discriminate Hid.
Defined.

Lemma UpdateTask_same_task_witness :
  UpdateTask 0 PickSend "a1" Lifecycle.task Lifecycle.task (Some tt)
    NewServiceClient
  = Some (None, ServiceClient.set_opCh [operations.empty] NewServiceClient,
          Lifecycle.task).
Proof.
  apply (UpdateTask_same_task (H := Sample.externals) (H0 := Sample.order)
           0 PickSend "a1" Lifecycle.task (Some tt) NewServiceClient).
  intros s Hs. apply list_elem_of_singleton in Hs. subst s.
  apply NoDup_singleton.
Defined.

End MoreWitnesses.
